(** * A shallow embedding of [project.py]: the trial-splitting parser for
      propositional formulas and its truth-table printer.

    The Python module keeps one global dictionary [VARS], indexes the formula
    with integer positions, retries operator splits with [str.rfind] and asks
    z3 for the value of every row.  The embedding follows that shape:
    positions are [Z], the dictionary is threaded as state, the exceptions
    the program raises are outcomes, and a recursion or a [while] loop that
    does not come back is a run that exhausts any amount of fuel.

    The fuel of a run is the depth to which the calls of [X] may nest.  The
    interpreter has such a bound of its own, the recursion limit, and stops
    a run that nests deeper with [RecursionError]; the limit is a setting of
    the interpreter and not of the program, and it is not modelled: a run
    for which no fuel suffices is one that, in CPython, loops for ever or
    ends in [RecursionError], and the embedding does not tell the two
    apart. *)

From Stdlib Require Import ZArith List String Ascii Bool Lia.
From Stdlib Require Import Permutation Sorted.
Import ListNotations.
Local Open Scope string_scope.
Local Open Scope list_scope.
Local Open Scope Z_scope.

(* ===================================================================== *)
(** ** The z3 fragment used by the program *)
(* ===================================================================== *)

Module Z3.

(** z3's [BoolRef] terms, with the constructors [project.py] imports.  [And]
    and [Or] take any number of arguments, as in z3py; [Eq a b] is the term
    built by the overloaded [a == b]. *)
#[local] Unset Elimination Schemes.
Inductive expr : Type :=
| Bool (name : ascii)
| BoolVal (b : bool)
| Not (a : expr)
| And (args : list expr)
| Or (args : list expr)
| Implies (a b : expr)
| Eq (a b : expr).
#[local] Set Elimination Schemes.

(** Value of a term in an interpretation of the boolean constants. *)
Fixpoint eval (m : ascii -> bool) (e : expr) : bool :=
  match e with
  | Bool c => m c
  | BoolVal b => b
  | Not a => negb (eval m a)
  | And args => forallb (eval m) args
  | Or args => existsb (eval m) args
  | Implies a b => implb (eval m a) (eval m b)
  | Eq a b => Bool.eqb (eval m a) (eval m b)
  end.

(** The constants a term mentions, left to right. *)
Fixpoint consts (e : expr) : list ascii :=
  match e with
  | Bool c => [c]
  | BoolVal _ => []
  | Not a => consts a
  | And args => flat_map consts args
  | Or args => flat_map consts args
  | Implies a b => consts a ++ consts b
  | Eq a b => consts a ++ consts b
  end.

Definition update (m : ascii -> bool) (c : ascii) (b : bool) : ascii -> bool :=
  fun c' => if Ascii.eqb c' c then b else m c'.

(** Every interpretation of the listed constants (all others false). *)
Fixpoint interpretations (cs : list ascii) : list (ascii -> bool) :=
  match cs with
  | [] => [fun _ => false]
  | c :: cs' =>
      flat_map (fun m => [update m c false; update m c true])
               (interpretations cs')
  end.

Inductive CheckSatResult : Type := sat | unsat.

Definition is_sat (r : CheckSatResult) : bool :=
  match r with sat => true | unsat => false end.

(** A [Solver] object is the list of asserted terms. *)
Record Solver : Type := mkSolver { assertions : list expr }.

Definition new_solver : Solver := mkSolver [].

Definition add (s : Solver) (e : expr) : Solver :=
  mkSolver (assertions s ++ [e]).

(** [s.check( *assumptions )]: [sat] when one interpretation makes every
    asserted term and every assumption true.  The search runs over the
    constants that occur; [check_sat_iff] below shows this decides
    satisfiability over all interpretations. *)
Definition check (s : Solver) (assumptions : list expr) : CheckSatResult :=
  let fs := assertions s ++ assumptions in
  if existsb (fun m => forallb (eval m) fs)
             (interpretations (flat_map consts fs))
  then sat else unsat.

End Z3.

(* ===================================================================== *)
(** ** Python values and effects *)
(* ===================================================================== *)

Module Py.

(** The exceptions the operations of the program raise: [s[i]] with [i]
    out of range and [d[k]] with [k] missing.  [RecursionError] is raised by
    the interpreter, not by an operation of the program, when the calls
    nest deeper than its recursion limit; it is not an outcome here. *)
Inductive exn : Type := IndexError | KeyError.

(** What a call does: return, raise, or still run when the fuel is spent.
    A call that is [OutOfFuel] whatever the fuel never returns: in CPython
    it loops for ever, or nests its calls until the interpreter raises
    [RecursionError]. *)
Inductive outcome (A : Type) : Type :=
| Ret (a : A)
| Raise (e : exn)
| OutOfFuel.
Arguments Ret {A} a.
Arguments Raise {A} e.
Arguments OutOfFuel {A}.

(** The module-level dictionary [VARS = {}]: name to z3 constant, kept in
    insertion order as Python dictionaries are. *)
Definition dict : Type := list (ascii * Z3.expr).

(** Computations that read and write [VARS]. *)
Definition M (A : Type) : Type := dict -> outcome (A * dict).

Definition ret {A} (a : A) : M A := fun d => Ret (a, d).
Definition raise {A} (e : exn) : M A := fun _ => Raise e.
Definition bind {A B} (m : M A) (k : A -> M B) : M B :=
  fun d => match m d with
           | Ret (a, d') => k a d'
           | Raise e => Raise e
           | OutOfFuel => OutOfFuel
           end.

Definition len (s : string) : Z := Z.of_nat (String.length s).

(** [s[i]]: negative positions count from the end, anything outside
    raises [IndexError]. *)
Definition getitem (s : string) (i : Z) : M ascii :=
  let j := if i <? 0 then i + len s else i in
  if (0 <=? j) && (j <? len s) then
    match String.get (Z.to_nat j) s with
    | Some c => ret c
    | None => raise IndexError
    end
  else raise IndexError.

(** Slice adjustment of [start] and [end] as [str.find]/[str.rfind] do it. *)
Definition adjust_end (n e : Z) : Z :=
  if e >? n then n else if e <? 0 then Z.max 0 (e + n) else e.
Definition adjust_start (n s : Z) : Z :=
  if s <? 0 then Z.max 0 (s + n) else s.

Definition occurs_at (s sub : string) (i : Z) : bool :=
  String.eqb (substring (Z.to_nat i) (String.length sub) s) sub.

(** Highest of the [k] positions [lo], ..., [lo + k - 1] where [sub] occurs. *)
Fixpoint rfind_scan (s sub : string) (lo : Z) (k : nat) : Z :=
  match k with
  | O => -1
  | S k' =>
      if occurs_at s sub (lo + Z.of_nat k') then lo + Z.of_nat k'
      else rfind_scan s sub lo k'
  end.

(** [s.rfind(sub, start, end)]: the highest index where [sub] is found
    inside [s[start:end]], or [-1]. *)
Definition rfind (s sub : string) (start end_ : Z) : Z :=
  let e := adjust_end (len s) end_ in
  let b := adjust_start (len s) start in
  rfind_scan s sub b (Z.to_nat (e - len sub - b + 1)).

(** [text.replace(" ", "")]. *)
Fixpoint remove_spaces (text : string) : string :=
  match text with
  | EmptyString => EmptyString
  | String c rest =>
      if Ascii.eqb c " " then remove_spaces rest
      else String c (remove_spaces rest)
  end.

(** Dictionary operations on [VARS]. *)
Fixpoint lookup (c : ascii) (d : dict) : option Z3.expr :=
  match d with
  | [] => None
  | (k, v) :: d' => if Ascii.eqb c k then Some v else lookup c d'
  end.

Definition contains (c : ascii) (d : dict) : bool :=
  match lookup c d with Some _ => true | None => false end.

(** [d[c] = v]: replaces the value of a present key, appends a new one. *)
Fixpoint setitem (d : dict) (c : ascii) (v : Z3.expr) : dict :=
  match d with
  | [] => [(c, v)]
  | (k, w) :: d' =>
      if Ascii.eqb c k then (k, v) :: d' else (k, w) :: setitem d' c v
  end.

(** [sorted(d.items())]: keys are unique, so the order is by key, that is
    by code point. *)
Definition key_leb (a b : ascii) : bool := (nat_of_ascii a <=? nat_of_ascii b)%nat.

Fixpoint insert_sorted (x : ascii * Z3.expr) (l : list (ascii * Z3.expr)) :=
  match l with
  | [] => [x]
  | y :: l' =>
      if key_leb (fst x) (fst y) then x :: y :: l'
      else y :: insert_sorted x l'
  end.

Definition sorted_items (d : dict) : list (ascii * Z3.expr) :=
  fold_right insert_sorted [] d.

(** [sep.join(parts)]. *)
Fixpoint join (sep : string) (parts : list string) : string :=
  match parts with
  | [] => ""
  | [p] => p
  | p :: rest => (p ++ sep ++ join sep rest)%string
  end.

(** [c * n] for a one-character string. *)
Fixpoint repeat_char (c : ascii) (n : nat) : string :=
  match n with
  | O => ""
  | S n' => String c (repeat_char c n')
  end.

End Py.

Declare Scope py_scope.
Delimit Scope py_scope with py.
Notation "x <- m ;; k" := (Py.bind m (fun x => k))
  (at level 61, m at next level, right associativity) : py_scope.

(* ===================================================================== *)
(** ** project.py *)
(* ===================================================================== *)

Module Project.
Import Py.
Local Open Scope py_scope.

(** [VARS = {}] at import time. *)
Definition VARS_init : dict := [].

Definition VARS_contains (c : ascii) : M bool :=
  fun VARS => Ret (contains c VARS, VARS).
Definition VARS_setitem (c : ascii) (v : Z3.expr) : M unit :=
  fun VARS => Ret (tt, setitem VARS c v).
Definition VARS_getitem (c : ascii) : M Z3.expr :=
  fun VARS => match lookup c VARS with
              | Some v => Ret (v, VARS)
              | None => Raise KeyError
              end.
Definition VARS_items : M dict := fun VARS => Ret (VARS, VARS).

(** [is_z3(what)]: a rule returns a z3 term ([Some]) or [False] ([None]). *)
Definition is_z3 {A : Type} (what : option A) : bool :=
  match what with Some _ => true | None => false end.

Section Islower.

(** [char.islower()] for a one-character string.  Python answers from the
    Unicode tables of the interpreter, which are not part of the program. *)
Variable islower : ascii -> bool.

Section Rules.

(** The recursive call [X(stmt, l, r)] made by the rules. *)
Variable X : string -> Z -> Z -> M (option Z3.expr).

(** [X = (X)] *)
Definition paren (stmt : string) (l r : Z) : M (option Z3.expr) :=
  cl <- getitem stmt l ;;
  if Ascii.eqb cl "(" then
    cr <- getitem stmt r ;;
    if Ascii.eqb cr ")" then
      x <- X stmt (l + 1) (r - 1) ;;
      ret (if is_z3 x then x else None)
    else ret None
  else ret None.

(** [X = v], [X = T] and [X = F] *)
Definition var (stmt : string) (l r : Z) : M (option Z3.expr) :=
  if negb (r =? l) then ret None
  else
    char <- getitem stmt r ;;
    if islower char then
      known <- VARS_contains char ;;
      _ <- (if known then ret tt else VARS_setitem char (Z3.Bool char)) ;;
      v <- VARS_getitem char ;;
      ret (Some v)
    else if Ascii.eqb char "T" then ret (Some (Z3.BoolVal true))
    else if Ascii.eqb char "F" then ret (Some (Z3.BoolVal false))
    else ret None.

(** [X = ~X] *)
Definition negate (stmt : string) (l r : Z) : M (option Z3.expr) :=
  cl <- getitem stmt l ;;
  if Ascii.eqb cl "~" then
    x <- X stmt (l + 1) r ;;
    ret (match x with Some a => Some (Z3.Not a) | None => None end)
  else ret None.

(** The [while i != -1] loop of [joint], entered with the candidate [i];
    [n] bounds the number of times the loop test is evaluated. *)
Fixpoint joint_loop (n : nat) (stmt joiner : string) (l r i : Z)
  : M (option (Z3.expr * Z3.expr)) :=
  match n with
  | O => fun _ => OutOfFuel
  | S n' =>
      if i =? -1 then ret None
      else
        x <- X stmt l (i - 1) ;;
        y <- X stmt (i + len joiner) r ;;
        match x, y with
        | Some a, Some b => ret (Some (a, b))
        | _, _ =>
            joint_loop n' stmt joiner l r (rfind stmt joiner l (i - 1))
        end
  end.

(** Used for the rules that join two [X]'s. *)
Definition joint (n : nat) (stmt joiner : string) (l r : Z)
  : M (option (Z3.expr * Z3.expr)) :=
  joint_loop n stmt joiner l r (rfind stmt joiner l (r + 1)).

(** [X = X|X] *)
Definition disj (n : nat) (stmt : string) (l r : Z) : M (option Z3.expr) :=
  j <- joint n stmt "|" l r ;;
  ret (match j with
       | Some (a, b) => Some (Z3.Or [a; b])
       | None => None
       end).

(** [X = X&X] *)
Definition conj (n : nat) (stmt : string) (l r : Z) : M (option Z3.expr) :=
  j <- joint n stmt "&" l r ;;
  ret (match j with
       | Some (a, b) => Some (Z3.And [a; b])
       | None => None
       end).

(** [X = X->X] *)
Definition implies (n : nat) (stmt : string) (l r : Z) : M (option Z3.expr) :=
  j <- joint n stmt "->" l r ;;
  ret (match j with
       | Some (a, b) => Some (Z3.Implies a b)
       | None => None
       end).

(** [X = X<->X] *)
Definition iff (n : nat) (stmt : string) (l r : Z) : M (option Z3.expr) :=
  j <- joint n stmt "<->" l r ;;
  ret (match j with
       | Some (a, b) => Some (Z3.And [Z3.Implies a b; Z3.Implies b a])
       | None => None
       end).

(** The body of [X] after the test [l > r]: the rules in the order the
    code tries them, starting with [var], [iff], ... or with [paren]. *)
Definition after_paren (n : nat) (stmt : string) (l r : Z)
  : M (option Z3.expr) :=
  x <- var stmt l r ;;
  if is_z3 x then ret x else
  x <- iff n stmt l r ;;
  if is_z3 x then ret x else
  x <- implies n stmt l r ;;
  if is_z3 x then ret x else
  x <- disj n stmt l r ;;
  if is_z3 x then ret x else
  x <- conj n stmt l r ;;
  if is_z3 x then ret x else
  x <- negate stmt l r ;;
  if is_z3 x then ret x else
  ret None.

Definition X_body (n : nat) (stmt : string) (l r : Z) : M (option Z3.expr) :=
  if l >? r then ret None
  else
    x <- paren stmt l r ;;
    if is_z3 x then ret x else
    after_paren n stmt l r.

End Rules.

(** [X(stmt, l, r)].  One unit of fuel per nested call; the loops of the
    rules called at depth [fuel] may test their condition [fuel - 1] times. *)
Fixpoint X (fuel : nat) (stmt : string) (l r : Z) {struct fuel}
  : M (option Z3.expr) :=
  match fuel with
  | O => fun _ => OutOfFuel
  | S fuel' => X_body (X fuel') fuel' stmt l r
  end.

(** Returns a z3 term if the statement is grammatical, [False] otherwise. *)
Definition get_z3_expr (fuel : nat) (text : string) : M (option Z3.expr) :=
  let statement := remove_spaces text in
  X fuel statement 0 (len statement - 1).

End Islower.

Definition bool_chr (b : bool) : string := if b then "T" else "F".

(** [i & bit == bit] with [bit = 2**(var_cnt - vi - 1)]. *)
Definition istrue (var_cnt vi : nat) (i : Z) : bool :=
  let bit := 2 ^ (Z.of_nat var_cnt - Z.of_nat vi - 1) in
  Z.land i bit =? bit.

(** [range(n)] *)
Definition range (n : nat) : list Z := map Z.of_nat (seq 0 n).

Definition no_entry : ascii * Z3.expr := (zero, Z3.BoolVal false).

(** One pass of the outer [for] loop of [test]: the lists [boolval] and
    [ands], and [final]. *)
Definition boolval (var_cnt : nat) (i : Z) : list bool :=
  map (fun vi => istrue var_cnt vi i) (seq 0 var_cnt).

Definition ands (var_list : list (ascii * Z3.expr)) (i : Z) : list Z3.expr :=
  let var_cnt := List.length var_list in
  map (fun vi =>
         Z3.And [Z3.Eq (snd (nth vi var_list no_entry))
                       (Z3.BoolVal (istrue var_cnt vi i))])
      (seq 0 var_cnt).

Definition final (s : Z3.Solver) (var_list : list (ascii * Z3.expr)) (i : Z)
  : bool :=
  Z3.is_sat (Z3.check s (ands var_list i)).

(** The rows of the table, before they are rendered. *)
Definition rows (expr : Z3.expr) (VARS : dict) : list (list bool * bool) :=
  let s := Z3.add Z3.new_solver expr in
  let var_list := sorted_items VARS in
  let var_cnt := List.length var_list in
  map (fun i => (boolval var_cnt i, final s var_list i))
      (range (2 ^ var_cnt)%nat).

Definition render (row : list bool * bool) : string :=
  (join " | " (map bool_chr (fst row)) ++ " | " ++ bool_chr (snd row))%string.

(** [test(expr, exprstr)]: the printed lines. *)
Definition test (expr : Z3.expr) (exprstr : string) : M (list string) :=
  VARS <- VARS_items ;;
  let var_list := sorted_items VARS in
  let top :=
    (join " | " (map (fun kv => String (fst kv) "") var_list)
       ++ " | " ++ exprstr)%string in
  ret (top :: repeat_char "=" (String.length top)
           :: map render (rows expr VARS)).

(** [main()] with [sys.argv = argv]: the printed lines and the value
    returned. *)
Definition main (islower : ascii -> bool) (fuel : nat) (argv : list string)
  : M (list string * Z) :=
  if (List.length argv <? 2)%nat then
    ret (["Error: no argument supplied."], 1)
  else if (2 <? List.length argv)%nat then
    ret (["Error: Only one argument should be supplied. Note the argument should be surrounded by quotes"], 1)
  else
    let arg := nth 1 argv "" in
    expr <- get_z3_expr islower fuel arg ;;
    match expr with
    | Some e => out <- test e arg ;; ret (out, 0)
    | None => ret (["Error parsing the supplied argument"], 1)
    end.

(** How the interpreter process ends: it exits, it dies of an exception
    the program raised, or [main] has not come back within the fuel. *)
Inductive process : Type :=
| Exited (stdout : list string) (status : Z)
| Uncaught (e : exn)
| StillRunning.

(** [if __name__ == "__main__": main()]: the value returned by [main] is
    dropped, and the interpreter exits with status 0 when the module body
    ends. *)
Definition script (islower : ascii -> bool) (fuel : nat) (argv : list string)
  : process :=
  match main islower fuel argv VARS_init with
  | Ret ((stdout, _), _) => Exited stdout 0
  | Raise e => Uncaught e
  | OutOfFuel => StillRunning
  end.

End Project.

(** Lowercase letters among the ASCII characters, where [str.islower] is
    ['a' <= c <= 'z']. *)
Definition ascii_islower (c : ascii) : bool :=
  let n := nat_of_ascii c in ((97 <=? n) && (n <=? 122))%nat.


Import Py.
Local Open Scope py_scope.

(* ===================================================================== *)
(** * The vocabulary of the statements *)
(* ===================================================================== *)

(** ** Inputs and results of the examples *)

Definition prog : string := "project.py".

Definition amp_a : string := "&a".

Definition a_and_b_in_parens : string := "(a)&(b)".

Definition a_iff_b : Z3.expr :=
  Z3.And [Z3.Implies (Z3.Bool "a") (Z3.Bool "b");
          Z3.Implies (Z3.Bool "b") (Z3.Bool "a")].

Definition a_implies_b : Z3.expr := Z3.Implies (Z3.Bool "a") (Z3.Bool "b").
Definition ab_dict : dict := [("a"%char, Z3.Bool "a"); ("b"%char, Z3.Bool "b")].

Definition a_and_b : Z3.expr := Z3.And [Z3.Bool "a"; Z3.Bool "b"].

(** ** Dictionaries *)

(** Every handle stored in the dictionary is the constant of its key, as
    [var] stores them. *)
Definition wf (d : dict) : Prop :=
  forall c v, lookup c d = Some v -> v = Z3.Bool c.

Definition both_wf (d1 d2 : dict) : Prop := wf d1 /\ wf d2.

(** Equal dictionaries that satisfy [I]. *)
Definition same_and_I (I : dict -> Prop) (d1 d2 : dict) : Prop :=
  d1 = d2 /\ I d1.

(** Every entry pairs a key with the constant of that name. *)
Definition entries_wf (d : dict) : Prop :=
  forall k h, In (k, h) d -> h = Z3.Bool k.

Definition keys (d : dict) : list ascii := map fst d.

(** ** Runs *)

(** [refines R m1 m2]: started in dictionaries related by [R], whatever
    [m1] returns or raises, [m2] returns or raises as well, leaving
    related dictionaries.  Nothing is asked where [m1] runs out of fuel. *)

Definition refines {A} (R : dict -> dict -> Prop) (m1 m2 : M A) : Prop :=
  forall d1 d2, R d1 d2 ->
    match m1 d1 with
    | Ret (a, d1') => exists d2', m2 d2 = Ret (a, d2') /\ R d1' d2'
    | Raise e => m2 d2 = Raise e
    | OutOfFuel => True
    end.

(** [follows m1 m2]: from well-formed dictionaries, whatever [m1] returns,
    [m2] returns too.  Nothing is asked where [m1] raises or does not
    return. *)
Definition follows {A} (m1 m2 : M A) : Prop :=
  forall dA dB a dA', wf dA -> wf dB -> m1 dA = Ret (a, dA') ->
    exists dB', m2 dB = Ret (a, dB') /\ wf dA' /\ wf dB'.

(** ** Trees and spans *)

(** The characters an expression can start with. *)
Definition first_char (islower : ascii -> bool) (c : ascii) : bool :=
  Ascii.eqb c "(" || Ascii.eqb c "~" || islower c
  || Ascii.eqb c "T" || Ascii.eqb c "F".

(** The terms the rules build: constants, [BoolVal], [Not], [Implies], and
    [And] and [Or] of exactly two arguments; no [Eq]. *)
Fixpoint grammar_tree (e : Z3.expr) : bool :=
  match e with
  | Z3.Bool _ => true
  | Z3.BoolVal _ => true
  | Z3.Not a => grammar_tree a
  | Z3.And [a; b] => grammar_tree a && grammar_tree b
  | Z3.Or [a; b] => grammar_tree a && grammar_tree b
  | Z3.Implies a b => grammar_tree a && grammar_tree b
  | _ => false
  end.

Definition has_keys (cs : list ascii) (d : dict) : Prop :=
  forall c, In c cs -> contains c d = true.

(** The span that starts at [l] starts like an expression. *)
Definition starts_well (islower : ascii -> bool) (stmt : string) (l : Z)
  : Prop :=
  exists ch, (forall V : dict, getitem stmt l V = Ret (ch, V)) /\
             first_char islower ch = true.

Definition well_built (e : Z3.expr) (d' : dict) : Prop :=
  grammar_tree e = true /\ has_keys (Z3.consts e) d'.

(** [(s)], and where an index of [s] lies in it. *)
Definition in_parens (s : string) : string := String "(" (s ++ ")").

Definition shifted (i : Z) : Z := if i =? -1 then -1 else i + 1.

(** The characters the four operator tokens are written with. *)
Definition operator_char (c : ascii) : bool :=
  Ascii.eqb c "<" || Ascii.eqb c "-" || Ascii.eqb c ">"
  || Ascii.eqb c "|" || Ascii.eqb c "&".

(** A token no character of which can start an expression. *)
Definition no_first_char (islower : ascii -> bool) (joiner : string) : Prop :=
  forall k c, String.get k joiner = Some c -> first_char islower c = false.

(** The candidate [c] of [joint(s, joiner, l, r)] is good when both sides
    of it parse. *)
Definition good (islower : ascii -> bool) (s joiner : string) (l r c : Z)
  : Prop :=
  exists f1 f2 d1 d2 a b d1' d2', wf d1 /\ wf d2 /\
    Project.X islower f1 s l (c - 1) d1 = Ret (Some a, d1') /\
    Project.X islower f2 s (c + len joiner) r d2 = Ret (Some b, d2').

Definition none_good_above (islower : ascii -> bool) (s joiner : string)
  (l r i : Z) : Prop :=
  forall c, i < c -> occurs_at s joiner c = true ->
    ~ good islower s joiner l r c.

(** ** Rows *)

(** The assignments of [n] variables in lexicographic order, false before
    true, as the specification lists them. *)
Fixpoint lex_assignments (n : nat) : list (list bool) :=
  match n with
  | O => [[]]
  | S n' => map (cons false) (lex_assignments n')
            ++ map (cons true) (lex_assignments n')
  end.

(** Lexicographic order on assignments of the same length. *)
Fixpoint lex_lt (a b : list bool) : Prop :=
  match a, b with
  | x :: a', y :: b' =>
      (x = false /\ y = true) \/ (x = y /\ lex_lt a' b')
  | _, _ => False
  end.

(** The order of [sorted] on the entries. *)
Definition key_le (x y : ascii * Z3.expr) : Prop :=
  (nat_of_ascii (fst x) <= nat_of_ascii (fst y))%nat.

(** ** The evaluator of the specification *)

Module Spec.

(** The expression node of the specification's data model. *)
Inductive Kind : Type := And | Or | Implies | Iff.

Inductive Expression : Type :=
| Literal (name : ascii)
| Constant (value : bool)
| Negation (operand : Expression)
| BinaryOp (kind : Kind) (left right : Expression).

(** The direct recursive evaluation of the specification. *)
Fixpoint evaluate (assignment : ascii -> bool) (e : Expression) : bool :=
  match e with
  | Literal name => assignment name
  | Constant value => value
  | Negation operand => negb (evaluate assignment operand)
  | BinaryOp And a b => evaluate assignment a && evaluate assignment b
  | BinaryOp Or a b => evaluate assignment a || evaluate assignment b
  | BinaryOp Implies a b =>
      negb (evaluate assignment a) || evaluate assignment b
  | BinaryOp Iff a b =>
      (negb (evaluate assignment a) || evaluate assignment b)
      && (negb (evaluate assignment b) || evaluate assignment a)
  end.

End Spec.

(** The tree of the specification that a z3 term of the parser stands for. *)
Fixpoint to_Expression (e : Z3.expr) : option Spec.Expression :=
  match e with
  | Z3.Bool c => Some (Spec.Literal c)
  | Z3.BoolVal b => Some (Spec.Constant b)
  | Z3.Not a => option_map Spec.Negation (to_Expression a)
  | Z3.And [a; b] =>
      match to_Expression a, to_Expression b with
      | Some a', Some b' => Some (Spec.BinaryOp Spec.And a' b')
      | _, _ => None
      end
  | Z3.Or [a; b] =>
      match to_Expression a, to_Expression b with
      | Some a', Some b' => Some (Spec.BinaryOp Spec.Or a' b')
      | _, _ => None
      end
  | Z3.Implies a b =>
      match to_Expression a, to_Expression b with
      | Some a', Some b' => Some (Spec.BinaryOp Spec.Implies a' b')
      | _, _ => None
      end
  | _ => None
  end.

(** Position of a key in the sorted list. *)
Fixpoint index_of (c : ascii) (keys : list ascii) : option nat :=
  match keys with
  | [] => None
  | k :: keys' =>
      if Ascii.eqb c k then Some 0%nat
      else option_map S (index_of c keys')
  end.

(** The assignment of row [i]: the variable at index [vi] of [var_list]
    has the value [istrue var_cnt vi i]. *)
Definition row_assignment (var_list : list (ascii * Z3.expr)) (i : Z)
  : ascii -> bool :=
  fun c => match index_of c (map fst var_list) with
           | Some vi => Project.istrue (List.length var_list) vi i
           | None => false
           end.

(** Induction on z3 terms, through the argument lists of [And] and [Or]. *)
Fixpoint expr_rect' (P : Z3.expr -> Prop)
  (HBool : forall c, P (Z3.Bool c))
  (HVal : forall b, P (Z3.BoolVal b))
  (HNot : forall a, P a -> P (Z3.Not a))
  (HAnd : forall args, Forall P args -> P (Z3.And args))
  (HOr : forall args, Forall P args -> P (Z3.Or args))
  (HImp : forall a b, P a -> P b -> P (Z3.Implies a b))
  (HEq : forall a b, P a -> P b -> P (Z3.Eq a b))
  (e : Z3.expr) {struct e} : P e :=
  let rec := expr_rect' P HBool HVal HNot HAnd HOr HImp HEq in
  let fix all (l : list Z3.expr) : Forall P l :=
    match l with
    | [] => Forall_nil P
    | x :: l' => Forall_cons x (rec x) (all l')
    end in
  match e with
  | Z3.Bool c => HBool c
  | Z3.BoolVal b => HVal b
  | Z3.Not a => HNot a (rec a)
  | Z3.And args => HAnd args (all args)
  | Z3.Or args => HOr args (all args)
  | Z3.Implies a b => HImp a b (rec a) (rec b)
  | Z3.Eq a b => HEq a b (rec a) (rec b)
  end.

(** ** How a run ends, and what it does to the dictionary *)

(** [m] raises neither [IndexError] nor [KeyError], whatever the dictionary
    it starts from. *)
Definition no_raise {A} (m : M A) : Prop := forall d e, m d <> Raise e.

(** [m] comes back, whatever the dictionary it starts from. *)
Definition finishes {A} (m : M A) : Prop := forall d, m d <> OutOfFuel.

(** [R] relates the dictionary [m] starts from to the one it leaves. *)
Definition changes {A} (R : dict -> dict -> Prop) (m : M A) : Prop :=
  forall d a d', m d = Ret (a, d') -> R d d'.

(** The operator tokens, in the order [X] tries their rules. *)
Definition tokens : list string := ["<->"; "->"; "|"; "&"].

(** An operator token stands at index 0 of the statement. *)
Definition starts_with_token (stmt : string) : bool :=
  existsb (fun joiner => occurs_at stmt joiner 0) tokens.

(** Number of characters of the span from [l] to [r]. *)
Definition width (l r : Z) : nat := Z.to_nat (r - l + 1).

(** [d'] is [d] followed by entries a parse of [stmt] registers: new keys
    only, each a lowercase character of the statement, stored with the
    constant of its name. *)
Definition registered (islower : ascii -> bool) (stmt : string)
  (d d' : dict) : Prop :=
  exists new, d' = d ++ new /\
    forall c v, In (c, v) new ->
      v = Z3.Bool c /\ islower c = true /\ lookup c d = None /\
      exists p, String.get p stmt = Some c.

(** A statement whose only split fails after its left side was parsed. *)
Definition a_or_b_text : string := "a|(b".

(** ** The grammar of the header of [project.py] *)

(** The character [c] stands at index [p] of [stmt]. *)
Definition char_at (stmt : string) (p : Z) (c : ascii) : Prop :=
  0 <= p /\ String.get (Z.to_nat p) stmt = Some c.

(** The tree each binary rule builds from the trees of its two sides. *)
Inductive builds : string -> Z3.expr -> Z3.expr -> Z3.expr -> Prop :=
| builds_iff a b :
    builds "<->" a b (Z3.And [Z3.Implies a b; Z3.Implies b a])
| builds_implies a b : builds "->" a b (Z3.Implies a b)
| builds_disj a b : builds "|" a b (Z3.Or [a; b])
| builds_conj a b : builds "&" a b (Z3.And [a; b]).

(** [derives islower stmt l r e]: the span from [l] to [r] of [stmt] is
    an [X] of the grammar, read as the tree [e]:
    [X = (X)], [X = v], [X = T], [X = F], [X = X<->X], [X = X->X],
    [X = X|X], [X = X&X] and [X = ~X]. *)
Inductive derives (islower : ascii -> bool) (stmt : string)
  : Z -> Z -> Z3.expr -> Prop :=
| derives_paren l r e :
    char_at stmt l "(" -> char_at stmt r ")" ->
    derives islower stmt (l + 1) (r - 1) e ->
    derives islower stmt l r e
| derives_var l c :
    char_at stmt l c -> islower c = true ->
    derives islower stmt l l (Z3.Bool c)
| derives_T l :
    char_at stmt l "T" -> islower "T"%char = false ->
    derives islower stmt l l (Z3.BoolVal true)
| derives_F l :
    char_at stmt l "F" -> islower "F"%char = false ->
    derives islower stmt l l (Z3.BoolVal false)
| derives_joint joiner l r i a b e :
    builds joiner a b e -> l <= i -> occurs_at stmt joiner i = true ->
    derives islower stmt l (i - 1) a ->
    derives islower stmt (i + len joiner) r b ->
    derives islower stmt l r e
| derives_negate l r a :
    char_at stmt l "~" ->
    derives islower stmt (l + 1) r a ->
    derives islower stmt l r (Z3.Not a).

(** The characters the grammar is written with, besides names, [T] and
    [F]: those of the operator tokens, the parentheses and [~]. *)
Definition symbol_char (c : ascii) : bool :=
  operator_char c || Ascii.eqb c "(" || Ascii.eqb c ")" || Ascii.eqb c "~".

Definition b_and_a_or_b : Z3.expr :=
  Z3.And [Z3.Bool "b"; Z3.Or [Z3.Bool "a"; Z3.Bool "b"]].

(** The dictionary a parse leaves that met [b] before [a]. *)
Definition ab_dict_ba : dict :=
  [("b"%char, Z3.Bool "b"); ("a"%char, Z3.Bool "a")].

(** ** The printed table *)

(** The character [bool_chr] prints for a value. *)
Definition bool_char (b : bool) : ascii := if b then "T"%char else "F"%char.

(** The string of one character. *)
Definition cell (c : ascii) : string := String c "".

(** ** Parentheses *)

(** What a character adds to the nesting depth. *)
Definition paren_delta (c : ascii) : Z :=
  if Ascii.eqb c "(" then 1 else if Ascii.eqb c ")" then -1 else 0.

(** Nesting depth after the first [k] characters of [s]: the number of
    [(] less the number of [)] among them. *)
Fixpoint paren_depth (s : string) (k : nat) {struct k} : Z :=
  match k, s with
  | S k', String c s' => paren_delta c + paren_depth s' k'
  | _, _ => 0
  end.

(** A statement with two occurrences of one token, and its grouping. *)
Definition a_b_c_text : string := "a->b->c".

Definition a_implies_b_then_c : Z3.expr * Z3.expr :=
  (Z3.Implies (Z3.Bool "a") (Z3.Bool "b"), Z3.Bool "c").

Definition abc_dict : dict :=
  [("a"%char, Z3.Bool "a"); ("b"%char, Z3.Bool "b"); ("c"%char, Z3.Bool "c")].

(** The tokens whose rules [X] tries before the rule of [joiner]. *)
Definition tokens_before (joiner : string) : list string :=
  (fix go (l : list string) : list string :=
     match l with
     | [] => []
     | t :: l' => if String.eqb t joiner then [] else t :: go l'
     end) tokens.

(** A statement with two operators of different rank. *)
Definition a_and_b_or_c_text : string := "a&b|c".

Definition a_and_b_or_c : Z3.expr :=
  Z3.Or [Z3.And [Z3.Bool "a"; Z3.Bool "b"]; Z3.Bool "c"].

(** A negated statement, and its tree. *)
Definition not_a_text : string := "~(a|b)".

Definition not_a_or_b : Z3.expr := Z3.Not (Z3.Or [Z3.Bool "a"; Z3.Bool "b"]).

(** ** A dictionary left over from another formula *)

(** [beside left_over dA dB]: two runs side by side, one started from the
    empty dictionary and now at [dA], one started from [left_over] and now
    at [dB]: the second holds the keys of the first and those of
    [left_over], and no other. *)
Definition beside (left_over dA dB : dict) : Prop :=
  wf dA /\ wf dB /\
  forall c, contains c dB = contains c dA || contains c left_over.

(** What the parses of [a] and of [b] leave in the empty dictionary. *)
Definition a_dict : dict := [("a"%char, Z3.Bool "a")].
Definition b_dict : dict := [("b"%char, Z3.Bool "b")].

(* ===================================================================== *)
(** * Properties *)
(* ===================================================================== *)

(** ** Strings, [rfind] and the dictionary *)

Lemma len_nonneg s : 0 <= len s.
Proof. unfold len; lia. Qed.

Lemma get_in_range : forall s n, (n < String.length s)%nat ->
  exists c, String.get n s = Some c.
Proof.
  induction s as [|a s IH]; intros n Hn; simpl in Hn; [lia|].
  destruct n as [|n]; simpl; [eauto|]. apply IH; lia.
Qed.

Lemma getitem_in_range s i (VARS : dict) :
  0 <= i < len s ->
  exists c, String.get (Z.to_nat i) s = Some c /\ getitem s i VARS = Ret (c, VARS).
Proof.
  intros Hi. unfold getitem.
  destruct (Z.ltb_spec i 0); [lia|].
  destruct (Z.leb_spec 0 i); [|lia].
  destruct (Z.ltb_spec i (len s)); [|lia]. simpl.
  destruct (get_in_range s (Z.to_nat i)) as [c Hc]; [unfold len in Hi; lia|].
  exists c. rewrite Hc. split; reflexivity.
Qed.

Lemma getitem_state s i (VARS : dict) c VARS' :
  getitem s i VARS = Ret (c, VARS') ->
  VARS' = VARS /\ forall V, getitem s i V = Ret (c, V).
Proof.
  unfold getitem.
  destruct ((0 <=? _) && _); [|discriminate].
  destruct (String.get _ s); [|discriminate].
  unfold ret. intros H; inversion H; subst. split; reflexivity.
Qed.

Lemma rfind_scan_range s sub lo k :
  rfind_scan s sub lo k = -1 \/
  (lo <= rfind_scan s sub lo k < lo + Z.of_nat k /\
   occurs_at s sub (rfind_scan s sub lo k) = true).
Proof.
  induction k as [|k IH]; simpl; [left; reflexivity|].
  destruct (occurs_at s sub (lo + Z.of_nat k)) eqn:Hk.
  - right. split; [lia | exact Hk].
  - destruct IH as [IH|[IH1 IH2]]; [left; exact IH|right]. split; [lia|exact IH2].
Qed.

Lemma rfind_scan_highest s sub lo k c :
  lo <= c < lo + Z.of_nat k -> occurs_at s sub c = true ->
  c <= rfind_scan s sub lo k.
Proof.
  induction k as [|k IH]; simpl; intros Hc Ho; [lia|].
  destruct (occurs_at s sub (lo + Z.of_nat k)) eqn:Hk.
  - lia.
  - assert (c <> lo + Z.of_nat k) by (intros ->; congruence).
    apply IH; [lia|exact Ho].
Qed.

(** [rfind] with bounds that need no adjustment: the result is [-1] or the
    highest occurrence that lies inside [s[b:e]]. *)
Lemma rfind_range s sub b e :
  0 <= b -> 0 <= e <= len s ->
  rfind s sub b e = -1 \/
  (b <= rfind s sub b e /\ rfind s sub b e + len sub <= e /\
   occurs_at s sub (rfind s sub b e) = true).
Proof.
  intros Hb He. unfold rfind, adjust_end, adjust_start.
  destruct (Z.gtb_spec e (len s)); [lia|].
  destruct (Z.ltb_spec e 0); [lia|].
  destruct (Z.ltb_spec b 0); [lia|].
  destruct (rfind_scan_range s sub b (Z.to_nat (e - len sub - b + 1)))
    as [H2|[H2 H3]]; [left; exact H2|right].
  repeat split; try exact H3; lia.
Qed.

Lemma rfind_highest s sub b e c :
  0 <= b -> 0 <= e <= len s ->
  b <= c -> c + len sub <= e -> occurs_at s sub c = true ->
  c <= rfind s sub b e.
Proof.
  intros Hb He Hc1 Hc2 Ho. unfold rfind, adjust_end, adjust_start.
  destruct (Z.gtb_spec e (len s)); [lia|].
  destruct (Z.ltb_spec e 0); [lia|].
  destruct (Z.ltb_spec b 0); [lia|].
  apply rfind_scan_highest; [lia|exact Ho].
Qed.

(** Whatever the bounds, [rfind] answers [-1] or a place where [sub]
    occurs, at or after a non-negative [start]. *)
Lemma rfind_occurs s sub b e :
  0 <= b ->
  rfind s sub b e = -1 \/
  (b <= rfind s sub b e /\ occurs_at s sub (rfind s sub b e) = true).
Proof.
  intros Hb. unfold rfind, adjust_start.
  destruct (Z.ltb_spec b 0); [lia|].
  destruct (rfind_scan_range s sub b
              (Z.to_nat (adjust_end (len s) e - len sub - b + 1)))
    as [H2|[H2 H3]]; [left; exact H2|right].
  split; [lia|exact H3].
Qed.

Lemma lookup_setitem d c v : lookup c (setitem d c v) = Some v.
Proof.
  induction d as [|[k w] d IH]; simpl.
  - rewrite Ascii.eqb_refl. reflexivity.
  - destruct (Ascii.eqb c k) eqn:E; simpl; rewrite E; [reflexivity|exact IH].
Qed.

Lemma lookup_setitem_other d c c' v :
  c' <> c -> lookup c' (setitem d c v) = lookup c' d.
Proof.
  intros Hne. induction d as [|[k w] d IH]; simpl.
  - destruct (Ascii.eqb_spec c' c); [contradiction|reflexivity].
  - destruct (Ascii.eqb_spec c k) as [->|Hck]; simpl.
    + destruct (Ascii.eqb_spec c' k); [contradiction|reflexivity].
    + destruct (Ascii.eqb c' k); [reflexivity|exact IH].
Qed.

(** ** Unfolding equations *)

Lemma X_S islower fuel stmt l r :
  Project.X islower (S fuel) stmt l r
  = Project.X_body islower (Project.X islower fuel) fuel stmt l r.
Proof. reflexivity. Qed.

Lemma joint_loop_S Xr n stmt joiner l r i :
  Project.joint_loop Xr (S n) stmt joiner l r i =
  if i =? -1 then ret None
  else
    x <- Xr stmt l (i - 1) ;;
    y <- Xr stmt (i + len joiner) r ;;
    match x, y with
    | Some a, Some b => ret (Some (a, b))
    | _, _ =>
        Project.joint_loop Xr n stmt joiner l r (rfind stmt joiner l (i - 1))
    end.
Proof. reflexivity. Qed.

Lemma bind_Ret {A B} (m : M A) (k : A -> M B) d b d'' :
  bind m k d = Ret (b, d'') ->
  exists a d', m d = Ret (a, d') /\ k a d' = Ret (b, d'').
Proof.
  unfold bind. destruct (m d) as [[a d']| |]; try discriminate. eauto.
Qed.

Lemma bind_of_Ret {A B} (m : M A) (k : A -> M B) d a d' :
  m d = Ret (a, d') -> bind m k d = k a d'.
Proof. unfold bind. intros ->. reflexivity. Qed.

(** ** Runs related step by step *)

Section Refines.

Variable islower : ascii -> bool.
Variable R : dict -> dict -> Prop.
Hypothesis R_var : forall stmt l r,
  refines R (Project.var islower stmt l r) (Project.var islower stmt l r).

Lemma refines_ret {A} (a : A) : refines R (ret a) (ret a).
Proof. intros d1 d2 H. unfold ret. eauto. Qed.

Lemma refines_bind {A B} (m1 m2 : M A) (k1 k2 : A -> M B) :
  refines R m1 m2 -> (forall a, refines R (k1 a) (k2 a)) ->
  refines R (bind m1 k1) (bind m2 k2).
Proof.
  intros Hm Hk d1 d2 HR. unfold bind. specialize (Hm d1 d2 HR).
  destruct (m1 d1) as [[a d1']| |]; [|rewrite Hm; reflexivity|exact I].
  destruct Hm as (d2' & -> & HR'). apply Hk. exact HR'.
Qed.

Lemma refines_getitem s i : refines R (getitem s i) (getitem s i).
Proof.
  intros d1 d2 HR. unfold getitem.
  destruct ((0 <=? _) && _); [|reflexivity].
  destruct (String.get _ s); unfold ret, raise; eauto.
Qed.

Ltac refines_step :=
  first [ apply refines_ret | apply refines_getitem | apply R_var
        | apply refines_bind; [|intros ?]
        | match goal with
          | |- refines _ (if ?c then _ else _) (if ?c then _ else _) =>
              destruct c
          | |- refines _ (match ?x with Some _ => _ | None => _ end)
                         (match ?x with Some _ => _ | None => _ end) =>
              destruct x
          end ].

Section Rules.

Variables X1 X2 : string -> Z -> Z -> M (option Z3.expr).
Hypothesis HX : forall stmt l r, refines R (X1 stmt l r) (X2 stmt l r).

Lemma refines_paren stmt l r :
  refines R (Project.paren X1 stmt l r) (Project.paren X2 stmt l r).
Proof. unfold Project.paren. repeat (first [apply HX | refines_step]). Qed.

Lemma refines_negate stmt l r :
  refines R (Project.negate X1 stmt l r) (Project.negate X2 stmt l r).
Proof. unfold Project.negate. repeat (first [apply HX | refines_step]). Qed.

Lemma refines_joint_loop stmt joiner l r :
  forall n1 n2 i, (n1 <= n2)%nat ->
  refines R (Project.joint_loop X1 n1 stmt joiner l r i)
            (Project.joint_loop X2 n2 stmt joiner l r i).
Proof.
  induction n1 as [|n1 IH]; intros n2 i Hle.
  - intros d1 d2 _. exact I.
  - destruct n2 as [|n2]; [lia|]. rewrite !joint_loop_S.
    destruct (i =? -1); [apply refines_ret|].
    apply refines_bind; [apply HX|intros x].
    apply refines_bind; [apply HX|intros y].
    destruct x as [a|]; [destruct y as [b|]|];
      try apply refines_ret; apply IH; lia.
Qed.

Lemma refines_joint n1 n2 stmt joiner l r :
  (n1 <= n2)%nat ->
  refines R (Project.joint X1 n1 stmt joiner l r)
            (Project.joint X2 n2 stmt joiner l r).
Proof. intros H. unfold Project.joint. apply refines_joint_loop. exact H. Qed.

Lemma refines_X_body n1 n2 stmt l r :
  (n1 <= n2)%nat ->
  refines R (Project.X_body islower X1 n1 stmt l r)
            (Project.X_body islower X2 n2 stmt l r).
Proof.
  intros Hle. unfold Project.X_body, Project.after_paren,
    Project.iff, Project.implies, Project.disj, Project.conj.
  repeat (first [ apply refines_paren | apply refines_negate
                | apply refines_joint; exact Hle | refines_step ]).
Qed.

End Rules.

Lemma refines_X : forall f1 f2 stmt l r, (f1 <= f2)%nat ->
  refines R (Project.X islower f1 stmt l r) (Project.X islower f2 stmt l r).
Proof.
  induction f1 as [|f1 IH]; intros f2 stmt l r Hle.
  - intros d1 d2 _. exact I.
  - destruct f2 as [|f2]; [lia|]. rewrite !X_S.
    apply refines_X_body; [|lia]. intros. apply IH. lia.
Qed.

End Refines.

(** ** More fuel changes nothing; the dictionary does not steer the parse *)

Lemma wf_init : wf Project.VARS_init.
Proof. intros c v H. discriminate. Qed.

Lemma wf_setitem d c : wf d -> wf (setitem d c (Z3.Bool c)).
Proof.
  intros Hd c' v. destruct (Ascii.eqb_spec c' c) as [->|Hne].
  - rewrite lookup_setitem. congruence.
  - rewrite lookup_setitem_other by exact Hne. apply Hd.
Qed.

Lemma refines_eq_refl {A} (m : M A) : refines eq m m.
Proof.
  intros d1 d2 <-. destruct (m d1) as [[a d']| |]; eauto.
Qed.

Lemma var_Ret islower stmt l r d x d' :
  Project.var islower stmt l r d = Ret (x, d') ->
  (x = None /\ d' = d) \/
  (exists b, x = Some (Z3.BoolVal b) /\ d' = d) \/
  (exists c v, getitem stmt r d = Ret (c, d) /\ l = r /\ islower c = true /\
     x = Some v /\ lookup c d' = Some v /\
     d' = (if contains c d then d else setitem d c (Z3.Bool c))).
Proof.
  unfold Project.var. destruct (Z.eqb_spec r l) as [->|Hne]; simpl.
  2:{ unfold ret. intros H; inversion H. left; split; reflexivity. }
  intros H. apply bind_Ret in H. destruct H as (c & d0 & Hg & H).
  destruct (getitem_state _ _ _ _ _ Hg) as [-> Hg'].
  destruct (islower c) eqn:Hc.
  - right; right. unfold bind, Project.VARS_contains, Project.VARS_setitem,
      Project.VARS_getitem, ret in H.
    destruct (contains c d) eqn:Hk.
    + destruct (lookup c d) eqn:Hl; [|discriminate]. inversion H; subst.
      exists c, e. rewrite Hk. repeat split; auto.
    + rewrite lookup_setitem in H. inversion H; subst.
      exists c, (Z3.Bool c). rewrite Hk, lookup_setitem. repeat split; auto.
  - destruct (Ascii.eqb c "T").
    { inversion H; subst. right; left. eauto. }
    destruct (Ascii.eqb c "F").
    { inversion H; subst. right; left. eauto. }
    inversion H; subst. left. split; reflexivity.
Qed.

Lemma var_lowercase_run c d :
  wf d ->
  (known <- Project.VARS_contains c ;;
   _ <- (if known then ret tt else Project.VARS_setitem c (Z3.Bool c)) ;;
   v <- Project.VARS_getitem c ;;
   ret (Some v)) d
  = Ret (Some (Z3.Bool c),
         if contains c d then d else setitem d c (Z3.Bool c)).
Proof.
  intros W. unfold bind, Project.VARS_contains, Project.VARS_setitem,
    Project.VARS_getitem, ret, contains.
  destruct (lookup c d) as [v|] eqn:Hl.
  - rewrite Hl, (W _ _ Hl). reflexivity.
  - rewrite lookup_setitem. reflexivity.
Qed.

Lemma var_wf islower stmt l r :
  refines both_wf (Project.var islower stmt l r)
                  (Project.var islower stmt l r).
Proof.
  unfold Project.var.
  destruct (negb (r =? l)); [apply refines_ret|].
  apply refines_bind; [apply refines_getitem|intros c].
  destruct (islower c).
  - intros d1 d2 [W1 W2]. rewrite !var_lowercase_run by assumption.
    eexists. split; [reflexivity|].
    split; [destruct (contains c d1)|destruct (contains c d2)];
      try assumption; apply wf_setitem; assumption.
  - destruct (Ascii.eqb c "T"); [|destruct (Ascii.eqb c "F")];
      apply refines_ret.
Qed.

Section Fuel.

Variable islower : ascii -> bool.

(** A run that returned returns the same with more fuel. *)
Lemma X_fuel_mono f f' stmt l r d x d' :
  Project.X islower f stmt l r d = Ret (x, d') -> (f <= f')%nat ->
  Project.X islower f' stmt l r d = Ret (x, d').
Proof.
  intros H Hle.
  pose proof (refines_X islower eq (fun s a b => refines_eq_refl _)
                f f' stmt l r Hle d d eq_refl) as Hr.
  rewrite H in Hr. destruct Hr as (d2 & -> & <-). reflexivity.
Qed.

Lemma X_fuel_mono_raise f f' stmt l r d e :
  Project.X islower f stmt l r d = Raise e -> (f <= f')%nat ->
  Project.X islower f' stmt l r d = Raise e.
Proof.
  intros H Hle.
  pose proof (refines_X islower eq (fun s a b => refines_eq_refl _)
                f f' stmt l r Hle d d eq_refl) as Hr.
  rewrite H in Hr. exact Hr.
Qed.

(** What [X] returns on a span is the same for every amount of fuel that
    suffices and for every well-formed dictionary it starts from. *)
Lemma X_result_unique f1 f2 stmt l r d1 d2 x1 x2 d1' d2' :
  wf d1 -> wf d2 ->
  Project.X islower f1 stmt l r d1 = Ret (x1, d1') -> Project.X islower f2 stmt l r d2 = Ret (x2, d2') ->
  x1 = x2.
Proof.
  intros W1 W2 H1 H2.
  destruct (Nat.le_ge_cases f1 f2) as [Hle|Hle].
  - pose proof (refines_X islower both_wf (var_wf islower)
                  f1 f2 stmt l r Hle d1 d2 (conj W1 W2)) as Hr.
    rewrite H1 in Hr. destruct Hr as (d & Hr & _). congruence.
  - pose proof (refines_X islower both_wf (var_wf islower)
                  f2 f1 stmt l r Hle d2 d1 (conj W2 W1)) as Hr.
    rewrite H2 in Hr. destruct Hr as (d & Hr & _). congruence.
Qed.

Lemma X_keeps_wf f stmt l r d x d' :
  wf d -> Project.X islower f stmt l r d = Ret (x, d') -> wf d'.
Proof.
  intros W H.
  pose proof (refines_X islower both_wf (var_wf islower)
                f f stmt l r (le_n _) d d (conj W W)) as Hr.
  rewrite H in Hr. destruct Hr as (d2 & _ & W' & _). exact W'.
Qed.

Lemma X_state_indep f stmt l r d1 d2 x d1' :
  wf d1 -> wf d2 -> Project.X islower f stmt l r d1 = Ret (x, d1') ->
  exists d2', Project.X islower f stmt l r d2 = Ret (x, d2') /\ wf d2'.
Proof.
  intros W1 W2 H.
  pose proof (refines_X islower both_wf (var_wf islower)
                f f stmt l r (le_n _) d1 d2 (conj W1 W2)) as Hr.
  rewrite H in Hr. destruct Hr as (d & Hr & _ & W). eauto.
Qed.

End Fuel.

(** ** Rules that fail at once *)

Lemma bind_OutOfFuel {A B} (m : M A) (k : A -> M B) d :
  m d = OutOfFuel -> bind m k d = OutOfFuel.
Proof. unfold bind. intros ->. reflexivity. Qed.

Lemma paren_other X stmt l r d c :
  getitem stmt l d = Ret (c, d) -> Ascii.eqb c "(" = false ->
  Project.paren X stmt l r d = Ret (None, d).
Proof.
  intros Hg Hc. unfold Project.paren.
  rewrite (bind_of_Ret _ _ _ _ _ Hg), Hc. reflexivity.
Qed.

Lemma paren_unclosed X stmt l r d c :
  getitem stmt l d = Ret ("("%char, d) ->
  getitem stmt r d = Ret (c, d) -> Ascii.eqb c ")" = false ->
  Project.paren X stmt l r d = Ret (None, d).
Proof.
  intros Hl Hr Hc. unfold Project.paren.
  rewrite (bind_of_Ret _ _ _ _ _ Hl). cbn [Ascii.eqb Bool.eqb].
  rewrite (bind_of_Ret _ _ _ _ _ Hr), Hc. reflexivity.
Qed.

Lemma var_wide islower stmt l r d :
  r <> l -> Project.var islower stmt l r d = Ret (None, d).
Proof.
  intros H. unfold Project.var.
  destruct (Z.eqb_spec r l); [contradiction|reflexivity].
Qed.

Lemma negate_other X stmt l r d c :
  getitem stmt l d = Ret (c, d) -> Ascii.eqb c "~" = false ->
  Project.negate X stmt l r d = Ret (None, d).
Proof.
  intros Hg Hc. unfold Project.negate.
  rewrite (bind_of_Ret _ _ _ _ _ Hg), Hc. reflexivity.
Qed.

Lemma joint_no_occurrence X n stmt joiner l r d :
  rfind stmt joiner l (r + 1) = -1 ->
  Project.joint X (S n) stmt joiner l r d = Ret (None, d).
Proof.
  intros H. unfold Project.joint. rewrite H, joint_loop_S. reflexivity.
Qed.

Lemma joint_O X stmt joiner l r d :
  Project.joint X 0 stmt joiner l r d = OutOfFuel.
Proof. reflexivity. Qed.

Lemma iff_no_occurrence X n stmt l r d :
  rfind stmt "<->" l (r + 1) = -1 ->
  Project.iff X (S n) stmt l r d = Ret (None, d).
Proof.
  intros H. unfold Project.iff.
  rewrite (bind_of_Ret _ _ _ _ _ (joint_no_occurrence X n stmt _ l r d H)).
  reflexivity.
Qed.

Lemma implies_no_occurrence X n stmt l r d :
  rfind stmt "->" l (r + 1) = -1 ->
  Project.implies X (S n) stmt l r d = Ret (None, d).
Proof.
  intros H. unfold Project.implies.
  rewrite (bind_of_Ret _ _ _ _ _ (joint_no_occurrence X n stmt _ l r d H)).
  reflexivity.
Qed.

Lemma disj_no_occurrence X n stmt l r d :
  rfind stmt "|" l (r + 1) = -1 ->
  Project.disj X (S n) stmt l r d = Ret (None, d).
Proof.
  intros H. unfold Project.disj.
  rewrite (bind_of_Ret _ _ _ _ _ (joint_no_occurrence X n stmt _ l r d H)).
  reflexivity.
Qed.

Lemma conj_no_occurrence X n stmt l r d :
  rfind stmt "&" l (r + 1) = -1 ->
  Project.conj X (S n) stmt l r d = Ret (None, d).
Proof.
  intros H. unfold Project.conj.
  rewrite (bind_of_Ret _ _ _ _ _ (joint_no_occurrence X n stmt _ l r d H)).
  reflexivity.
Qed.

(** One step down the ladder of [X]: the rule [m] returned [x]. *)
Ltac rule_returns H :=
  rewrite (bind_of_Ret _ _ _ _ _ H); cbn [Project.is_z3].

(** ** The input [&a]: the retry at index 0 *)

Lemma X_empty_span islower f stmt l r d :
  l > r -> Project.X islower (S f) stmt l r d = Ret (None, d).
Proof.
  intros H. rewrite X_S. unfold Project.X_body.
  destruct (Z.gtb_spec l r); [reflexivity|lia].
Qed.

(** [X("&a", 1, 1)], the right operand, returns whenever it has 2 units of
    fuel. *)
Lemma X_amp_a_right islower f d :
  exists x d', Project.X islower (S (S f)) amp_a 1 1 d = Ret (x, d').
Proof.
  assert (exists x d', Project.X islower 2 amp_a 1 1 d = Ret (x, d'))
    as (x & d' & H).
  { rewrite X_S. unfold Project.X_body.
    change (1 >? 1) with false. cbv iota.
    rule_returns (paren_other (Project.X islower 1) amp_a 1 1 d "a"
                    eq_refl eq_refl).
    unfold Project.after_paren, Project.var.
    change (negb (1 =? 1)) with false. cbv iota.
    change (getitem amp_a 1) with (@ret ascii "a"%char).
    unfold bind at 2. unfold ret at 1. cbv iota beta.
    destruct (islower "a"%char).
    - unfold bind, Project.VARS_contains, Project.VARS_setitem,
        Project.VARS_getitem, ret, contains.
      destruct (lookup "a" d) as [v|] eqn:Hl.
      + rewrite Hl. cbn. eauto.
      + rewrite lookup_setitem. cbn. eauto.
    - change (Ascii.eqb "a" "T") with false.
      change (Ascii.eqb "a" "F") with false. cbv iota.
      unfold bind at 1. unfold ret at 1. cbv iota beta. cbn [Project.is_z3].
      rule_returns (iff_no_occurrence (Project.X islower 1) 0 amp_a 1 1 d
                      eq_refl).
      rule_returns (implies_no_occurrence (Project.X islower 1) 0 amp_a 1 1 d
                      eq_refl).
      rule_returns (disj_no_occurrence (Project.X islower 1) 0 amp_a 1 1 d
                      eq_refl).
      rule_returns (conj_no_occurrence (Project.X islower 1) 0 amp_a 1 1 d
                      eq_refl).
      rule_returns (negate_other (Project.X islower 1) amp_a 1 1 d "a"
                      eq_refl eq_refl).
      unfold ret. eauto. }
  exists x, d'. apply (X_fuel_mono islower 2); [exact H|lia].
Qed.

(** Entered with the candidate 0, the loop of [joint("&a", "&", 0, 1)]
    comes back to the candidate 0 and never leaves. *)
Lemma amp_a_loop islower : forall n f d,
  Project.joint_loop (Project.X islower f) n amp_a "&" 0 1 0 d = OutOfFuel.
Proof.
  induction n as [|n IH]; intros f d; [reflexivity|].
  rewrite joint_loop_S.
  change (rfind amp_a "&" 0 (0 - 1)) with 0.
  change (0 =? -1) with false. cbv iota.
  change (0 + len "&") with 1.
  destruct f as [|f]; [reflexivity|].
  rewrite (bind_of_Ret _ _ _ _ _ (X_empty_span islower f amp_a 0 (0 - 1) d
                                    ltac:(lia))).
  destruct (Project.X islower (S f) amp_a 1 1 d) as [[x d']|e|] eqn:E.
  - rewrite (bind_of_Ret _ _ _ _ _ E). apply IH.
  - destruct (X_amp_a_right islower f d) as (x & d' & E').
    rewrite (X_fuel_mono_raise islower _ (S (S f)) _ _ _ _ _ E) in E'
      by lia.
    discriminate.
  - apply bind_OutOfFuel. exact E.
Qed.

Lemma X_amp_a_diverges islower : forall fuel d,
  Project.X islower fuel amp_a 0 1 d = OutOfFuel.
Proof.
  intros [|f] d; [reflexivity|].
  rewrite X_S. unfold Project.X_body.
  change (0 >? 1) with false. cbv iota.
  rule_returns (paren_other (Project.X islower f) amp_a 0 1 d "&"
                  eq_refl eq_refl).
  unfold Project.after_paren.
  rule_returns (var_wide islower amp_a 0 1 d ltac:(lia)).
  destruct f as [|f]; [reflexivity|].
  rule_returns (iff_no_occurrence (Project.X islower (S f)) f amp_a 0 1 d
                  eq_refl).
  rule_returns (implies_no_occurrence (Project.X islower (S f)) f amp_a 0 1 d
                  eq_refl).
  rule_returns (disj_no_occurrence (Project.X islower (S f)) f amp_a 0 1 d
                  eq_refl).
  apply bind_OutOfFuel. unfold Project.conj. apply bind_OutOfFuel.
  unfold Project.joint. change (rfind amp_a "&" 0 (1 + 1)) with 0.
  apply amp_a_loop.
Qed.

(** ** What the dictionary keeps along a run *)

(** A property of the dictionary that [var] preserves is preserved by
    every rule and by [X]. *)
Section Preserved.

Variable islower : ascii -> bool.
Variable I : dict -> Prop.
Hypothesis var_I : forall stmt l r d x d',
  I d -> Project.var islower stmt l r d = Ret (x, d') -> I d'.

Lemma var_same_and_I stmt l r :
  refines (same_and_I I) (Project.var islower stmt l r)
                     (Project.var islower stmt l r).
Proof.
  intros d1 d2 [<- Hd].
  destruct (Project.var islower stmt l r d1) as [[x d']| |] eqn:E; auto.
  exists d'. split; [reflexivity|]. split; [reflexivity|]. eauto.
Qed.

Lemma refines_preserved {A} (m : M A) d x d' :
  refines (same_and_I I) m m -> I d -> m d = Ret (x, d') -> I d'.
Proof.
  intros Hm Hd H. specialize (Hm d d (conj eq_refl Hd)). rewrite H in Hm.
  destruct Hm as (d2 & E & <- & Hd'). exact Hd'.
Qed.

Lemma X_preserved f stmt l r d x d' :
  I d -> Project.X islower f stmt l r d = Ret (x, d') -> I d'.
Proof.
  apply refines_preserved.
  apply refines_X; [exact var_same_and_I|apply le_n].
Qed.

Lemma paren_preserved f stmt l r d x d' :
  I d -> Project.paren (Project.X islower f) stmt l r d = Ret (x, d') -> I d'.
Proof.
  apply refines_preserved. apply refines_paren.
  intros. apply refines_X; [exact var_same_and_I|apply le_n].
Qed.

Lemma joint_loop_preserved f n stmt joiner l r i d x d' :
  I d ->
  Project.joint_loop (Project.X islower f) n stmt joiner l r i d
    = Ret (x, d') -> I d'.
Proof.
  apply refines_preserved. apply refines_joint_loop; [|apply le_n].
  intros. apply refines_X; [exact var_same_and_I|apply le_n].
Qed.

End Preserved.

(** ** What a successful parse returns *)

Lemma var_keeps_wf islower stmt l r d x d' :
  wf d -> Project.var islower stmt l r d = Ret (x, d') -> wf d'.
Proof.
  intros W H. apply var_Ret in H.
  destruct H as [[_ ->]|[(b & _ & ->)|(c & v & _ & _ & _ & _ & _ & ->)]];
    try exact W.
  destruct (contains c d); [exact W|apply wf_setitem, W].
Qed.

Lemma contains_setitem d c c' v :
  contains c d = true -> contains c (setitem d c' v) = true.
Proof.
  unfold contains. intros H. destruct (Ascii.eqb_spec c c') as [->|Hne].
  - rewrite lookup_setitem. reflexivity.
  - rewrite lookup_setitem_other by exact Hne. exact H.
Qed.

Lemma var_keeps_key islower c stmt l r d x d' :
  contains c d = true -> Project.var islower stmt l r d = Ret (x, d') ->
  contains c d' = true.
Proof.
  intros W H. apply var_Ret in H.
  destruct H as [[_ ->]|[(b & _ & ->)|(c0 & v & _ & _ & _ & _ & _ & ->)]];
    try exact W.
  destruct (contains c0 d); [exact W|apply contains_setitem, W].
Qed.

Lemma X_keeps_keys islower cs f stmt l r d x d' :
  has_keys cs d -> Project.X islower f stmt l r d = Ret (x, d') ->
  has_keys cs d'.
Proof.
  intros H E c Hc.
  apply (X_preserved islower (fun d => contains c d = true)
           (var_keeps_key islower c) f stmt l r d x d'); auto.
Qed.

Lemma paren_Some X stmt l r d e d' :
  Project.paren X stmt l r d = Ret (Some e, d') ->
  getitem stmt l d = Ret ("("%char, d) /\
  getitem stmt r d = Ret (")"%char, d) /\
  X stmt (l + 1) (r - 1) d = Ret (Some e, d').
Proof.
  unfold Project.paren. intros H.
  apply bind_Ret in H. destruct H as (cl & d1 & Hl & H).
  pose proof (proj1 (getitem_state _ _ _ _ _ Hl)) as E; subst.
  destruct (Ascii.eqb_spec cl "("%char) as [E|_]; [subst cl|discriminate].
  apply bind_Ret in H. destruct H as (cr & d2 & Hr & H).
  pose proof (proj1 (getitem_state _ _ _ _ _ Hr)) as E; subst.
  destruct (Ascii.eqb_spec cr ")"%char) as [E|_]; [subst cr|discriminate].
  apply bind_Ret in H. destruct H as (x & d3 & HX & H).
  destruct x as [a|]; cbn in H; inversion H; subst. auto.
Qed.

Lemma negate_Some X stmt l r d e d' :
  Project.negate X stmt l r d = Ret (Some e, d') ->
  getitem stmt l d = Ret ("~"%char, d) /\
  exists a, X stmt (l + 1) r d = Ret (Some a, d') /\ e = Z3.Not a.
Proof.
  unfold Project.negate. intros H.
  apply bind_Ret in H. destruct H as (cl & d1 & Hl & H).
  pose proof (proj1 (getitem_state _ _ _ _ _ Hl)) as E; subst.
  destruct (Ascii.eqb_spec cl "~"%char) as [E|_]; [subst cl|discriminate].
  apply bind_Ret in H. destruct H as (x & d3 & HX & H).
  destruct x as [a|]; cbn in H; inversion H; subst. eauto.
Qed.

Section JointSome.

Variable islower : ascii -> bool.
Variable I : dict -> Prop.
Hypothesis var_I : forall stmt l r d x d',
  I d -> Project.var islower stmt l r d = Ret (x, d') -> I d'.

(** A pair returned by the loop of [joint] is made of the parses of the
    two sides of one candidate. *)
Lemma joint_loop_Some f stmt joiner l r : forall n i d a b d',
  I d ->
  Project.joint_loop (Project.X islower f) n stmt joiner l r i d
    = Ret (Some (a, b), d') ->
  exists c d1 d2,
    I d1 /\
    Project.X islower f stmt l (c - 1) d1 = Ret (Some a, d2) /\
    Project.X islower f stmt (c + len joiner) r d2 = Ret (Some b, d').
Proof.
  induction n as [|n IH]; intros i d a b d' Hd H; [discriminate|].
  rewrite joint_loop_S in H. destruct (i =? -1); [discriminate|].
  apply bind_Ret in H. destruct H as (x & d1 & Hx & H).
  apply bind_Ret in H. destruct H as (y & d2 & Hy & H).
  assert (I d2) as Hd2.
  { eapply (X_preserved islower I var_I); [|exact Hy].
    eapply (X_preserved islower I var_I); [exact Hd|exact Hx]. }
  destruct x as [a0|]; [destruct y as [b0|]|].
  - inversion H; subst. exists i, d, d1. auto.
  - eapply IH; eauto.
  - eapply IH; eauto.
Qed.

End JointSome.

Section Success.

Variable islower : ascii -> bool.

Lemma var_Some stmt l r d e d' :
  wf d -> Project.var islower stmt l r d = Ret (Some e, d') ->
  well_built e d' /\ starts_well islower stmt l.
Proof.
  unfold Project.var. intros W H.
  destruct (Z.eqb_spec r l) as [->|Hne]; [|discriminate]. cbn [negb] in H.
  apply bind_Ret in H. destruct H as (c & d0 & Hg & H).
  destruct (getitem_state _ _ _ _ _ Hg) as [E Hg']. subst d0.
  unfold starts_well, first_char.
  destruct (islower c) eqn:Hc.
  - rewrite var_lowercase_run in H by exact W. inversion H; subst.
    split; [split; [reflexivity|]|].
    + intros c' [<-|[]]. unfold contains.
      destruct (lookup c d) eqn:Hl; [rewrite Hl; reflexivity|].
      rewrite lookup_setitem. reflexivity.
    + exists c. rewrite Hc, !orb_true_r. auto.
  - destruct (Ascii.eqb c "T") eqn:HT.
    { inversion H; subst. split; [split; [reflexivity|intros ? []]|].
      exists c. rewrite HT, !orb_true_r. auto. }
    destruct (Ascii.eqb c "F") eqn:HF; [|discriminate].
    inversion H; subst. split; [split; [reflexivity|intros ? []]|].
    exists c. rewrite HF, !orb_true_r. auto.
Qed.

Lemma well_built_later f stmt l r d x d' e :
  well_built e d -> Project.X islower f stmt l r d = Ret (x, d') ->
  well_built e d'.
Proof.
  intros [G K] H. split; [exact G|].
  eapply X_keeps_keys; eauto.
Qed.

(** Any tree [X] returns is built by the rules, mentions only registered
    names, and covers a span that starts like an expression. *)
Lemma X_success : forall f stmt l r d e d',
  wf d -> Project.X islower f stmt l r d = Ret (Some e, d') ->
  well_built e d' /\ starts_well islower stmt l.
Proof.
  induction f as [|f IH]; intros stmt l r d e d' W H; [discriminate|].
  rewrite X_S in H. unfold Project.X_body in H.
  destruct (l >? r); [discriminate|].
  assert (forall n joiner d0 a b d1,
            wf d0 ->
            Project.joint (Project.X islower f) n stmt joiner l r d0
              = Ret (Some (a, b), d1) ->
            well_built a d1 /\ well_built b d1 /\ starts_well islower stmt l)
    as Hjoint.
  { intros n joiner d0 a b d1 W0 Hj.
    destruct (joint_loop_Some islower wf (var_keeps_wf islower)
                f stmt joiner l r n _ d0 a b d1 W0 Hj)
      as (c & d2 & d3 & W2 & Ha & Hb).
    destruct (IH _ _ _ _ _ _ W2 Ha) as [Ba Sa].
    assert (wf d3) as W3 by (eapply X_keeps_wf; eauto).
    destruct (IH _ _ _ _ _ _ W3 Hb) as [Bb _].
    repeat split; try apply Bb; try exact Sa.
    - apply Ba.
    - eapply X_keeps_keys; [apply Ba|exact Hb]. }
  (* paren *)
  apply bind_Ret in H. destruct H as ([x|] & d1 & Hp & H); cbn in H.
  { inversion H; subst. apply paren_Some in Hp.
    destruct Hp as (Hl & _ & HX). split; [eapply IH; eauto|].
    exists "("%char. split; [|reflexivity].
    apply (getitem_state _ _ _ _ _ Hl). }
  assert (wf d1) as W1
    by (eapply (paren_preserved islower wf (var_keeps_wf islower)); eauto).
  clear Hp. unfold Project.after_paren in H.
  (* var *)
  apply bind_Ret in H. destruct H as ([x|] & d2 & Hv & H); cbn in H.
  { inversion H; subst. eapply var_Some; eauto. }
  assert (wf d2) as W2 by (eapply var_keeps_wf; eauto). clear Hv.
  (* iff *)
  apply bind_Ret in H. destruct H as (x & d3 & Hr & H).
  unfold Project.iff in Hr. apply bind_Ret in Hr.
  destruct Hr as (j & d3' & Hj & Hr). inversion Hr; subst d3' x; clear Hr.
  assert (wf d3) as W3
    by (eapply (joint_loop_preserved islower wf (var_keeps_wf islower));
        eauto).
  destruct j as [[a b]|]; cbn in H.
  { inversion H; subst.
    destruct (Hjoint _ _ _ _ _ _ W2 Hj) as ([Ga Ka] & [Gb Kb] & S0).
    split; [|exact S0]. split.
    - cbn. rewrite Ga, Gb. reflexivity.
    - intros c Hc. cbn in Hc. rewrite app_nil_r in Hc.
      rewrite !in_app_iff in Hc. intuition. }
  clear Hj W2.
  (* implies *)
  apply bind_Ret in H. destruct H as (x & d4 & Hr & H).
  unfold Project.implies in Hr. apply bind_Ret in Hr.
  destruct Hr as (j & d4' & Hj & Hr). inversion Hr; subst d4' x; clear Hr.
  assert (wf d4) as W4
    by (eapply (joint_loop_preserved islower wf (var_keeps_wf islower));
        eauto).
  destruct j as [[a b]|]; cbn in H.
  { inversion H; subst.
    destruct (Hjoint _ _ _ _ _ _ W3 Hj) as ([Ga Ka] & [Gb Kb] & S0).
    split; [|exact S0]. split.
    - cbn. rewrite Ga, Gb. reflexivity.
    - intros c Hc. cbn in Hc. rewrite in_app_iff in Hc. intuition. }
  clear Hj W3.
  (* disj *)
  apply bind_Ret in H. destruct H as (x & d5 & Hr & H).
  unfold Project.disj in Hr. apply bind_Ret in Hr.
  destruct Hr as (j & d5' & Hj & Hr). inversion Hr; subst d5' x; clear Hr.
  assert (wf d5) as W5
    by (eapply (joint_loop_preserved islower wf (var_keeps_wf islower));
        eauto).
  destruct j as [[a b]|]; cbn in H.
  { inversion H; subst.
    destruct (Hjoint _ _ _ _ _ _ W4 Hj) as ([Ga Ka] & [Gb Kb] & S0).
    split; [|exact S0]. split.
    - cbn. rewrite Ga, Gb. reflexivity.
    - intros c Hc. cbn in Hc. rewrite app_nil_r, in_app_iff in Hc.
      intuition. }
  clear Hj W4.
  (* conj *)
  apply bind_Ret in H. destruct H as (x & d6 & Hr & H).
  unfold Project.conj in Hr. apply bind_Ret in Hr.
  destruct Hr as (j & d6' & Hj & Hr). inversion Hr; subst d6' x; clear Hr.
  assert (wf d6) as W6
    by (eapply (joint_loop_preserved islower wf (var_keeps_wf islower));
        eauto).
  destruct j as [[a b]|]; cbn in H.
  { inversion H; subst.
    destruct (Hjoint _ _ _ _ _ _ W5 Hj) as ([Ga Ka] & [Gb Kb] & S0).
    split; [|exact S0]. split.
    - cbn. rewrite Ga, Gb. reflexivity.
    - intros c Hc. cbn in Hc. rewrite app_nil_r, in_app_iff in Hc.
      intuition. }
  clear Hj W5.
  (* negate *)
  apply bind_Ret in H. destruct H as ([x|] & d7 & Hn & H); cbn in H;
    [|discriminate].
  inversion H; subst. apply negate_Some in Hn.
  destruct Hn as (Hl & a & HX & ->).
  destruct (IH _ _ _ _ _ _ W6 HX) as [[Ga Ka] _].
  split; [split; assumption|].
  exists "~"%char. split; [|reflexivity].
  apply (getitem_state _ _ _ _ _ Hl).
Qed.

End Success.

(** ** Fuel at the top level *)

Lemma get_z3_expr_fuel_mono islower f f' text d x d' :
  Project.get_z3_expr islower f text d = Ret (x, d') -> (f <= f')%nat ->
  Project.get_z3_expr islower f' text d = Ret (x, d').
Proof. unfold Project.get_z3_expr. apply X_fuel_mono. Qed.

Lemma main_fuel_mono islower f f' argv d out d' :
  Project.main islower f argv d = Ret (out, d') -> (f <= f')%nat ->
  Project.main islower f' argv d = Ret (out, d').
Proof.
  unfold Project.main. intros H Hle.
  destruct (List.length argv <? 2)%nat; [exact H|].
  destruct (2 <? List.length argv)%nat; [exact H|].
  apply bind_Ret in H. destruct H as (x & d1 & Hg & H).
  rewrite (bind_of_Ret _ _ _ _ _
             (get_z3_expr_fuel_mono _ _ _ _ _ _ _ Hg Hle)).
  exact H.
Qed.

Lemma script_fuel_mono islower f f' argv out status :
  Project.script islower f argv = Project.Exited out status ->
  (f <= f')%nat ->
  Project.script islower f' argv = Project.Exited out status.
Proof.
  unfold Project.script. intros H Hle.
  destruct (Project.main islower f argv Project.VARS_init)
    as [[[o rc] d]| |] eqn:E; try discriminate.
  rewrite (main_fuel_mono _ _ _ _ _ _ _ E Hle). exact H.
Qed.

(** ** The ladder of rules, malformed inputs and the exit status *)

(** C1, counterexample: in [(a)&(b)] the span from 0 to 6 starts with an
    opening and ends with a closing parenthesis and its interior [a)&(b] does
    not parse; the rules after [paren] are tried all the same and [conj]
    parses the whole span. *)
Lemma paren_interior_fails_span_parses :
  getitem a_and_b_in_parens 0 Project.VARS_init
    = Ret ("("%char, Project.VARS_init) /\
  getitem a_and_b_in_parens 6 Project.VARS_init
    = Ret (")"%char, Project.VARS_init) /\
  Project.X ascii_islower 4 a_and_b_in_parens 1 5 Project.VARS_init
    = Ret (None, Project.VARS_init) /\
  Project.X ascii_islower 4 a_and_b_in_parens 0 6 Project.VARS_init
    = Ret (Some (Z3.And [Z3.Bool "a"; Z3.Bool "b"]),
           [("a"%char, Z3.Bool "a"); ("b"%char, Z3.Bool "b")]).
Proof. repeat split; vm_compute; reflexivity. Qed.

(** C1, as the code has it: on a span that starts with an opening and ends
    with a closing parenthesis and whose interior does not parse, [paren]
    fails and [X] goes on, on the same span and from the dictionary the
    interior attempt left, with [var], [iff], [implies], [disj], [conj] and
    [negate], in that order, each from the dictionary the one before left:
    the first of them that returns a tree gives the answer of [X], and none
    after it is tried; the answer of [X] is [False] only if all six have
    answered [False]. *)
Theorem paren_failure_falls_through
  (islower : ascii -> bool) (f : nat) (stmt : string) (l r : Z) (d d1 : dict)
  (Hspan : l <= r)
  (Hopen : getitem stmt l d = Ret ("("%char, d))
  (Hclose : getitem stmt r d = Ret (")"%char, d))
  (Hinterior : Project.X islower f stmt (l + 1) (r - 1) d = Ret (None, d1)) :
  Project.paren (Project.X islower f) stmt l r d = Ret (None, d1) /\
  (forall x1 d2,
     Project.var islower stmt l r d1 = Ret (x1, d2) ->
     match x1 with
     | Some _ => Project.X islower (S f) stmt l r d = Ret (x1, d2)
     | None =>
  forall x2 d3,
     Project.iff (Project.X islower f) f stmt l r d2 = Ret (x2, d3) ->
     match x2 with
     | Some _ => Project.X islower (S f) stmt l r d = Ret (x2, d3)
     | None =>
  forall x3 d4,
     Project.implies (Project.X islower f) f stmt l r d3 = Ret (x3, d4) ->
     match x3 with
     | Some _ => Project.X islower (S f) stmt l r d = Ret (x3, d4)
     | None =>
  forall x4 d5,
     Project.disj (Project.X islower f) f stmt l r d4 = Ret (x4, d5) ->
     match x4 with
     | Some _ => Project.X islower (S f) stmt l r d = Ret (x4, d5)
     | None =>
  forall x5 d6,
     Project.conj (Project.X islower f) f stmt l r d5 = Ret (x5, d6) ->
     match x5 with
     | Some _ => Project.X islower (S f) stmt l r d = Ret (x5, d6)
     | None =>
  forall x6 d7,
     Project.negate (Project.X islower f) stmt l r d6 = Ret (x6, d7) ->
     Project.X islower (S f) stmt l r d = Ret (x6, d7)
     end end end end end) /\
  (forall d',
     Project.X islower (S f) stmt l r d = Ret (None, d') ->
     exists d2 d3 d4 d5 d6,
       Project.var islower stmt l r d1 = Ret (None, d2) /\
       Project.iff (Project.X islower f) f stmt l r d2 = Ret (None, d3) /\
       Project.implies (Project.X islower f) f stmt l r d3 = Ret (None, d4) /\
       Project.disj (Project.X islower f) f stmt l r d4 = Ret (None, d5) /\
       Project.conj (Project.X islower f) f stmt l r d5 = Ret (None, d6) /\
       Project.negate (Project.X islower f) stmt l r d6 = Ret (None, d')).
Proof.
  assert (Project.paren (Project.X islower f) stmt l r d = Ret (None, d1))
    as Hp.
  { unfold Project.paren.
    rewrite (bind_of_Ret _ _ _ _ _ Hopen). cbn [Ascii.eqb Bool.eqb].
    rewrite (bind_of_Ret _ _ _ _ _ Hclose). cbn [Ascii.eqb Bool.eqb].
    rewrite (bind_of_Ret _ _ _ _ _ Hinterior). reflexivity. }
  assert (Project.X islower (S f) stmt l r d
          = Project.after_paren islower (Project.X islower f) f stmt l r d1)
    as HX.
  { rewrite X_S. unfold Project.X_body.
    destruct (Z.gtb_spec l r); [lia|].
    rewrite (bind_of_Ret _ _ _ _ _ Hp). reflexivity. }
  split; [exact Hp|]. rewrite HX. clear HX Hp. unfold Project.after_paren.
  split.
  - intros x1 d2 H1. rewrite (bind_of_Ret _ _ _ _ _ H1).
    destruct x1 as [e1|]; cbn [Project.is_z3]; [reflexivity|].
    intros x2 d3 H2. rewrite (bind_of_Ret _ _ _ _ _ H2).
    destruct x2 as [e2|]; cbn [Project.is_z3]; [reflexivity|].
    intros x3 d4 H3. rewrite (bind_of_Ret _ _ _ _ _ H3).
    destruct x3 as [e3|]; cbn [Project.is_z3]; [reflexivity|].
    intros x4 d5 H4. rewrite (bind_of_Ret _ _ _ _ _ H4).
    destruct x4 as [e4|]; cbn [Project.is_z3]; [reflexivity|].
    intros x5 d6 H5. rewrite (bind_of_Ret _ _ _ _ _ H5).
    destruct x5 as [e5|]; cbn [Project.is_z3]; [reflexivity|].
    intros x6 d7 H6. rewrite (bind_of_Ret _ _ _ _ _ H6).
    destruct x6 as [e6|]; reflexivity.
  - intros d' H.
    apply bind_Ret in H. destruct H as ([e1|] & d2 & H1 & H);
      cbn [Project.is_z3] in H; [discriminate|].
    apply bind_Ret in H. destruct H as ([e2|] & d3 & H2 & H);
      cbn [Project.is_z3] in H; [discriminate|].
    apply bind_Ret in H. destruct H as ([e3|] & d4 & H3 & H);
      cbn [Project.is_z3] in H; [discriminate|].
    apply bind_Ret in H. destruct H as ([e4|] & d5 & H4 & H);
      cbn [Project.is_z3] in H; [discriminate|].
    apply bind_Ret in H. destruct H as ([e5|] & d6 & H5 & H);
      cbn [Project.is_z3] in H; [discriminate|].
    apply bind_Ret in H. destruct H as ([e6|] & d7 & H6 & H);
      cbn [Project.is_z3] in H; [discriminate|].
    unfold ret in H. inversion H; subst d7.
    exists d2, d3, d4, d5, d6. auto 7.
Qed.

(** In [(a)&(b)], from the empty dictionary: [var], [iff], [implies] and
    [disj] answer [False] on the whole span, [conj] answers with the
    conjunction, and that is the answer of [X]. *)
Lemma paren_failure_falls_through_witness :
  Project.paren (Project.X ascii_islower 3) a_and_b_in_parens 0 6
    Project.VARS_init = Ret (None, Project.VARS_init) /\
  Project.var ascii_islower a_and_b_in_parens 0 6 Project.VARS_init
    = Ret (None, Project.VARS_init) /\
  Project.iff (Project.X ascii_islower 3) 3 a_and_b_in_parens 0 6
    Project.VARS_init = Ret (None, Project.VARS_init) /\
  Project.implies (Project.X ascii_islower 3) 3 a_and_b_in_parens 0 6
    Project.VARS_init = Ret (None, Project.VARS_init) /\
  Project.disj (Project.X ascii_islower 3) 3 a_and_b_in_parens 0 6
    Project.VARS_init = Ret (None, Project.VARS_init) /\
  Project.conj (Project.X ascii_islower 3) 3 a_and_b_in_parens 0 6
    Project.VARS_init = Ret (Some a_and_b, ab_dict) /\
  Project.X ascii_islower 4 a_and_b_in_parens 0 6 Project.VARS_init
    = Ret (Some a_and_b, ab_dict).
Proof.
  destruct (paren_failure_falls_through ascii_islower 3 a_and_b_in_parens 0 6
              Project.VARS_init Project.VARS_init)
    as (Hparen & Hladder & _).
  - lia.
  - reflexivity.
  - reflexivity.
  - vm_compute. reflexivity.
  - assert (Project.var ascii_islower a_and_b_in_parens 0 6 Project.VARS_init
            = Ret (None, Project.VARS_init)) as H1
      by (vm_compute; reflexivity).
    assert (Project.iff (Project.X ascii_islower 3) 3 a_and_b_in_parens 0 6
              Project.VARS_init = Ret (None, Project.VARS_init)) as H2
      by (vm_compute; reflexivity).
    assert (Project.implies (Project.X ascii_islower 3) 3 a_and_b_in_parens
              0 6 Project.VARS_init = Ret (None, Project.VARS_init)) as H3
      by (vm_compute; reflexivity).
    assert (Project.disj (Project.X ascii_islower 3) 3 a_and_b_in_parens 0 6
              Project.VARS_init = Ret (None, Project.VARS_init)) as H4
      by (vm_compute; reflexivity).
    assert (Project.conj (Project.X ascii_islower 3) 3 a_and_b_in_parens 0 6
              Project.VARS_init = Ret (Some a_and_b, ab_dict)) as H5
      by (vm_compute; reflexivity).
    repeat (split; [assumption|]).
    exact (Hladder _ _ H1 _ _ H2 _ _ H3 _ _ H4 _ _ H5).
Defined.

Lemma get_z3_expr_amp_a_diverges islower fuel d :
  Project.get_z3_expr islower fuel amp_a d = OutOfFuel.
Proof. unfold Project.get_z3_expr. apply X_amp_a_diverges. Qed.

(** C2: of the four malformed inputs of the specification, [a&], [(a] and
    [a~b] come back as the parse failure and the script prints the error
    line and no table; on [&a] the parse never comes back, whatever the
    fuel, so the failure is never reported. *)
Theorem malformed_inputs_fail_except_leading_operator :
  (forall fuel,
     Project.get_z3_expr ascii_islower (3 + fuel) "a&" Project.VARS_init
       = Ret (None, [("a"%char, Z3.Bool "a")]) /\
     Project.get_z3_expr ascii_islower (3 + fuel) "(a" Project.VARS_init
       = Ret (None, []) /\
     Project.get_z3_expr ascii_islower (3 + fuel) "a~b" Project.VARS_init
       = Ret (None, []) /\
     Project.script ascii_islower (3 + fuel) [prog; "a&"]
       = Project.Exited ["Error parsing the supplied argument"] 0 /\
     Project.script ascii_islower (3 + fuel) [prog; "(a"]
       = Project.Exited ["Error parsing the supplied argument"] 0 /\
     Project.script ascii_islower (3 + fuel) [prog; "a~b"]
       = Project.Exited ["Error parsing the supplied argument"] 0) /\
  (forall islower fuel,
     Project.get_z3_expr islower fuel "&a" Project.VARS_init = OutOfFuel /\
     Project.script islower fuel [prog; "&a"] = Project.StillRunning).
Proof.
  split.
  - intros fuel.
    repeat split;
      try (apply (get_z3_expr_fuel_mono ascii_islower 3);
           [vm_compute; reflexivity|lia]);
      apply (script_fuel_mono ascii_islower 3);
        try (vm_compute; reflexivity); lia.
  - intros islower fuel. split.
    + apply get_z3_expr_amp_a_diverges.
    + unfold Project.script, Project.main. cbn [List.length Nat.ltb Nat.leb nth].
      unfold bind. change "&a" with amp_a.
      rewrite get_z3_expr_amp_a_diverges. reflexivity.
Qed.

(** C3: the recursive parse does not terminate on every input.  On [&a]
    the call [X("&a", 0, 1)] is still running after any number of steps:
    [conj] finds [&] at index 0, the split fails, and the retry
    [rfind("&", 0, -1)] finds index 0 again. *)
Theorem parse_of_leading_operator_never_returns :
  forall islower fuel d,
    Project.X islower fuel "&a" 0 1 d = OutOfFuel /\
    Project.get_z3_expr islower fuel "&a" d = OutOfFuel.
Proof.
  intros islower fuel d. split.
  - apply X_amp_a_diverges.
  - apply get_z3_expr_amp_a_diverges.
Qed.

(** The part of the scan that is as described: [joint] starts from the
    rightmost occurrence inside the span, a retry after a candidate at index
    1 or more looks strictly to its left, and the first candidate with two
    parsed sides is returned at once. *)
Lemma joint_starts_rightmost stmt joiner l r c :
  0 <= l -> 0 <= r + 1 <= len stmt ->
  l <= c -> c + len joiner <= r + 1 -> occurs_at stmt joiner c = true ->
  c <= rfind stmt joiner l (r + 1).
Proof. apply rfind_highest. Qed.

Lemma joint_retry_moves_left stmt joiner l i :
  0 <= l -> 1 <= i -> i - 1 <= len stmt ->
  rfind stmt joiner l (i - 1) < i.
Proof.
  intros Hl Hi Hlen. pose proof (len_nonneg joiner).
  destruct (rfind_range stmt joiner l (i - 1) Hl ltac:(lia))
    as [E|(_ & E & _)]; lia.
Qed.

Lemma joint_loop_accepts X n stmt joiner l r i d a d1 b d2 :
  i <> -1 ->
  X stmt l (i - 1) d = Ret (Some a, d1) ->
  X stmt (i + len joiner) r d1 = Ret (Some b, d2) ->
  Project.joint_loop X (S n) stmt joiner l r i d = Ret (Some (a, b), d2).
Proof.
  intros Hi Hx Hy. rewrite joint_loop_S.
  destruct (Z.eqb_spec i (-1)); [contradiction|].
  rewrite (bind_of_Ret _ _ _ _ _ Hx), (bind_of_Ret _ _ _ _ _ Hy).
  reflexivity.
Qed.

Example a_implies_b_implies_c : forall fuel,
  Project.get_z3_expr ascii_islower (3 + fuel) "a->b->c" Project.VARS_init
  = Ret (Some (Z3.Implies (Z3.Implies (Z3.Bool "a") (Z3.Bool "b"))
                          (Z3.Bool "c")),
         [("a"%char, Z3.Bool "a"); ("b"%char, Z3.Bool "b");
          ("c"%char, Z3.Bool "c")]).
Proof.
  intros fuel. apply (get_z3_expr_fuel_mono ascii_islower 3);
    [vm_compute; reflexivity|lia].
Qed.

(** C4: the retry of [joint] does not always move leftward.  In
    [joint("&a", "&", 0, 1)] the first candidate is the rightmost
    occurrence, index 0; after the split there has failed the retry
    [rfind("&", 0, 0 - 1)] is index 0 again, and the loop never ends. *)
Theorem joint_retry_at_index_zero_repeats :
  rfind "&a" "&" 0 (1 + 1) = 0 /\
  rfind "&a" "&" 0 (0 - 1) = 0 /\
  forall islower n f d,
    Project.joint_loop (Project.X islower f) n "&a" "&" 0 1 0 d = OutOfFuel.
Proof.
  split; [reflexivity|]. split; [reflexivity|].
  intros. apply amp_a_loop.
Qed.

(** C7: the value [main] returns is not the exit status.  With no
    argument, with two, or with the unparsable [a&], [main] returns 1 and
    the script exits with status 0, as it does after a printed table. *)
Theorem exit_status_is_zero_on_errors :
  forall islower fuel,
    (Project.main islower fuel [prog] Project.VARS_init
       = Ret ((["Error: no argument supplied."], 1), Project.VARS_init) /\
     Project.script islower fuel [prog]
       = Project.Exited ["Error: no argument supplied."] 0) /\
    (Project.main islower fuel [prog; "a"; "b"] Project.VARS_init
       = Ret ((["Error: Only one argument should be supplied. Note the argument should be surrounded by quotes"], 1),
              Project.VARS_init) /\
     Project.script islower fuel [prog; "a"; "b"]
       = Project.Exited
           ["Error: Only one argument should be supplied. Note the argument should be surrounded by quotes"]
           0) /\
    (Project.main ascii_islower (3 + fuel) [prog; "a&"] Project.VARS_init
       = Ret ((["Error parsing the supplied argument"], 1),
              [("a"%char, Z3.Bool "a")]) /\
     Project.script ascii_islower (3 + fuel) [prog; "a&"]
       = Project.Exited ["Error parsing the supplied argument"] 0) /\
    (Project.main ascii_islower (3 + fuel) [prog; "a"] Project.VARS_init
       = Ret ((["a | a"; "====="; "F | F"; "T | T"], 0),
              [("a"%char, Z3.Bool "a")]) /\
     Project.script ascii_islower (3 + fuel) [prog; "a"]
       = Project.Exited ["a | a"; "====="; "F | F"; "T | T"] 0).
Proof.
  intros islower fuel.
  split; [split; reflexivity|]. split; [split; reflexivity|].
  split; (split;
    [apply (main_fuel_mono ascii_islower 3); [vm_compute; reflexivity|lia]
    |apply (script_fuel_mono ascii_islower 3); [vm_compute; reflexivity|lia]]).
Qed.

(** Whatever is printed, a script that ends exits with status 0. *)
Lemma script_status islower fuel argv out status :
  Project.script islower fuel argv = Project.Exited out status -> status = 0.
Proof.
  unfold Project.script.
  destruct (Project.main islower fuel argv Project.VARS_init)
    as [[[o rc] d]| |]; intros H; inversion H; reflexivity.
Qed.

(** ** The tree of [<->] *)

(** What [iff] returns is what [joint] found, wrapped as the conjunction of
    the two implications. *)
Lemma iff_builds_conjunction X n stmt l r d :
  Project.iff X n stmt l r d =
  match Project.joint X n stmt "<->" l r d with
  | Ret (Some (a, b), d') =>
      Ret (Some (Z3.And [Z3.Implies a b; Z3.Implies b a]), d')
  | Ret (None, d') => Ret (None, d')
  | Raise e => Raise e
  | OutOfFuel => OutOfFuel
  end.
Proof.
  unfold Project.iff, bind.
  destruct (Project.joint X n stmt "<->" l r d) as [[[[a b]|] d']| |];
    reflexivity.
Qed.

(** C10: [a<->b] and [(a->b)&(b->a)] parse to the same tree, the
    conjunction of the two implications, and every tree the parser returns
    is built from constants, [BoolVal], [Not], [Implies] and two-argument
    [And] and [Or]: there is no node for [<->]. *)
Theorem iff_parses_as_conjunction_of_implications
  (islower : ascii -> bool) (fuel : nat) (text : string)
  (e : Z3.expr) (d : dict)
  (Hparse : Project.get_z3_expr islower fuel text Project.VARS_init
              = Ret (Some e, d)) :
  grammar_tree e = true /\
  (forall f,
     Project.get_z3_expr ascii_islower (3 + f) "a<->b" Project.VARS_init
       = Ret (Some a_iff_b, [("a"%char, Z3.Bool "a"); ("b"%char, Z3.Bool "b")])
     /\
     Project.get_z3_expr ascii_islower (6 + f) "(a->b)&(b->a)"
       Project.VARS_init
       = Ret (Some a_iff_b, [("a"%char, Z3.Bool "a"); ("b"%char, Z3.Bool "b")])).
Proof.
  split.
  - unfold Project.get_z3_expr in Hparse.
    apply (X_success islower _ _ _ _ _ _ _ wf_init Hparse).
  - intros f. split.
    + apply (get_z3_expr_fuel_mono ascii_islower 3);
        [vm_compute; reflexivity|lia].
    + apply (get_z3_expr_fuel_mono ascii_islower 6);
        [vm_compute; reflexivity|lia].
Qed.

Lemma iff_parses_as_conjunction_of_implications_witness :
  grammar_tree a_iff_b = true /\
  (forall f,
     Project.get_z3_expr ascii_islower (3 + f) "a<->b" Project.VARS_init
       = Ret (Some a_iff_b, [("a"%char, Z3.Bool "a"); ("b"%char, Z3.Bool "b")])
     /\
     Project.get_z3_expr ascii_islower (6 + f) "(a->b)&(b->a)"
       Project.VARS_init
       = Ret (Some a_iff_b, [("a"%char, Z3.Bool "a"); ("b"%char, Z3.Bool "b")])).
Proof.
  apply (iff_parses_as_conjunction_of_implications ascii_islower 3 "a<->b"
           a_iff_b [("a"%char, Z3.Bool "a"); ("b"%char, Z3.Bool "b")]).
  vm_compute. reflexivity.
Defined.

(** ** The rows of the table *)

Lemma land_pow2 i k :
  0 <= k -> Z.land i (2 ^ k) = if Z.testbit i k then 2 ^ k else 0.
Proof.
  intros Hk. apply Z.bits_inj'. intros m Hm.
  rewrite Z.land_spec, Z.pow2_bits_eqb by exact Hk.
  destruct (Z.eqb_spec k m) as [->|Hne].
  - destruct (Z.testbit i m) eqn:E.
    + rewrite Z.pow2_bits_true by exact Hm. reflexivity.
    + rewrite Z.bits_0. reflexivity.
  - rewrite andb_false_r. destruct (Z.testbit i k).
    + rewrite Z.pow2_bits_false; [reflexivity|exact Hne].
    + rewrite Z.bits_0. reflexivity.
Qed.

(** [i & bit == bit] reads one bit of [i]. *)
Lemma istrue_testbit var_cnt vi i :
  (vi < var_cnt)%nat ->
  Project.istrue var_cnt vi i
  = Z.testbit i (Z.of_nat (var_cnt - 1 - vi)).
Proof.
  intros Hv. unfold Project.istrue.
  replace (Z.of_nat var_cnt - Z.of_nat vi - 1)
    with (Z.of_nat (var_cnt - 1 - vi)) by lia.
  rewrite land_pow2 by lia.
  assert (0 < 2 ^ Z.of_nat (var_cnt - 1 - vi)) by (apply Z.pow_pos_nonneg; lia).
  destruct (Z.testbit i _).
  - apply Z.eqb_refl.
  - apply Z.eqb_neq. lia.
Qed.

Lemma testbit_low_add_pow2 j n k :
  0 <= k < n -> Z.testbit (j + 2 ^ n) k = Z.testbit j k.
Proof.
  intros Hk.
  rewrite <- (Z.mod_pow2_bits_low (j + 2 ^ n) n k) by lia.
  rewrite <- (Z.mod_pow2_bits_low j n k) by lia.
  f_equal. rewrite <- Zplus_mod_idemp_r, Z_mod_same_full, Z.add_0_r.
  reflexivity.
Qed.

Lemma testbit_top_small j n :
  0 <= n -> 0 <= j < 2 ^ n -> Z.testbit j n = false.
Proof.
  intros Hn Hj. apply Z.testbit_false; [exact Hn|].
  rewrite Z.div_small by exact Hj. reflexivity.
Qed.

Lemma testbit_top_add_pow2 j n :
  0 <= n -> 0 <= j < 2 ^ n -> Z.testbit (j + 2 ^ n) n = true.
Proof.
  intros Hn Hj. apply Z.testbit_true; [exact Hn|].
  assert (0 < 2 ^ n) by (apply Z.pow_pos_nonneg; lia).
  replace (j + 2 ^ n) with (j + 1 * 2 ^ n) by lia.
  rewrite Z.div_add by lia. rewrite Z.div_small by exact Hj. reflexivity.
Qed.

Lemma boolval_succ n i :
  Project.boolval (S n) i
  = Z.testbit i (Z.of_nat n) :: map (fun vi => Z.testbit i (Z.of_nat (n - 1 - vi))) (seq 0 n).
Proof.
  unfold Project.boolval. cbn [seq map].
  rewrite istrue_testbit by lia.
  replace (S n - 1 - 0)%nat with n by lia. f_equal.
  rewrite <- seq_shift, map_map.
  apply map_ext_in. intros vi Hvi. apply in_seq in Hvi.
  rewrite istrue_testbit by lia. f_equal. lia.
Qed.

Lemma boolval_testbit n i :
  Project.boolval n i
  = map (fun vi => Z.testbit i (Z.of_nat (n - 1 - vi))) (seq 0 n).
Proof.
  unfold Project.boolval. apply map_ext_in. intros vi Hvi.
  apply in_seq in Hvi. apply istrue_testbit. lia.
Qed.

Lemma seq_from k : forall n,
  seq k n = map (fun i => (i + k)%nat) (seq 0 n).
Proof.
  intros n. revert k. induction n as [|n IH]; intros k; [reflexivity|].
  cbn [seq map]. f_equal. rewrite <- (seq_shift n 0), map_map, IH.
  apply map_ext. intros i. lia.
Qed.

Lemma range_double k :
  Project.range (k + k) =
  Project.range k ++ map (fun i => i + Z.of_nat k) (Project.range k).
Proof.
  unfold Project.range. rewrite seq_app, map_app. f_equal.
  cbn [plus]. rewrite (seq_from k), !map_map.
  apply map_ext. intros i. lia.
Qed.

Lemma range_bounds n i : In i (Project.range n) -> 0 <= i < Z.of_nat n.
Proof.
  unfold Project.range. rewrite in_map_iff.
  intros (j & <- & Hj). apply in_seq in Hj. lia.
Qed.

Lemma pow2_nat_Z n : Z.of_nat (2 ^ n) = 2 ^ Z.of_nat n.
Proof. rewrite Nat2Z.inj_pow. reflexivity. Qed.

(** The assignments read off the counter [i = 0, 1, ..., 2^n - 1] are the
    lexicographic list. *)
Lemma boolval_enumerates : forall n,
  map (Project.boolval n) (Project.range (2 ^ n)) = lex_assignments n.
Proof.
  induction n as [|n IH]; [reflexivity|].
  cbn [lex_assignments]. rewrite <- IH, !map_map.
  replace (2 ^ S n)%nat with (2 ^ n + 2 ^ n)%nat by (cbn; lia).
  rewrite range_double, map_app, map_map. f_equal.
  - apply map_ext_in. intros i Hi. apply range_bounds in Hi.
    rewrite pow2_nat_Z in Hi.
    rewrite boolval_succ, boolval_testbit.
    rewrite testbit_top_small by lia. reflexivity.
  - apply map_ext_in. intros i Hi. apply range_bounds in Hi.
    rewrite pow2_nat_Z in *.
    rewrite boolval_succ, boolval_testbit.
    rewrite testbit_top_add_pow2 by lia. f_equal.
    apply map_ext_in. intros vi Hvi. apply in_seq in Hvi.
    apply testbit_low_add_pow2. lia.
Qed.

Lemma lex_assignments_length n :
  List.length (lex_assignments n) = (2 ^ n)%nat.
Proof.
  induction n as [|n IH]; [reflexivity|].
  cbn [lex_assignments]. rewrite length_app, !length_map, IH. cbn. lia.
Qed.

Lemma lex_assignments_complete : forall n bs,
  List.length bs = n -> In bs (lex_assignments n).
Proof.
  induction n as [|n IH]; intros [|b bs] Hl; try discriminate.
  - left. reflexivity.
  - cbn [lex_assignments]. apply in_app_iff.
    injection Hl as Hl. specialize (IH bs Hl).
    destruct b; [right|left]; apply in_map; exact IH.
Qed.

Lemma lex_assignments_sized : forall n bs,
  In bs (lex_assignments n) -> List.length bs = n.
Proof.
  induction n as [|n IH]; intros bs H.
  - destruct H as [<-|[]]. reflexivity.
  - cbn [lex_assignments] in H. apply in_app_iff in H.
    destruct H as [H|H]; apply in_map_iff in H;
      destruct H as (bs' & <- & H); cbn; f_equal; apply IH, H.
Qed.

Lemma lex_lt_cons b x y : lex_lt x y -> lex_lt (b :: x) (b :: y).
Proof. intros H. right. split; [reflexivity|exact H]. Qed.

Lemma lex_assignments_sorted : forall n,
  StronglySorted lex_lt (lex_assignments n).
Proof.
  induction n as [|n IH]; [repeat constructor|].
  cbn [lex_assignments].
  assert (forall b l, StronglySorted lex_lt l ->
                      StronglySorted lex_lt (map (cons b) l)) as Hmap.
  { intros b l Hs. induction Hs as [|x l Hs IHs Hx]; [constructor|].
    cbn. constructor; [exact IHs|].
    apply Forall_forall. intros y Hy. apply in_map_iff in Hy.
    destruct Hy as (y' & <- & Hy'). apply lex_lt_cons.
    rewrite Forall_forall in Hx. apply Hx, Hy'. }
  assert (forall l1 l2, StronglySorted lex_lt l1 -> StronglySorted lex_lt l2 ->
            (forall x y, In x l1 -> In y l2 -> lex_lt x y) ->
            StronglySorted lex_lt (l1 ++ l2)) as Happ.
  { intros l1 l2 H1 H2 H12. induction H1 as [|x l Hs IHs Hx]; [exact H2|].
    cbn. constructor.
    - apply IHs. intros a b Ha Hb. apply H12; [right; exact Ha|exact Hb].
    - apply Forall_app. split; [exact Hx|].
      apply Forall_forall. intros y Hy. apply H12; [left; reflexivity|exact Hy]. }
  apply Happ; try apply Hmap; try exact IH.
  intros x y Hx Hy. apply in_map_iff in Hx, Hy.
  destruct Hx as (x' & <- & _). destruct Hy as (y' & <- & _).
  left. split; reflexivity.
Qed.

Lemma lex_lt_irrefl : forall a, ~ lex_lt a a.
Proof.
  induction a as [|x a IH]; cbn; [tauto|].
  intros [[H1 H2]|[_ H]]; [congruence|exact (IH H)].
Qed.

Lemma sorted_NoDup {A} (lt : A -> A -> Prop) (l : list A) :
  (forall a, ~ lt a a) -> StronglySorted lt l -> NoDup l.
Proof.
  intros Hirr Hs. induction Hs as [|x l Hs IHs Hx]; constructor; [|exact IHs].
  intros Hin. rewrite Forall_forall in Hx. exact (Hirr x (Hx x Hin)).
Qed.

(** [sorted(VARS.items())] holds the entries of [VARS], by ascending key. *)
Lemma insert_sorted_perm x l : Permutation (insert_sorted x l) (x :: l).
Proof.
  induction l as [|y l IH]; cbn; [reflexivity|].
  destruct (key_leb (fst x) (fst y)); [reflexivity|].
  rewrite IH. apply perm_swap.
Qed.

Lemma sorted_items_perm d : Permutation (sorted_items d) d.
Proof.
  induction d as [|x d IH]; cbn; [reflexivity|].
  rewrite insert_sorted_perm. constructor. exact IH.
Qed.

Lemma insert_sorted_sorted x l :
  Sorted key_le l -> Sorted key_le (insert_sorted x l).
Proof.
  induction l as [|y l IH]; intros Hs; cbn.
  - repeat constructor.
  - unfold key_leb. destruct (Nat.leb_spec (nat_of_ascii (fst x))
                                           (nat_of_ascii (fst y))).
    + constructor; [exact Hs|]. constructor. exact H.
    + inversion Hs as [|? ? Hs' Hhd]; subst.
      constructor; [apply IH, Hs'|].
      destruct l as [|z l]; cbn.
      * constructor. unfold key_le. lia.
      * unfold key_leb. destruct (Nat.leb_spec (nat_of_ascii (fst x))
                                               (nat_of_ascii (fst z))).
        -- constructor. unfold key_le. lia.
        -- inversion Hhd; subst. constructor. assumption.
Qed.

Lemma sorted_items_sorted d : Sorted key_le (sorted_items d).
Proof.
  induction d as [|x d IH]; cbn; [constructor|].
  apply insert_sorted_sorted, IH.
Qed.

Lemma sorted_items_length d : List.length (sorted_items d) = List.length d.
Proof. apply Permutation_length, sorted_items_perm. Qed.

Lemma nth_map_lt {A B} (f : A -> B) (da : A) (db : B) : forall l i,
  (i < List.length l)%nat -> nth i (map f l) db = f (nth i l da).
Proof.
  induction l as [|x l IH]; intros [|i] Hi; cbn in *; try lia.
  - reflexivity.
  - apply IH. lia.
Qed.

Lemma rows_assignments expr VARS :
  map fst (Project.rows expr VARS)
  = lex_assignments (List.length (sorted_items VARS)).
Proof.
  unfold Project.rows. rewrite map_map. cbn [fst].
  apply boolval_enumerates.
Qed.

(** C5: with [n] entries in the dictionary, [test] makes one row for each
    [i = 0, ..., 2^n - 1] in increasing order; in row [i] the variable at
    index [v] of the sorted list is true exactly when bit [n - 1 - v] of [i]
    is set; the assignments are all the [2^n] possible ones, each once, in
    lexicographic order (FF, FT, TF, TT for two variables), and there is one
    row when [n = 0]. *)
Theorem rows_enumerate_assignments :
  forall (expr : Z3.expr) (VARS : dict),
    let var_list := sorted_items VARS in
    let n := List.length var_list in
    let table := Project.rows expr VARS in
    (n = List.length VARS /\ Permutation var_list VARS /\
     Sorted key_le var_list) /\
    List.length table = (2 ^ n)%nat /\
    (forall i, (i < 2 ^ n)%nat ->
       nth i table ([], false)
       = (Project.boolval n (Z.of_nat i),
          Project.final (Z3.add Z3.new_solver expr) var_list (Z.of_nat i))) /\
    (forall i v, (i < 2 ^ n)%nat -> (v < n)%nat ->
       nth v (fst (nth i table ([], false))) false
       = Z.testbit (Z.of_nat i) (Z.of_nat (n - 1 - v))) /\
    map fst table = lex_assignments n /\
    NoDup (map fst table) /\
    (forall bs, List.length bs = n -> In bs (map fst table)) /\
    StronglySorted lex_lt (map fst table) /\
    (n = 0%nat -> List.length table = 1%nat) /\
    lex_assignments 2
    = [[false; false]; [false; true]; [true; false]; [true; true]].
Proof.
  intros expr VARS var_list n table.
  assert (forall i, (i < 2 ^ n)%nat ->
            nth i table ([], false)
            = (Project.boolval n (Z.of_nat i),
               Project.final (Z3.add Z3.new_solver expr) var_list
                 (Z.of_nat i))) as Hnth.
  { intros i Hi. subst table. unfold Project.rows, Project.range.
    fold var_list. fold n. rewrite map_map.
    rewrite (nth_map_lt _ 0%nat) by (rewrite length_seq; exact Hi).
    rewrite seq_nth by exact Hi. reflexivity. }
  assert (map fst table = lex_assignments n) as Hlex
    by apply rows_assignments.
  assert (List.length table = (2 ^ n)%nat) as Hlen.
  { rewrite <- (length_map fst), Hlex. apply lex_assignments_length. }
  split; [|split; [exact Hlen|split; [exact Hnth|]]].
  { split; [apply sorted_items_length|].
    split; [apply sorted_items_perm|apply sorted_items_sorted]. }
  split.
  { intros i v Hi Hv. rewrite (Hnth i Hi). cbn [fst].
    rewrite boolval_testbit.
    rewrite (nth_map_lt _ 0%nat) by (rewrite length_seq; exact Hv).
    rewrite seq_nth by exact Hv. reflexivity. }
  split; [exact Hlex|]. rewrite Hlex.
  split; [apply (sorted_NoDup lex_lt); [apply lex_lt_irrefl
                                       |apply lex_assignments_sorted]|].
  split; [apply lex_assignments_complete|].
  split; [apply lex_assignments_sorted|].
  split; [|reflexivity].
  intros Hn. rewrite Hlen, Hn. reflexivity.
Qed.

(** ** The solver and the evaluator of the specification *)

(** The value of a term depends on the constants it mentions only. *)
Lemma eval_ext m m' : forall e,
  (forall c, In c (Z3.consts e) -> m c = m' c) ->
  Z3.eval m e = Z3.eval m' e.
Proof.
  induction e using expr_rect'; cbn; intros Hc.
  - apply Hc. left. reflexivity.
  - reflexivity.
  - f_equal. apply IHe, Hc.
  - induction H as [|x l Hx Hl IH]; [reflexivity|]. cbn in *. f_equal.
    + apply Hx. intros c Hin. apply Hc, in_app_iff. left. exact Hin.
    + apply IH. intros c Hin. apply Hc, in_app_iff. right. exact Hin.
  - induction H as [|x l Hx Hl IH]; [reflexivity|]. cbn in *. f_equal.
    + apply Hx. intros c Hin. apply Hc, in_app_iff. left. exact Hin.
    + apply IH. intros c Hin. apply Hc, in_app_iff. right. exact Hin.
  - f_equal; [apply IHe1|apply IHe2]; intros c Hin; apply Hc, in_app_iff;
      auto.
  - f_equal; [apply IHe1|apply IHe2]; intros c Hin; apply Hc, in_app_iff;
      auto.
Qed.

Lemma interpretations_complete m : forall cs,
  exists m', In m' (Z3.interpretations cs) /\
             forall c, In c cs -> m' c = m c.
Proof.
  induction cs as [|c cs (m' & Hin & Hag)].
  - exists (fun _ => false). split; [left; reflexivity|intros ? []].
  - exists (Z3.update m' c (m c)). split.
    + cbn. apply in_flat_map. exists m'. split; [exact Hin|].
      destruct (m c); cbn; auto.
    + intros c' Hc'. unfold Z3.update.
      destruct (Ascii.eqb_spec c' c) as [->|Hne]; [reflexivity|].
      destruct Hc' as [->|Hc']; [contradiction|]. apply Hag, Hc'.
Qed.

(** [check] answers [sat] exactly when some interpretation satisfies the
    assertions and the assumptions. *)
Lemma check_sat_iff s assumptions :
  Z3.is_sat (Z3.check s assumptions) = true <->
  exists m, forallb (Z3.eval m) (Z3.assertions s ++ assumptions) = true.
Proof.
  unfold Z3.check. set (fs := Z3.assertions s ++ assumptions).
  destruct (existsb _ _) eqn:E; cbn.
  - split; [intros _|reflexivity].
    apply existsb_exists in E. destruct E as (m & _ & Hm). eauto.
  - split; [discriminate|]. intros (m & Hm). exfalso.
    destruct (interpretations_complete m (flat_map Z3.consts fs))
      as (m' & Hin & Hag).
    assert (existsb (fun m => forallb (Z3.eval m) fs)
              (Z3.interpretations (flat_map Z3.consts fs)) = true) as E'.
    { apply existsb_exists. exists m'. split; [exact Hin|].
      rewrite forallb_forall in *. intros f Hf. rewrite <- (Hm f Hf).
      apply eval_ext. intros c Hc. apply Hag, in_flat_map. eauto. }
    congruence.
Qed.

(** *** The entries of the dictionary *)

Lemma lookup_In c v : forall d, lookup c d = Some v -> In (c, v) d.
Proof.
  induction d as [|[k w] d IH]; cbn; [discriminate|].
  destruct (Ascii.eqb_spec c k) as [->|_].
  - intros H. inversion H. left. reflexivity.
  - intros H. right. apply IH, H.
Qed.

Lemma lookup_None c : forall d, lookup c d = None -> ~ In c (keys d).
Proof.
  induction d as [|[k w] d IH]; cbn; [tauto|].
  destruct (Ascii.eqb_spec c k) as [->|Hne]; [discriminate|].
  intros H [E|Hin]; [congruence|exact (IH H Hin)].
Qed.

Lemma contains_keys c d : contains c d = true -> In c (keys d).
Proof.
  unfold contains. destruct (lookup c d) as [v|] eqn:E; [|discriminate].
  intros _. apply lookup_In in E. apply (in_map fst) in E. exact E.
Qed.

Lemma setitem_absent c v : forall d,
  lookup c d = None -> setitem d c v = d ++ [(c, v)].
Proof.
  induction d as [|[k w] d IH]; cbn; [reflexivity|].
  destruct (Ascii.eqb c k); [discriminate|]. intros H. f_equal. apply IH, H.
Qed.

(** The dictionary [var] leaves: the one it found, or that one with the
    new name appended. *)
Lemma var_dict islower stmt l r d x d' :
  Project.var islower stmt l r d = Ret (x, d') ->
  d' = d \/ exists c, lookup c d = None /\ d' = d ++ [(c, Z3.Bool c)].
Proof.
  intros H. apply var_Ret in H.
  destruct H as [[_ ->]|[(b & _ & ->)|(c & v & _ & _ & _ & _ & _ & ->)]];
    auto.
  unfold contains. destruct (lookup c d) eqn:E; [left; reflexivity|].
  right. exists c. split; [exact E|apply setitem_absent, E].
Qed.

Lemma var_keeps_entries_wf islower stmt l r d x d' :
  entries_wf d -> Project.var islower stmt l r d = Ret (x, d') ->
  entries_wf d'.
Proof.
  intros W H. destruct (var_dict _ _ _ _ _ _ _ H) as [->|(c & _ & ->)];
    [exact W|].
  intros k h Hin. apply in_app_iff in Hin. destruct Hin as [Hin|[E|[]]].
  - apply W, Hin.
  - inversion E. reflexivity.
Qed.

Lemma var_keeps_NoDup islower stmt l r d x d' :
  NoDup (keys d) -> Project.var islower stmt l r d = Ret (x, d') ->
  NoDup (keys d').
Proof.
  intros W H. destruct (var_dict _ _ _ _ _ _ _ H) as [->|(c & Hc & ->)];
    [exact W|].
  unfold keys. rewrite map_app. cbn.
  apply NoDup_app; [exact W|repeat constructor; tauto|].
  intros a Ha [<-|[]]. exact (lookup_None _ _ Hc Ha).
Qed.

(** *** The assumptions of a row pin every variable *)

Lemma ands_pin m var_list i :
  forallb (Z3.eval m) (Project.ands var_list i) = true <->
  forall vi, (vi < List.length var_list)%nat ->
    Z3.eval m (snd (nth vi var_list Project.no_entry))
    = Project.istrue (List.length var_list) vi i.
Proof.
  unfold Project.ands. rewrite forallb_forall. split.
  - intros H vi Hvi.
    specialize (H _ (in_map _ _ vi (proj2 (in_seq _ _ _)
                                      (conj (Nat.le_0_l _) Hvi)))).
    cbn in H. rewrite andb_true_r in H. apply Bool.eqb_prop, H.
  - intros H f Hf. apply in_map_iff in Hf. destruct Hf as (vi & <- & Hvi).
    apply in_seq in Hvi. cbn. rewrite andb_true_r, H by lia.
    apply Bool.eqb_reflx.
Qed.

Lemma index_of_nth : forall (ks : list ascii) vi,
  NoDup ks -> (vi < List.length ks)%nat ->
  index_of (nth vi ks zero) ks = Some vi.
Proof.
  induction ks as [|k ks IH]; intros vi Hnd Hvi; cbn in Hvi; [lia|].
  inversion Hnd as [|? ? Hk Hnd']; subst.
  destruct vi as [|vi]; cbn.
  - rewrite Ascii.eqb_refl. reflexivity.
  - destruct (Ascii.eqb_spec (nth vi ks zero) k) as [E|_].
    + exfalso. apply Hk. rewrite <- E. apply nth_In. lia.
    + rewrite IH by (auto; lia). reflexivity.
Qed.

Lemma row_assignment_pins var_list i vi :
  NoDup (keys var_list) -> (vi < List.length var_list)%nat ->
  row_assignment var_list i (fst (nth vi var_list Project.no_entry))
  = Project.istrue (List.length var_list) vi i.
Proof.
  intros Hnd Hvi. unfold row_assignment.
  change (fst (nth vi var_list Project.no_entry))
    with (fst (nth vi var_list (zero, Z3.BoolVal false))).
  rewrite <- (map_nth fst). cbn [fst].
  rewrite index_of_nth; [reflexivity|exact Hnd|].
  unfold keys in *. rewrite length_map. exact Hvi.
Qed.

(** With every handle the constant of its key, distinct keys, and the
    constants of [expr] among the keys, what the solver answers for row [i]
    is the value of [expr] under the assignment of row [i]. *)
Lemma final_is_eval expr var_list i :
  entries_wf var_list -> NoDup (keys var_list) ->
  (forall c, In c (Z3.consts expr) -> In c (keys var_list)) ->
  Project.final (Z3.add Z3.new_solver expr) var_list i
  = Z3.eval (row_assignment var_list i) expr.
Proof.
  intros W Hnd Hk. unfold Project.final.
  assert (forall vi, (vi < List.length var_list)%nat ->
            snd (nth vi var_list Project.no_entry)
            = Z3.Bool (fst (nth vi var_list Project.no_entry))) as Hh.
  { intros vi Hvi. apply W.
    rewrite <- surjective_pairing. apply nth_In, Hvi. }
  apply eq_true_iff_eq. rewrite check_sat_iff. cbn [Z3.add Z3.new_solver
    Z3.assertions app]. split.
  - intros (m & Hm). cbn [forallb] in Hm. apply andb_prop in Hm.
    destruct Hm as [He Hp]. rewrite <- He. apply eval_ext.
    intros c Hc. apply Hk in Hc. unfold keys in Hc.
    apply (In_nth _ _ zero) in Hc. destruct Hc as (vi & Hvi & <-).
    rewrite length_map in Hvi.
    change zero with (fst Project.no_entry). rewrite map_nth.
    rewrite row_assignment_pins by assumption.
    rewrite ands_pin in Hp. rewrite <- (Hp vi Hvi), Hh by exact Hvi.
    reflexivity.
  - intros He. exists (row_assignment var_list i). cbn [forallb].
    rewrite He. cbn [andb]. apply ands_pin. intros vi Hvi.
    rewrite Hh by exact Hvi. cbn [Z3.eval].
    apply row_assignment_pins; assumption.
Qed.

(** *** The two evaluators on the trees of the parser *)

Lemma evaluate_Iff assignment a b :
  Spec.evaluate assignment (Spec.BinaryOp Spec.Iff a b)
  = Bool.eqb (Spec.evaluate assignment a) (Spec.evaluate assignment b).
Proof.
  cbn. destruct (Spec.evaluate assignment a), (Spec.evaluate assignment b);
    reflexivity.
Qed.

Lemma evaluate_Iff_as_conjunction assignment a b :
  Spec.evaluate assignment (Spec.BinaryOp Spec.Iff a b)
  = Spec.evaluate assignment
      (Spec.BinaryOp Spec.And (Spec.BinaryOp Spec.Implies a b)
                              (Spec.BinaryOp Spec.Implies b a)).
Proof. reflexivity. Qed.

Lemma to_Expression_evaluate : forall e,
  grammar_tree e = true ->
  exists t, to_Expression e = Some t /\
            forall assignment,
              Spec.evaluate assignment t = Z3.eval assignment e.
Proof.
  induction e using expr_rect'; cbn; intros G; try discriminate.
  - eauto.
  - eauto.
  - destruct (IHe G) as (t & -> & Ht). eexists. split; [reflexivity|].
    intros asg. cbn. rewrite Ht. reflexivity.
  - destruct args as [|a [|b [|]]]; try discriminate.
    apply andb_prop in G. destruct G as [Ga Gb].
    inversion H as [|? ? Ha H']; subst. inversion H' as [|? ? Hb _]; subst.
    destruct (Ha Ga) as (ta & -> & Hta). destruct (Hb Gb) as (tb & -> & Htb).
    eexists. split; [reflexivity|]. intros asg. cbn.
    rewrite Hta, Htb, andb_true_r. reflexivity.
  - destruct args as [|a [|b [|]]]; try discriminate.
    apply andb_prop in G. destruct G as [Ga Gb].
    inversion H as [|? ? Ha H']; subst. inversion H' as [|? ? Hb _]; subst.
    destruct (Ha Ga) as (ta & -> & Hta). destruct (Hb Gb) as (tb & -> & Htb).
    eexists. split; [reflexivity|]. intros asg. cbn.
    rewrite Hta, Htb, orb_false_r. reflexivity.
  - apply andb_prop in G. destruct G as [Ga Gb].
    destruct (IHe1 Ga) as (ta & -> & Hta).
    destruct (IHe2 Gb) as (tb & -> & Htb).
    eexists. split; [reflexivity|]. intros asg. cbn.
    rewrite Hta, Htb.
    destruct (Z3.eval asg e1), (Z3.eval asg e2); reflexivity.
Qed.

Lemma parsed_dict islower fuel text e VARS :
  Project.get_z3_expr islower fuel text Project.VARS_init = Ret (Some e, VARS) ->
  entries_wf VARS /\ NoDup (keys VARS) /\
  (forall c, In c (Z3.consts e) -> In c (keys VARS)) /\
  grammar_tree e = true.
Proof.
  unfold Project.get_z3_expr. intros H.
  split; [|split; [|split]].
  - apply (X_preserved islower entries_wf (var_keeps_entries_wf islower)
             _ _ _ _ _ _ _ (fun k h (F : In (k, h) []) => match F with end) H).
  - apply (X_preserved islower (fun d => NoDup (keys d))
             (var_keeps_NoDup islower) _ _ _ _ _ _ _
             (NoDup_nil _ : NoDup (keys Project.VARS_init)) H).
  - intros c Hc. apply contains_keys.
    apply (X_success islower _ _ _ _ _ _ _ wf_init H). exact Hc.
  - apply (X_success islower _ _ _ _ _ _ _ wf_init H).
Qed.

Lemma sorted_items_wf VARS :
  entries_wf VARS -> NoDup (keys VARS) ->
  entries_wf (sorted_items VARS) /\ NoDup (keys (sorted_items VARS)) /\
  forall c, In c (keys VARS) -> In c (keys (sorted_items VARS)).
Proof.
  intros W Hnd. pose proof (sorted_items_perm VARS) as Hp.
  split; [|split].
  - intros k h Hin. apply W. eapply Permutation_in; eauto.
  - unfold keys. eapply Permutation_NoDup; [|exact Hnd].
    apply Permutation_map, Permutation_sym, Hp.
  - intros c Hc. unfold keys in *. eapply Permutation_in; [|exact Hc].
    apply Permutation_map, Permutation_sym, Hp.
Qed.

(** C6: for a parsed expression, what the solver answers in row [i]
    (the expression asserted, one equality per variable assumed) is the
    value the direct evaluator of the specification gives to the tree under
    the assignment of that row, and every assignment of the registered
    variables is the assignment of a row; [Iff] evaluates to the equality
    of its two sides, which is also the value of the conjunction of
    implications the parser builds for [<->]. *)
Theorem solver_answer_is_direct_evaluation
  (islower : ascii -> bool) (fuel : nat) (text : string)
  (e : Z3.expr) (VARS : dict)
  (Hparse : Project.get_z3_expr islower fuel text Project.VARS_init
              = Ret (Some e, VARS)) :
  exists t,
    to_Expression e = Some t /\
    (forall i,
       Project.final (Z3.add Z3.new_solver e) (sorted_items VARS) i
       = Spec.evaluate (row_assignment (sorted_items VARS) i) t) /\
    (forall i vi, (vi < List.length (sorted_items VARS))%nat ->
       row_assignment (sorted_items VARS) i
         (fst (nth vi (sorted_items VARS) Project.no_entry))
       = nth vi (Project.boolval (List.length (sorted_items VARS)) i) false) /\
    (forall row, In row (Project.rows e VARS) ->
       exists i, fst row = Project.boolval (List.length (sorted_items VARS)) i
                 /\ snd row
                    = Spec.evaluate (row_assignment (sorted_items VARS) i) t) /\
    (forall bs, List.length bs = List.length (sorted_items VARS) ->
       exists i, In i (Project.range (2 ^ List.length (sorted_items VARS)))
                 /\ Project.boolval (List.length (sorted_items VARS)) i = bs) /\
    (forall assignment a b,
       Spec.evaluate assignment (Spec.BinaryOp Spec.Iff a b)
       = Bool.eqb (Spec.evaluate assignment a) (Spec.evaluate assignment b)
       /\
       Spec.evaluate assignment (Spec.BinaryOp Spec.Iff a b)
       = Spec.evaluate assignment
           (Spec.BinaryOp Spec.And (Spec.BinaryOp Spec.Implies a b)
                                   (Spec.BinaryOp Spec.Implies b a))).
Proof.
  destruct (parsed_dict _ _ _ _ _ Hparse) as (W & Hnd & Hk & G).
  destruct (sorted_items_wf VARS W Hnd) as (W' & Hnd' & Hk').
  destruct (to_Expression_evaluate e G) as (t & Ht & Hev).
  assert (forall i,
            Project.final (Z3.add Z3.new_solver e) (sorted_items VARS) i
            = Spec.evaluate (row_assignment (sorted_items VARS) i) t) as Hfinal.
  { intros i. rewrite Hev. apply final_is_eval; auto. }
  exists t. split; [exact Ht|]. split; [exact Hfinal|].
  split; [|split; [|split]].
  - intros i vi Hvi. rewrite row_assignment_pins by assumption.
    unfold Project.boolval.
    rewrite (nth_map_lt _ 0%nat) by (rewrite length_seq; exact Hvi).
    rewrite seq_nth by exact Hvi. reflexivity.
  - intros row Hin. unfold Project.rows in Hin. apply in_map_iff in Hin.
    destruct Hin as (i & <- & _). exists i. cbn [fst snd].
    split; [reflexivity|apply Hfinal].
  - intros bs Hbs.
    pose proof (lex_assignments_complete _ bs Hbs) as Hin.
    rewrite <- boolval_enumerates in Hin. apply in_map_iff in Hin.
    destruct Hin as (i & Hi & Hr). exists i. split; assumption.
  - intros asg a b. split;
      [apply evaluate_Iff|apply evaluate_Iff_as_conjunction].
Qed.

Lemma solver_answer_is_direct_evaluation_witness :
  exists t,
    to_Expression a_implies_b = Some t /\
    (forall i,
       Project.final (Z3.add Z3.new_solver a_implies_b) (sorted_items ab_dict) i
       = Spec.evaluate (row_assignment (sorted_items ab_dict) i) t) /\
    (forall i vi, (vi < List.length (sorted_items ab_dict))%nat ->
       row_assignment (sorted_items ab_dict) i
         (fst (nth vi (sorted_items ab_dict) Project.no_entry))
       = nth vi (Project.boolval (List.length (sorted_items ab_dict)) i) false) /\
    (forall row, In row (Project.rows a_implies_b ab_dict) ->
       exists i, fst row = Project.boolval (List.length (sorted_items ab_dict)) i
                 /\ snd row
                    = Spec.evaluate (row_assignment (sorted_items ab_dict) i) t) /\
    (forall bs, List.length bs = List.length (sorted_items ab_dict) ->
       exists i, In i (Project.range (2 ^ List.length (sorted_items ab_dict)))
                 /\ Project.boolval (List.length (sorted_items ab_dict)) i = bs) /\
    (forall assignment a b,
       Spec.evaluate assignment (Spec.BinaryOp Spec.Iff a b)
       = Bool.eqb (Spec.evaluate assignment a) (Spec.evaluate assignment b)
       /\
       Spec.evaluate assignment (Spec.BinaryOp Spec.Iff a b)
       = Spec.evaluate assignment
           (Spec.BinaryOp Spec.And (Spec.BinaryOp Spec.Implies a b)
                                   (Spec.BinaryOp Spec.Implies b a))).
Proof.
  apply (solver_answer_is_direct_evaluation ascii_islower 3 "a->b").
  vm_compute. reflexivity.
Defined.

(** The tables of the specification's examples, as the script prints
    them. *)
Example table_of_a_iff_b :
  Project.script ascii_islower 3 [prog; "a<->b"]
  = Project.Exited ["a | b | a<->b"; "=============";
                    "F | F | T"; "F | T | F"; "T | F | F"; "T | T | T"] 0.
Proof. vm_compute. reflexivity. Qed.

Example table_of_constants :
  Project.script ascii_islower 3 [prog; "T&F"]
  = Project.Exited [" | T&F"; "======"; " | F"] 0.
Proof. vm_compute. reflexivity. Qed.

(** ** A formula between parentheses *)

Lemma length_app_string s t :
  String.length (s ++ t) = (String.length s + String.length t)%nat.
Proof. induction s as [|c s IH]; simpl; [reflexivity|rewrite IH; reflexivity]. Qed.

Lemma len_in_parens s : len (in_parens s) = len s + 2.
Proof.
  unfold len, in_parens. cbn [String.length].
  rewrite length_app_string. cbn [String.length]. lia.
Qed.

Lemma get_Some_lt : forall s n c,
  String.get n s = Some c -> (n < String.length s)%nat.
Proof.
  induction s as [|a s IH]; intros n c H; simpl in *; [discriminate|].
  destruct n as [|n]; [lia|]. apply IH in H. lia.
Qed.

Lemma getitem_of_get s p c (V : dict) :
  0 <= p -> String.get (Z.to_nat p) s = Some c -> getitem s p V = Ret (c, V).
Proof.
  intros Hp H. pose proof (get_Some_lt _ _ _ H) as Hlt.
  unfold getitem.
  destruct (Z.ltb_spec p 0); [lia|].
  destruct (Z.leb_spec 0 p); [|lia].
  destruct (Z.ltb_spec p (len s)); [|unfold len in *; lia].
  cbn [andb]. rewrite H. reflexivity.
Qed.

Lemma getitem_in_parens s i (V : dict) :
  0 <= i < len s -> getitem (in_parens s) (i + 1) V = getitem s i V.
Proof.
  intros Hi. destruct (getitem_in_range s i V Hi) as (c & Hc & ->).
  apply getitem_of_get; [lia|].
  replace (Z.to_nat (i + 1)) with (S (Z.to_nat i)) by lia.
  unfold in_parens. cbn [String.get].
  rewrite <- append_correct1; [exact Hc|unfold len in Hi; lia].
Qed.

Lemma getitem_open_paren s (V : dict) :
  getitem (in_parens s) 0 V = Ret ("("%char, V).
Proof. apply getitem_of_get; [lia|reflexivity]. Qed.

Lemma getitem_close_paren s (V : dict) :
  getitem (in_parens s) (len s + 1) V = Ret (")"%char, V).
Proof.
  apply getitem_of_get; [unfold len; lia|].
  replace (Z.to_nat (len s + 1)) with (S (0 + String.length s))
    by (unfold len; lia).
  unfold in_parens. cbn [String.get].
  rewrite <- append_correct2. reflexivity.
Qed.

Lemma substring_app_l : forall s t n m,
  (n + m <= String.length s)%nat ->
  substring n m (s ++ t) = substring n m s.
Proof.
  induction s as [|c s IH]; intros t n m H; simpl in H.
  - assert (n = O) by lia. assert (m = O) by lia. subst.
    destruct t; reflexivity.
  - destruct n as [|n]; simpl.
    + destruct m as [|m]; [reflexivity|]. f_equal. apply IH. simpl. lia.
    + apply IH. lia.
Qed.

Lemma occurs_at_in_parens s sub c :
  0 <= c -> c + len sub <= len s ->
  occurs_at (in_parens s) sub (c + 1) = occurs_at s sub c.
Proof.
  intros Hc Hle. unfold occurs_at, in_parens.
  replace (Z.to_nat (c + 1)) with (S (Z.to_nat c)) by lia.
  cbn [substring]. rewrite substring_app_l; [reflexivity|].
  unfold len in Hle. lia.
Qed.

Lemma rfind_scan_in_parens s sub lo : forall k,
  0 <= lo -> lo + Z.of_nat k - 1 + len sub <= len s ->
  rfind_scan (in_parens s) sub (lo + 1) k = shifted (rfind_scan s sub lo k).
Proof.
  induction k as [|k IH]; intros Hlo Hk; [reflexivity|].
  cbn [rfind_scan].
  replace (lo + 1 + Z.of_nat k) with (lo + Z.of_nat k + 1) by lia.
  rewrite occurs_at_in_parens by lia.
  destruct (occurs_at s sub (lo + Z.of_nat k)).
  - unfold shifted. destruct (Z.eqb_spec (lo + Z.of_nat k) (-1)); [lia|].
    reflexivity.
  - apply IH; lia.
Qed.

(** Inside the parentheses [rfind] finds what it finds in [s], one place to
    the right. *)
Lemma rfind_in_parens s sub b e :
  0 <= b -> 0 <= e <= len s ->
  rfind (in_parens s) sub (b + 1) (e + 1) = shifted (rfind s sub b e).
Proof.
  intros Hb He. unfold rfind, adjust_end, adjust_start.
  rewrite len_in_parens.
  destruct (Z.gtb_spec (e + 1) (len s + 2)); [lia|].
  destruct (Z.ltb_spec (e + 1) 0); [lia|].
  destruct (Z.ltb_spec (b + 1) 0); [lia|].
  destruct (Z.gtb_spec e (len s)); [lia|].
  destruct (Z.ltb_spec e 0); [lia|].
  destruct (Z.ltb_spec b 0); [lia|].
  replace (e + 1 - len sub - (b + 1) + 1) with (e - len sub - b + 1) by lia.
  destruct (Z.to_nat (e - len sub - b + 1)) as [|k] eqn:Ek; [reflexivity|].
  apply rfind_scan_in_parens; lia.
Qed.

(** An empty slice holds no occurrence. *)
Lemma rfind_empty_slice s sub b :
  0 <= b -> rfind s sub (b + 1) 0 = -1.
Proof.
  intros Hb. unfold rfind, adjust_end, adjust_start.
  pose proof (len_nonneg s). pose proof (len_nonneg sub).
  destruct (Z.gtb_spec 0 (len s)); [lia|].
  destruct (Z.ltb_spec 0 0); [lia|].
  destruct (Z.ltb_spec (b + 1) 0); [lia|].
  replace (Z.to_nat (0 - len sub - (b + 1) + 1)) with O by lia.
  reflexivity.
Qed.

(** Where [sub] occurs, its characters are those of [s]. *)
Lemma occurs_at_get s sub i k c :
  0 <= i -> occurs_at s sub i = true -> String.get k sub = Some c ->
  String.get (Z.to_nat (i + Z.of_nat k)) s = Some c.
Proof.
  intros Hi Ho Hk. unfold occurs_at in Ho. apply String.eqb_eq in Ho.
  pose proof (get_Some_lt _ _ _ Hk) as Hlt.
  rewrite <- Ho in Hk. rewrite substring_correct1 in Hk by exact Hlt.
  replace (Z.to_nat (i + Z.of_nat k)) with (k + Z.to_nat i)%nat by lia.
  exact Hk.
Qed.

Lemma remove_spaces_app s t :
  remove_spaces (s ++ t) = (remove_spaces s ++ remove_spaces t)%string.
Proof.
  induction s as [|c s IH]; simpl; [reflexivity|].
  destruct (Ascii.eqb c " "); simpl; rewrite IH; reflexivity.
Qed.

Lemma remove_spaces_in_parens text :
  remove_spaces ("(" ++ text ++ ")") = in_parens (remove_spaces text).
Proof.
  change ("(" ++ text ++ ")")%string with (String "(" (text ++ ")")).
  cbn [remove_spaces]. change (Ascii.eqb "(" " ") with false. cbv iota.
  rewrite remove_spaces_app. reflexivity.
Qed.

Lemma follows_ret {A} (a : A) : follows (ret a) (ret a).
Proof.
  intros dA dB a' dA' WA WB H. unfold ret in *. inversion H; subst. eauto.
Qed.

Lemma follows_bind {A B} (m1 m2 : M A) (k1 k2 : A -> M B) :
  follows m1 m2 -> (forall a, follows (k1 a) (k2 a)) ->
  follows (bind m1 k1) (bind m2 k2).
Proof.
  intros Hm Hk dA dB b dA' WA WB H.
  apply bind_Ret in H. destruct H as (a & d1 & H1 & H2).
  destruct (Hm _ _ _ _ WA WB H1) as (dB1 & E1 & WA1 & WB1).
  destruct (Hk a _ _ _ _ WA1 WB1 H2) as (dB2 & E2 & WA2 & WB2).
  exists dB2. rewrite (bind_of_Ret _ _ _ _ _ E1). auto.
Qed.

Lemma follows_of_refines {A} (m1 m2 : M A) :
  refines both_wf m1 m2 -> follows m1 m2.
Proof.
  intros Hr dA dB a dA' WA WB H. specialize (Hr dA dB (conj WA WB)).
  rewrite H in Hr. destruct Hr as (dB' & E & WA' & WB'). eauto.
Qed.

Lemma follows_getitem_in_parens s i :
  0 <= i < len s -> follows (getitem s i) (getitem (in_parens s) (i + 1)).
Proof.
  intros Hi dA dB c dA' WA WB H.
  destruct (getitem_state _ _ _ _ _ H) as [-> Hall].
  exists dB. rewrite getitem_in_parens by exact Hi. auto.
Qed.

Section InParens.

Variable islower : ascii -> bool.
Hypothesis islower_operator : forall c,
  operator_char c = true -> islower c = false.

Variable s : string.

Lemma operator_not_first c :
  operator_char c = true -> first_char islower c = false.
Proof.
  intros H. unfold first_char. rewrite (islower_operator c H).
  unfold operator_char in H.
  repeat (apply orb_true_iff in H; destruct H as [H|H]);
    apply Ascii.eqb_eq in H; subst c; reflexivity.
Qed.

Lemma no_first_char_tokens :
  no_first_char islower "<->" /\ no_first_char islower "->" /\
  no_first_char islower "|" /\ no_first_char islower "&".
Proof.
  repeat split; intros k c H;
    repeat (destruct k as [|k]; cbn in H; try discriminate);
    inversion H; subst c; apply operator_not_first; reflexivity.
Qed.

(** A span that starts with a character of a token does not parse. *)
Lemma X_not_after_token joiner i p f r d e d' :
  no_first_char islower joiner -> 0 <= i -> occurs_at s joiner i = true ->
  i <= p < i + len joiner -> wf d ->
  Project.X islower f s p r d = Ret (Some e, d') -> False.
Proof.
  intros Hj Hi Ho Hp W H.
  destruct (X_success islower _ _ _ _ _ _ _ W H) as [_ (ch & Hg & Hf)].
  destruct (get_in_range joiner (Z.to_nat (p - i))) as [c Hc];
    [unfold len in Hp; lia|].
  pose proof (occurs_at_get s joiner i _ c Hi Ho Hc) as Hs.
  replace (i + Z.of_nat (Z.to_nat (p - i))) with p in Hs by lia.
  specialize (Hg d). rewrite (getitem_of_get s p c d) in Hg
    by (assumption || lia).
  inversion Hg; subst ch. rewrite (Hj _ _ Hc) in Hf. discriminate.
Qed.

Lemma X_empty_span_None f l r d x d' :
  l > r -> Project.X islower f s l r d = Ret (x, d') -> x = None.
Proof.
  intros Hlr H. destruct f as [|f]; [discriminate|].
  rewrite X_empty_span in H by exact Hlr. congruence.
Qed.

Lemma tried_not_good joiner l r c f d x d1 y d2 :
  wf d ->
  Project.X islower f s l (c - 1) d = Ret (x, d1) ->
  Project.X islower f s (c + len joiner) r d1 = Ret (y, d2) ->
  x = None \/ y = None -> ~ good islower s joiner l r c.
Proof.
  intros W Hx Hy Hnone (f1 & f2 & e1 & e2 & a & b & e1' & e2' & W1 & W2 & Ha & Hb).
  pose proof (X_keeps_wf islower _ _ _ _ _ _ _ W Hx) as Wd1.
  pose proof (X_result_unique islower _ _ _ _ _ _ _ _ _ _ _ W W1 Hx Ha).
  pose proof (X_result_unique islower _ _ _ _ _ _ _ _ _ _ _ Wd1 W2 Hy Hb).
  destruct Hnone; congruence.
Qed.

Lemma empty_right_not_good joiner l r c :
  c + len joiner > r -> ~ good islower s joiner l r c.
Proof.
  intros Hc (f1 & f2 & e1 & e2 & a & b & e1' & e2' & W1 & W2 & Ha & Hb).
  apply X_empty_span_None in Hb; [discriminate|exact Hc].
Qed.

Lemma empty_left_not_good joiner l r c :
  c <= l -> ~ good islower s joiner l r c.
Proof.
  intros Hc (f1 & f2 & e1 & e2 & a & b & e1' & e2' & W1 & W2 & Ha & Hb).
  apply X_empty_span_None in Ha; [discriminate|lia].
Qed.

Lemma skipped_not_good joiner l r i c :
  no_first_char islower joiner -> 0 <= i -> occurs_at s joiner i = true ->
  c < i -> i <= c + len joiner -> ~ good islower s joiner l r c.
Proof.
  intros Hj Hi Ho Hc1 Hc2
    (f1 & f2 & e1 & e2 & a & b & e1' & e2' & W1 & W2 & Ha & Hb).
  apply (X_not_after_token joiner i (c + len joiner) f2 r e2 b e2');
    auto; lia.
Qed.

Lemma none_good_first joiner l r :
  0 <= l <= r -> r < len s ->
  none_good_above islower s joiner l r (rfind s joiner l (r + 1)).
Proof.
  intros Hl Hr c Hc Ho.
  destruct (Z_le_gt_dec (c + len joiner) (r + 1)) as [Hin|Hout];
    [|apply empty_right_not_good; lia].
  destruct (Z_le_gt_dec c l) as [Hcl|Hcl]; [apply empty_left_not_good; lia|].
  pose proof (rfind_highest s joiner l (r + 1) c ltac:(lia) ltac:(lia)
                ltac:(lia) Hin Ho). lia.
Qed.

Lemma none_good_next joiner l r i :
  no_first_char islower joiner -> 0 <= l -> 1 <= i -> i - 1 <= len s ->
  occurs_at s joiner i = true ->
  none_good_above islower s joiner l r i -> ~ good islower s joiner l r i ->
  none_good_above islower s joiner l r (rfind s joiner l (i - 1)).
Proof.
  intros Hj Hl Hi Hlen Ho Habove Hi_bad c Hc Hoc.
  destruct (Z.lt_trichotomy c i) as [Hlt|[->|Hgt]];
    [|exact Hi_bad|apply Habove; assumption].
  destruct (Z_le_gt_dec c l) as [Hcl|Hcl]; [apply empty_left_not_good; lia|].
  destruct (Z_le_gt_dec (c + len joiner) (i - 1)) as [Hin|Hout].
  - pose proof (rfind_highest s joiner l (i - 1) c ltac:(lia) ltac:(lia)
                  ltac:(lia) Hin Hoc). lia.
  - apply (skipped_not_good joiner l r i c); auto; lia.
Qed.

(** Where no candidate is good, the loop can only give up. *)
Lemma joint_loop_none_good f joiner l r :
  0 <= l ->
  (forall c, 0 <= c -> occurs_at s joiner c = true -> ~ good islower s joiner l r c) ->
  forall n i d res d',
    wf d -> i = -1 \/ (0 <= i /\ occurs_at s joiner i = true) ->
    Project.joint_loop (Project.X islower f) n s joiner l r i d
      = Ret (res, d') ->
    res = None.
Proof.
  intros Hl Hbad. induction n as [|n IH]; intros i d res d' W Hi H;
    [discriminate|].
  rewrite joint_loop_S in H.
  destruct (Z.eqb_spec i (-1)) as [->|Hne].
  { unfold ret in H. congruence. }
  destruct Hi as [Hi|[Hi Ho]]; [contradiction|].
  apply bind_Ret in H. destruct H as (x & d1 & Hx & H).
  apply bind_Ret in H. destruct H as (y & d2 & Hy & H).
  pose proof (X_keeps_wf islower _ _ _ _ _ _ _ W Hx) as W1.
  pose proof (X_keeps_wf islower _ _ _ _ _ _ _ W1 Hy) as W2.
  assert (Project.joint_loop (Project.X islower f) n s joiner l r
            (rfind s joiner l (i - 1)) d2 = Ret (res, d') -> res = None)
    as Hnext.
  { apply IH; [exact W2|].
    destruct (rfind_occurs s joiner l (i - 1) Hl) as [E|[E1 E2]];
      [left; exact E|right; split; [lia|exact E2]]. }
  destruct x as [a|]; [destruct y as [b|]|]; try (apply Hnext; exact H).
  exfalso. apply (Hbad i Hi Ho).
  exists f, f, d, d1, a, b, d1, d2. auto.
Qed.

(** The loop of [joint] on [s] and on [(s)], candidate by candidate.  The
    two part only after a failed candidate at index 0, where the retry on
    [s] starts over from the right end and the retry on [(s)] finds
    nothing; by then no candidate is good, so both give up. *)
Lemma joint_loop_in_parens f joiner l r :
  (forall l0 r0, 0 <= l0 -> r0 < len s ->
     follows (Project.X islower f s l0 r0)
             (Project.X islower f (in_parens s) (l0 + 1) (r0 + 1))) ->
  no_first_char islower joiner -> 0 <= l -> r < len s ->
  forall n i,
    i = -1 \/ (l <= i /\ i + len joiner <= r + 1 /\
               occurs_at s joiner i = true) ->
    none_good_above islower s joiner l r i ->
    follows
      (Project.joint_loop (Project.X islower f) n s joiner l r i)
      (Project.joint_loop (Project.X islower f) n (in_parens s) joiner
         (l + 1) (r + 1) (shifted i)).
Proof.
  intros HX Hj Hl Hr. pose proof (len_nonneg joiner) as Hlen.
  induction n as [|n IH]; intros i Hi Habove dA dB res dA' WA WB H;
    [discriminate|].
  rewrite joint_loop_S in H. rewrite joint_loop_S. unfold shifted.
  destruct (Z.eqb_spec i (-1)) as [->|Hne].
  { unfold ret in H. inversion H; subst. exists dB.
    split; [reflexivity|auto]. }
  destruct Hi as [Hi|(Hi1 & Hi2 & Ho)]; [contradiction|].
  destruct (Z.eqb_spec (i + 1) (-1)); [lia|].
  apply bind_Ret in H. destruct H as (x & d1 & Hx & H).
  apply bind_Ret in H. destruct H as (y & d2 & Hy & H).
  replace (i + 1 - 1) with (i - 1 + 1) by lia.
  replace (i + 1 + len joiner) with (i + len joiner + 1) by lia.
  destruct (HX l (i - 1) Hl ltac:(lia) _ _ _ _ WA WB Hx)
    as (dB1 & Ex & WA1 & WB1).
  destruct (HX (i + len joiner) r ltac:(lia) Hr _ _ _ _ WA1 WB1 Hy)
    as (dB2 & Ey & WA2 & WB2).
  rewrite (bind_of_Ret _ _ _ _ _ Ex), (bind_of_Ret _ _ _ _ _ Ey).
  assert (x = None \/ y = None ->
          Project.joint_loop (Project.X islower f) n s joiner l r
            (rfind s joiner l (i - 1)) d2 = Ret (res, dA') ->
          exists dB',
            Project.joint_loop (Project.X islower f) n (in_parens s) joiner
              (l + 1) (r + 1) (rfind (in_parens s) joiner (l + 1) (i - 1 + 1))
              dB2 = Ret (res, dB') /\ wf dA' /\ wf dB') as Hnext.
  { intros Hnone Hloop.
    pose proof (tried_not_good joiner l r i f dA x d1 y d2 WA Hx Hy Hnone)
      as Hbad.
    destruct (Z_le_gt_dec 1 i) as [Hpos|Hzero].
    - rewrite rfind_in_parens by lia.
      refine (IH (rfind s joiner l (i - 1)) _ _ d2 dB2 res dA' WA2 WB2 Hloop).
      + destruct (rfind_range s joiner l (i - 1) Hl ltac:(lia))
          as [E|(E1 & E2 & E3)]; [left; exact E|right].
        repeat split; try assumption; lia.
      + apply none_good_next; auto; lia.
    - assert (i = 0) by lia. subst i.
      assert (res = None) as ->.
      { refine (joint_loop_none_good f joiner l r Hl _ n _ d2 res dA' WA2 _
                  Hloop).
        - intros c Hc Hoc. destruct (Z.eq_dec c 0) as [->|Hc0];
            [exact Hbad|apply Habove; [lia|exact Hoc]].
        - destruct (rfind_occurs s joiner l (0 - 1) Hl) as [E|[E1 E2]];
            [left; exact E|right; split; [lia|exact E2]]. }
      change (0 - 1 + 1) with 0. rewrite rfind_empty_slice by exact Hl.
      destruct n as [|n]; [discriminate|].
      exists dB2. rewrite joint_loop_S. split; [reflexivity|].
      split; [|exact WB2].
      apply (joint_loop_preserved islower wf (var_keeps_wf islower)
               _ _ _ _ _ _ _ _ _ _ WA2 Hloop). }
  destruct x as [a|]; [destruct y as [b|]|]; try (apply Hnext; auto; fail).
  unfold ret in *. inversion H; subst. eauto.
Qed.

Lemma joint_in_parens f n joiner l r :
  (forall l0 r0, 0 <= l0 -> r0 < len s ->
     follows (Project.X islower f s l0 r0)
             (Project.X islower f (in_parens s) (l0 + 1) (r0 + 1))) ->
  no_first_char islower joiner -> 0 <= l <= r -> r < len s ->
  follows
    (Project.joint (Project.X islower f) n s joiner l r)
    (Project.joint (Project.X islower f) n (in_parens s) joiner
       (l + 1) (r + 1)).
Proof.
  intros HX Hj Hl Hr. unfold Project.joint.
  rewrite rfind_in_parens by lia.
  apply joint_loop_in_parens; auto; try lia.
  - destruct (rfind_range s joiner l (r + 1) ltac:(lia) ltac:(lia))
      as [E|(E1 & E2 & E3)]; [left; exact E|right].
    repeat split; try assumption; lia.
  - apply none_good_first; lia.
Qed.

Lemma var_in_parens l r :
  0 <= l <= r -> r < len s ->
  follows (Project.var islower s l r)
          (Project.var islower (in_parens s) (l + 1) (r + 1)).
Proof.
  intros Hl Hr. unfold Project.var.
  replace (r + 1 =? l + 1) with (r =? l)
    by (destruct (Z.eqb_spec r l), (Z.eqb_spec (r + 1) (l + 1));
        reflexivity || lia).
  destruct (negb (r =? l)); [apply follows_ret|].
  apply follows_bind; [apply follows_getitem_in_parens; lia|intros c].
  destruct (islower c).
  - intros dA dB a dA' WA WB H. rewrite var_lowercase_run in * by assumption.
    inversion H; subst. eexists. split; [reflexivity|].
    split; [destruct (contains c dA)|destruct (contains c dB)];
      try assumption; apply wf_setitem; assumption.
  - destruct (Ascii.eqb c "T"); [|destruct (Ascii.eqb c "F")];
      apply follows_ret.
Qed.

(** [X] on a span of [s] and on the same span inside [(s)]. *)
Lemma X_in_parens : forall f l r,
  0 <= l -> r < len s ->
  follows (Project.X islower f s l r)
          (Project.X islower f (in_parens s) (l + 1) (r + 1)).
Proof.
  induction f as [|f IH]; intros l r Hl Hr.
  { intros dA dB a dA' _ _ H. discriminate. }
  rewrite !X_S. unfold Project.X_body.
  replace (l + 1 >? r + 1) with (l >? r)
    by (destruct (Z.gtb_spec l r), (Z.gtb_spec (l + 1) (r + 1));
        reflexivity || lia).
  destruct (Z.gtb_spec l r) as [|Hlr]; [apply follows_ret|].
  destruct (no_first_char_tokens) as (Jiff & Jimp & Jor & Jand).
  assert (forall n joiner, no_first_char islower joiner ->
            follows
              (Project.joint (Project.X islower f) n s joiner l r)
              (Project.joint (Project.X islower f) n (in_parens s) joiner
                 (l + 1) (r + 1))) as Hjoint.
  { intros n joiner Hj. apply joint_in_parens; auto; lia. }
  apply follows_bind.
  { unfold Project.paren.
    apply follows_bind; [apply follows_getitem_in_parens; lia|intros cl].
    destruct (Ascii.eqb cl "("); [|apply follows_ret].
    apply follows_bind; [apply follows_getitem_in_parens; lia|intros cr].
    destruct (Ascii.eqb cr ")"); [|apply follows_ret].
    apply follows_bind; [|intros x; apply follows_ret].
    replace (r + 1 - 1) with (r - 1 + 1) by lia.
    apply IH; lia. }
  intros x0. destruct (Project.is_z3 x0); [apply follows_ret|].
  unfold Project.after_paren.
  apply follows_bind; [apply var_in_parens; lia|].
  intros x1. destruct (Project.is_z3 x1); [apply follows_ret|].
  apply follows_bind.
  { unfold Project.iff. apply follows_bind; [apply Hjoint, Jiff|].
    intros j. apply follows_ret. }
  intros x2. destruct (Project.is_z3 x2); [apply follows_ret|].
  apply follows_bind.
  { unfold Project.implies. apply follows_bind; [apply Hjoint, Jimp|].
    intros j. apply follows_ret. }
  intros x3. destruct (Project.is_z3 x3); [apply follows_ret|].
  apply follows_bind.
  { unfold Project.disj. apply follows_bind; [apply Hjoint, Jor|].
    intros j. apply follows_ret. }
  intros x4. destruct (Project.is_z3 x4); [apply follows_ret|].
  apply follows_bind.
  { unfold Project.conj. apply follows_bind; [apply Hjoint, Jand|].
    intros j. apply follows_ret. }
  intros x5. destruct (Project.is_z3 x5); [apply follows_ret|].
  apply follows_bind.
  { unfold Project.negate.
    apply follows_bind; [apply follows_getitem_in_parens; lia|intros cl].
    destruct (Ascii.eqb cl "~"); [|apply follows_ret].
    apply follows_bind; [|intros x; apply follows_ret].
    apply IH; lia. }
  intros x6. destruct (Project.is_z3 x6); apply follows_ret.
Qed.

End InParens.

Lemma ascii_islower_operator c :
  operator_char c = true -> ascii_islower c = false.
Proof.
  intros H. unfold operator_char in H.
  repeat (apply orb_true_iff in H; destruct H as [H|H]);
    apply Ascii.eqb_eq in H; subst c; reflexivity.
Qed.

(** C8: when a text parses to a tree, the text between parentheses parses
    to the same tree: [paren] hands back what [X] returns for the interior,
    and inside the parentheses [X] takes the decisions it takes on the text
    alone.  [islower] is false on the characters of the operator tokens, as
    [str.islower] is. *)
Theorem parenthesized_text_parses_to_same_tree
  (islower : ascii -> bool)
  (islower_operator : forall c, operator_char c = true -> islower c = false)
  (fuel : nat) (text : string) (e : Z3.expr) (VARS : dict)
  (Hparse : Project.get_z3_expr islower fuel text Project.VARS_init
              = Ret (Some e, VARS)) :
  exists VARS',
    Project.get_z3_expr islower (S fuel) ("(" ++ text ++ ")")
      Project.VARS_init = Ret (Some e, VARS')
    /\ Project.paren (Project.X islower fuel) (remove_spaces ("(" ++ text ++ ")"))
         0 (len (remove_spaces ("(" ++ text ++ ")")) - 1) Project.VARS_init
       = Ret (Some e, VARS').
Proof.
  unfold Project.get_z3_expr in *. rewrite remove_spaces_in_parens.
  set (s := remove_spaces text) in *.
  rewrite len_in_parens.
  pose proof (len_nonneg s) as Hlen.
  destruct (X_in_parens islower islower_operator s fuel 0 (len s - 1)
              ltac:(lia) ltac:(lia) _ _ _ _ wf_init wf_init Hparse)
    as (VARS' & E & _ & _).
  exists VARS'.
  assert (Project.paren (Project.X islower fuel) (in_parens s) 0
            (len s + 2 - 1) Project.VARS_init = Ret (Some e, VARS')) as Hp.
  { unfold Project.paren.
    rewrite (bind_of_Ret _ _ _ _ _ (getitem_open_paren s _)).
    change (Ascii.eqb "(" "(") with true. cbv iota.
    replace (len s + 2 - 1) with (len s + 1) by lia.
    rewrite (bind_of_Ret _ _ _ _ _ (getitem_close_paren s _)).
    change (Ascii.eqb ")" ")") with true. cbv iota.
    replace (len s + 1 - 1) with (len s - 1 + 1) by lia.
    rewrite (bind_of_Ret _ _ _ _ _ E). reflexivity. }
  split; [|exact Hp].
  rewrite X_S. unfold Project.X_body.
  destruct (Z.gtb_spec 0 (len s + 2 - 1)); [lia|].
  rewrite (bind_of_Ret _ _ _ _ _ Hp). reflexivity.
Qed.

Lemma parenthesized_text_parses_to_same_tree_witness :
  exists VARS',
    Project.get_z3_expr ascii_islower 4 "(a & b)" Project.VARS_init
      = Ret (Some a_and_b, VARS')
    /\ Project.paren (Project.X ascii_islower 3) (remove_spaces "(a & b)")
         0 (len (remove_spaces "(a & b)") - 1) Project.VARS_init
       = Ret (Some a_and_b, VARS').
Proof.
  apply (parenthesized_text_parses_to_same_tree ascii_islower
           ascii_islower_operator 3 "a & b" a_and_b ab_dict).
  vm_compute. reflexivity.
Defined.

(* ===================================================================== *)
(** * Further properties of the program *)
(* ===================================================================== *)

(** ** No [IndexError], no [KeyError] *)

Lemma no_raise_ret {A} (a : A) : no_raise (ret a).
Proof. intros d e. discriminate. Qed.

Lemma no_raise_bind {A B} (m : M A) (k : A -> M B) :
  no_raise m -> (forall a, no_raise (k a)) -> no_raise (bind m k).
Proof.
  intros Hm Hk d e. unfold bind.
  destruct (m d) as [[a d']|e'|] eqn:E; [apply Hk| |discriminate].
  exfalso. exact (Hm d e' E).
Qed.

Lemma no_raise_getitem s i : 0 <= i < len s -> no_raise (getitem s i).
Proof.
  intros Hi d e. destruct (getitem_in_range s i d Hi) as (c & _ & ->).
  discriminate.
Qed.

(** An index [rfind] answers leaves room for the token inside the string. *)
Lemma rfind_bounds s sub b e :
  0 <= b ->
  rfind s sub b e = -1 \/
  (b <= rfind s sub b e /\ rfind s sub b e + len sub <= len s /\
   occurs_at s sub (rfind s sub b e) = true).
Proof.
  intros Hb. unfold rfind, adjust_start.
  destruct (Z.ltb_spec b 0); [lia|].
  assert (adjust_end (len s) e <= len s) as He.
  { pose proof (len_nonneg s). unfold adjust_end.
    destruct (Z.gtb_spec e (len s)); [lia|].
    destruct (Z.ltb_spec e 0); lia. }
  destruct (rfind_scan_range s sub b
              (Z.to_nat (adjust_end (len s) e - len sub - b + 1)))
    as [H2|[H2 H3]]; [left; exact H2|right].
  repeat split; try exact H3; lia.
Qed.

(** [VARS[char]] is read after the key has been stored: no [KeyError]. *)
Lemma var_no_raise islower stmt l r :
  0 <= r < len stmt -> no_raise (Project.var islower stmt l r).
Proof.
  intros Hr. unfold Project.var.
  destruct (negb (r =? l)); [apply no_raise_ret|].
  apply no_raise_bind; [apply no_raise_getitem, Hr|intros c].
  destruct (islower c).
  - intros d e. unfold bind, Project.VARS_contains, Project.VARS_setitem,
      Project.VARS_getitem, ret, contains.
    destruct (lookup c d) as [v|] eqn:Hl.
    + rewrite Hl. discriminate.
    + rewrite lookup_setitem. discriminate.
  - destruct (Ascii.eqb c "T"); [|destruct (Ascii.eqb c "F")];
      apply no_raise_ret.
Qed.

Section NoRaise.

Variable islower : ascii -> bool.
Variable stmt : string.

Lemma joint_loop_no_raise f joiner l r :
  (forall l0 r0, 0 <= l0 -> r0 < len stmt ->
     no_raise (Project.X islower f stmt l0 r0)) ->
  0 <= l -> r < len stmt ->
  forall n i,
    i = -1 \/ (0 <= i /\ i + len joiner <= len stmt) ->
    no_raise (Project.joint_loop (Project.X islower f) n stmt joiner l r i).
Proof.
  intros HX Hl Hr. pose proof (len_nonneg joiner) as Hj.
  induction n as [|n IH]; intros i Hi; [intros d e; discriminate|].
  rewrite joint_loop_S.
  destruct (Z.eqb_spec i (-1)) as [->|Hne]; [apply no_raise_ret|].
  destruct Hi as [Hi|[Hi1 Hi2]]; [contradiction|].
  apply no_raise_bind; [apply HX; lia|intros x].
  apply no_raise_bind; [apply HX; lia|intros y].
  assert (no_raise (Project.joint_loop (Project.X islower f) n stmt joiner
                      l r (rfind stmt joiner l (i - 1)))) as Hnext.
  { apply IH.
    destruct (rfind_bounds stmt joiner l (i - 1) Hl) as [E|(E1 & E2 & _)];
      [left; exact E|right; lia]. }
  destruct x as [a|]; [destruct y as [b|]|]; try exact Hnext.
  apply no_raise_ret.
Qed.

Lemma joint_no_raise f n joiner l r :
  (forall l0 r0, 0 <= l0 -> r0 < len stmt ->
     no_raise (Project.X islower f stmt l0 r0)) ->
  0 <= l -> r < len stmt ->
  no_raise (Project.joint (Project.X islower f) n stmt joiner l r).
Proof.
  intros HX Hl Hr. unfold Project.joint.
  apply joint_loop_no_raise; auto.
  destruct (rfind_bounds stmt joiner l (r + 1) Hl) as [E|(E1 & E2 & _)];
    [left; exact E|right; lia].
Qed.

(** Every index [X] reads lies inside the statement. *)
Lemma X_no_raise : forall f l r,
  0 <= l -> r < len stmt -> no_raise (Project.X islower f stmt l r).
Proof.
  induction f as [|f IH]; intros l r Hl Hr; [intros d e; discriminate|].
  rewrite X_S. unfold Project.X_body.
  destruct (Z.gtb_spec l r) as [|Hlr]; [apply no_raise_ret|].
  assert (forall n joiner,
            no_raise (Project.joint (Project.X islower f) n stmt joiner l r))
    as Hjoint by (intros; apply joint_no_raise; auto).
  apply no_raise_bind.
  { unfold Project.paren.
    apply no_raise_bind; [apply no_raise_getitem; lia|intros cl].
    destruct (Ascii.eqb cl "("); [|apply no_raise_ret].
    apply no_raise_bind; [apply no_raise_getitem; lia|intros cr].
    destruct (Ascii.eqb cr ")"); [|apply no_raise_ret].
    apply no_raise_bind; [apply IH; lia|intros x; apply no_raise_ret]. }
  intros x0. destruct (Project.is_z3 x0); [apply no_raise_ret|].
  unfold Project.after_paren.
  apply no_raise_bind; [apply var_no_raise; lia|].
  intros x1. destruct (Project.is_z3 x1); [apply no_raise_ret|].
  apply no_raise_bind.
  { unfold Project.iff. apply no_raise_bind; [apply Hjoint|].
    intros j. apply no_raise_ret. }
  intros x2. destruct (Project.is_z3 x2); [apply no_raise_ret|].
  apply no_raise_bind.
  { unfold Project.implies. apply no_raise_bind; [apply Hjoint|].
    intros j. apply no_raise_ret. }
  intros x3. destruct (Project.is_z3 x3); [apply no_raise_ret|].
  apply no_raise_bind.
  { unfold Project.disj. apply no_raise_bind; [apply Hjoint|].
    intros j. apply no_raise_ret. }
  intros x4. destruct (Project.is_z3 x4); [apply no_raise_ret|].
  apply no_raise_bind.
  { unfold Project.conj. apply no_raise_bind; [apply Hjoint|].
    intros j. apply no_raise_ret. }
  intros x5. destruct (Project.is_z3 x5); [apply no_raise_ret|].
  apply no_raise_bind.
  { unfold Project.negate.
    apply no_raise_bind; [apply no_raise_getitem; lia|intros cl].
    destruct (Ascii.eqb cl "~"); [|apply no_raise_ret].
    apply no_raise_bind; [apply IH; lia|intros x; apply no_raise_ret]. }
  intros x6. destruct (Project.is_z3 x6); apply no_raise_ret.
Qed.

End NoRaise.

Lemma get_z3_expr_no_raise islower fuel text :
  no_raise (Project.get_z3_expr islower fuel text).
Proof. unfold Project.get_z3_expr. apply X_no_raise; lia. Qed.

Lemma main_no_raise islower fuel argv :
  no_raise (Project.main islower fuel argv).
Proof.
  unfold Project.main.
  destruct (List.length argv <? 2)%nat; [apply no_raise_ret|].
  destruct (2 <? List.length argv)%nat; [apply no_raise_ret|].
  apply no_raise_bind; [apply get_z3_expr_no_raise|].
  intros [e|]; [|apply no_raise_ret].
  apply no_raise_bind; [|intros out; apply no_raise_ret].
  intros d e0. discriminate.
Qed.

(** X1: the parser raises neither [IndexError] nor [KeyError], and the
    script does not end in either.  Every index read by [paren], [var] and
    [negate] lies inside the statement, for every text and every span [X]
    reaches, and [var] reads [VARS[char]] only once the key is stored; this
    holds from any dictionary and however far the run has got.  Nothing is
    said of [RecursionError], with which the interpreter stops a run whose
    calls nest deeper than its recursion limit. *)
Theorem parse_raises_no_index_or_key_error :
  forall islower fuel text argv d,
    (Project.get_z3_expr islower fuel text d <> Raise IndexError /\
     Project.get_z3_expr islower fuel text d <> Raise KeyError) /\
    (Project.main islower fuel argv d <> Raise IndexError /\
     Project.main islower fuel argv d <> Raise KeyError) /\
    (Project.script islower fuel argv <> Project.Uncaught IndexError /\
     Project.script islower fuel argv <> Project.Uncaught KeyError).
Proof.
  intros islower fuel text argv d.
  assert (forall e, Project.script islower fuel argv <> Project.Uncaught e)
    as Hscript.
  { intros e. unfold Project.script.
    destruct (Project.main islower fuel argv Project.VARS_init)
      as [[[out rc] d']|e'|] eqn:E; try discriminate.
    exfalso. exact (main_no_raise islower fuel argv _ _ E). }
  split; [split; apply get_z3_expr_no_raise|].
  split; [split; apply main_no_raise|].
  split; apply Hscript.
Qed.

(** ** Nesting and loops away from a leading operator *)

Lemma finishes_ret {A} (a : A) : finishes (ret a).
Proof. intros d. discriminate. Qed.

Lemma finishes_bind {A B} (m : M A) (k : A -> M B) :
  finishes m -> (forall a, finishes (k a)) -> finishes (bind m k).
Proof.
  intros Hm Hk d. unfold bind.
  destruct (m d) as [[a d']|e'|] eqn:E; [apply Hk|discriminate|].
  exfalso. exact (Hm d E).
Qed.

Lemma finishes_getitem s i : finishes (getitem s i).
Proof.
  intros d. unfold getitem.
  destruct ((0 <=? _) && _); [|discriminate].
  destruct (String.get _ s); discriminate.
Qed.

Lemma var_finishes islower stmt l r : finishes (Project.var islower stmt l r).
Proof.
  unfold Project.var.
  destruct (negb (r =? l)); [apply finishes_ret|].
  apply finishes_bind; [apply finishes_getitem|intros c].
  destruct (islower c).
  - intros d. unfold bind, Project.VARS_contains, Project.VARS_setitem,
      Project.VARS_getitem, ret, contains.
    destruct (lookup c d) as [v|] eqn:Hl.
    + rewrite Hl. discriminate.
    + rewrite lookup_setitem. discriminate.
  - destruct (Ascii.eqb c "T"); [|destruct (Ascii.eqb c "F")];
      apply finishes_ret.
Qed.

Lemma token_len joiner : In joiner tokens -> 1 <= len joiner.
Proof.
  intros [<-|[<-|[<-|[<-|[]]]]]; vm_compute; discriminate.
Qed.

Lemma no_token_at_zero stmt joiner :
  starts_with_token stmt = false -> In joiner tokens ->
  occurs_at stmt joiner 0 = false.
Proof.
  intros H Hin. destruct (occurs_at stmt joiner 0) eqn:E; [|reflexivity].
  assert (starts_with_token stmt = true) as H'
    by (apply existsb_exists; exists joiner; auto).
  congruence.
Qed.

Section Termination.

Variable islower : ascii -> bool.
Variable stmt : string.
Hypothesis no_token_first : starts_with_token stmt = false.

(** The candidates of the loop go down: it is left after at most
    [i - l + 2] tests. *)
Lemma joint_loop_finishes f joiner l r :
  In joiner tokens ->
  (forall l0 r0, 0 <= l0 -> r0 < len stmt -> r0 - l0 < r - l ->
     finishes (Project.X islower f stmt l0 r0)) ->
  0 <= l -> r < len stmt ->
  forall n i,
    i = -1 \/ (l <= i /\ 1 <= i /\ i + len joiner <= r + 1) ->
    1 <= Z.of_nat n -> i - l + 2 <= Z.of_nat n ->
    finishes (Project.joint_loop (Project.X islower f) n stmt joiner l r i).
Proof.
  intros Hin HX Hl Hr. pose proof (token_len joiner Hin) as Hj.
  induction n as [|n IH]; intros i Hi Hn1 Hn2; [lia|].
  rewrite joint_loop_S.
  destruct (Z.eqb_spec i (-1)) as [->|Hne]; [apply finishes_ret|].
  destruct Hi as [Hi|(Hi1 & Hi2 & Hi3)]; [contradiction|].
  apply finishes_bind; [apply HX; lia|intros x].
  apply finishes_bind; [apply HX; lia|intros y].
  assert (finishes (Project.joint_loop (Project.X islower f) n stmt joiner
                      l r (rfind stmt joiner l (i - 1)))) as Hnext.
  { destruct (rfind_range stmt joiner l (i - 1) Hl ltac:(lia))
      as [E|(E1 & E2 & E3)].
    - rewrite E. apply IH; [left; reflexivity|lia|lia].
    - assert (rfind stmt joiner l (i - 1) <> 0) as E0.
      { intros E0. rewrite E0 in E3.
        rewrite (no_token_at_zero stmt joiner no_token_first Hin) in E3.
        discriminate. }
      apply IH; [right; lia|lia|lia]. }
  destruct x as [a|]; [destruct y as [b|]|]; try exact Hnext.
  apply finishes_ret.
Qed.

Lemma joint_finishes f n joiner l r :
  In joiner tokens ->
  (forall l0 r0, 0 <= l0 -> r0 < len stmt -> r0 - l0 < r - l ->
     finishes (Project.X islower f stmt l0 r0)) ->
  0 <= l <= r -> r < len stmt -> r - l + 2 <= Z.of_nat n ->
  finishes (Project.joint (Project.X islower f) n stmt joiner l r).
Proof.
  intros Hin HX Hl Hr Hn. pose proof (token_len joiner Hin) as Hj.
  unfold Project.joint.
  destruct (rfind_range stmt joiner l (r + 1) ltac:(lia) ltac:(lia))
    as [E|(E1 & E2 & E3)].
  - rewrite E. apply joint_loop_finishes; auto; lia.
  - assert (rfind stmt joiner l (r + 1) <> 0) as E0.
    { intros E0. rewrite E0 in E3.
      rewrite (no_token_at_zero stmt joiner no_token_first Hin) in E3.
      discriminate. }
    apply joint_loop_finishes; auto; try lia; right; lia.
Qed.

(** [X] comes back with [width l r + 2] units of fuel. *)
Lemma X_finishes : forall f l r,
  0 <= l -> r < len stmt -> (width l r + 2 <= f)%nat ->
  finishes (Project.X islower f stmt l r).
Proof.
  unfold width.
  induction f as [|f IH]; intros l r Hl Hr Hf; [lia|].
  rewrite X_S. unfold Project.X_body.
  destruct (Z.gtb_spec l r) as [|Hlr]; [apply finishes_ret|].
  assert (forall l0 r0, 0 <= l0 -> r0 < len stmt -> r0 - l0 < r - l ->
            finishes (Project.X islower f stmt l0 r0)) as HX
    by (intros; apply IH; lia).
  assert (forall joiner, In joiner tokens ->
            finishes (Project.joint (Project.X islower f) f stmt joiner l r))
    as Hjoint by (intros; apply joint_finishes; auto; lia).
  apply finishes_bind.
  { unfold Project.paren.
    apply finishes_bind; [apply finishes_getitem|intros cl].
    destruct (Ascii.eqb cl "("); [|apply finishes_ret].
    apply finishes_bind; [apply finishes_getitem|intros cr].
    destruct (Ascii.eqb cr ")"); [|apply finishes_ret].
    apply finishes_bind; [apply HX; lia|intros x; apply finishes_ret]. }
  intros x0. destruct (Project.is_z3 x0); [apply finishes_ret|].
  unfold Project.after_paren.
  apply finishes_bind; [apply var_finishes|].
  intros x1. destruct (Project.is_z3 x1); [apply finishes_ret|].
  apply finishes_bind.
  { unfold Project.iff. apply finishes_bind;
      [apply Hjoint; cbn; auto|intros j; apply finishes_ret]. }
  intros x2. destruct (Project.is_z3 x2); [apply finishes_ret|].
  apply finishes_bind.
  { unfold Project.implies. apply finishes_bind;
      [apply Hjoint; cbn; auto|intros j; apply finishes_ret]. }
  intros x3. destruct (Project.is_z3 x3); [apply finishes_ret|].
  apply finishes_bind.
  { unfold Project.disj. apply finishes_bind;
      [apply Hjoint; cbn; auto|intros j; apply finishes_ret]. }
  intros x4. destruct (Project.is_z3 x4); [apply finishes_ret|].
  apply finishes_bind.
  { unfold Project.conj. apply finishes_bind;
      [apply Hjoint; cbn; auto 6|intros j; apply finishes_ret]. }
  intros x5. destruct (Project.is_z3 x5); [apply finishes_ret|].
  apply finishes_bind.
  { unfold Project.negate.
    apply finishes_bind; [apply finishes_getitem|intros cl].
    destruct (Ascii.eqb cl "~"); [|apply finishes_ret].
    apply finishes_bind; [apply HX; lia|intros x; apply finishes_ret]. }
  intros x6. destruct (Project.is_z3 x6); apply finishes_ret.
Qed.

End Termination.

Lemma returns_of_finishes {A} (m : M A) d :
  finishes m -> no_raise m -> exists a d', m d = Ret (a, d').
Proof.
  intros Hf Hn. destruct (m d) as [[a d']|e|] eqn:E; [eauto| |].
  - exfalso. exact (Hn d e E).
  - exfalso. exact (Hf d E).
Qed.

(** X2: a statement at whose index 0 no operator token stands is parsed
    within a nesting of its length plus 2.  The fuel of [X] is the depth to
    which its calls may nest, and one more than the number of tests each
    loop of [joint] may make: given the length of the statement plus 2,
    [get_z3_expr] returns a tree or [False], from any dictionary.  The loop
    of [joint] cannot stay where it is: no candidate [rfind] gives it is 0,
    and the candidate of a retry lies strictly below the one before.
    Whether the interpreter allows the nesting a statement needs is its
    recursion limit, of which nothing is said: beyond it CPython ends the
    run with [RecursionError]. *)
Theorem parse_nests_within_length_without_leading_token
  (islower : ascii -> bool) (fuel : nat) (text : string) (d : dict)
  (Hfirst : starts_with_token (remove_spaces text) = false)
  (Hfuel : (String.length (remove_spaces text) + 2 <= fuel)%nat) :
  (exists x d', Project.get_z3_expr islower fuel text d = Ret (x, d')) /\
  (forall joiner l e, In joiner tokens -> 0 <= l ->
     rfind (remove_spaces text) joiner l e <> 0) /\
  (forall joiner l i, In joiner tokens -> 0 <= l ->
     1 <= i <= len (remove_spaces text) ->
     rfind (remove_spaces text) joiner l (i - 1) < i).
Proof.
  split; [|split].
  - apply returns_of_finishes; [|apply get_z3_expr_no_raise].
    unfold Project.get_z3_expr.
    apply X_finishes; [exact Hfirst|lia|lia|].
    unfold width, len. lia.
  - intros joiner l e Hin Hl E.
    destruct (rfind_occurs (remove_spaces text) joiner l e Hl)
      as [E1|[_ Ho]]; [lia|].
    rewrite E, (no_token_at_zero _ _ Hfirst Hin) in Ho. discriminate.
  - intros joiner l i Hin Hl Hi.
    pose proof (token_len joiner Hin) as Hj.
    destruct (rfind_range (remove_spaces text) joiner l (i - 1) Hl
                ltac:(lia)) as [E|(_ & E & _)]; lia.
Qed.

Lemma parse_nests_within_length_without_leading_token_witness :
  (exists x d', Project.get_z3_expr ascii_islower 7 "a & ~b" Project.VARS_init
                = Ret (x, d')) /\
  (forall joiner l e, In joiner tokens -> 0 <= l ->
     rfind (remove_spaces "a & ~b") joiner l e <> 0) /\
  (forall joiner l i, In joiner tokens -> 0 <= l ->
     1 <= i <= len (remove_spaces "a & ~b") ->
     rfind (remove_spaces "a & ~b") joiner l (i - 1) < i).
Proof.
  apply (parse_nests_within_length_without_leading_token ascii_islower 7
           "a & ~b" Project.VARS_init).
  - reflexivity.
  - vm_compute. lia.
Defined.

(** ** What a run does to the dictionary *)

Section Changes.

Variable islower : ascii -> bool.
Variable stmt : string.
Variable R : dict -> dict -> Prop.
Hypothesis R_refl : forall d, R d d.
Hypothesis R_trans : forall d1 d2 d3, R d1 d2 -> R d2 d3 -> R d1 d3.
Hypothesis R_var : forall l r, changes R (Project.var islower stmt l r).

Lemma changes_ret {A} (a : A) : changes R (ret a).
Proof. intros d a' d' H. unfold ret in H. inversion H; subst. apply R_refl. Qed.

Lemma changes_bind {A B} (m : M A) (k : A -> M B) :
  changes R m -> (forall a, changes R (k a)) -> changes R (bind m k).
Proof.
  intros Hm Hk d b d' H. apply bind_Ret in H.
  destruct H as (a & d1 & H1 & H2).
  exact (R_trans _ _ _ (Hm _ _ _ H1) (Hk a _ _ _ H2)).
Qed.

Lemma changes_getitem s i : changes R (getitem s i).
Proof.
  intros d c d' H. destruct (getitem_state _ _ _ _ _ H) as [-> _].
  apply R_refl.
Qed.

Lemma joint_loop_changes f joiner l r :
  (forall l0 r0, changes R (Project.X islower f stmt l0 r0)) ->
  forall n i,
    changes R (Project.joint_loop (Project.X islower f) n stmt joiner l r i).
Proof.
  intros HX. induction n as [|n IH]; intros i; [intros d a d' H; discriminate|].
  rewrite joint_loop_S. destruct (i =? -1); [apply changes_ret|].
  apply changes_bind; [apply HX|intros x].
  apply changes_bind; [apply HX|intros y].
  destruct x as [a|]; [destruct y as [b|]|]; try apply IH.
  apply changes_ret.
Qed.

(** What [var] does to the dictionary, step after step, is all [X] does
    to it. *)
Lemma X_changes : forall f l r, changes R (Project.X islower f stmt l r).
Proof.
  induction f as [|f IH]; intros l r; [intros d a d' H; discriminate|].
  rewrite X_S. unfold Project.X_body.
  destruct (l >? r); [apply changes_ret|].
  assert (forall n joiner,
            changes R (Project.joint (Project.X islower f) n stmt joiner l r))
    as Hjoint by (intros; apply joint_loop_changes; exact IH).
  apply changes_bind.
  { unfold Project.paren.
    apply changes_bind; [apply changes_getitem|intros cl].
    destruct (Ascii.eqb cl "("); [|apply changes_ret].
    apply changes_bind; [apply changes_getitem|intros cr].
    destruct (Ascii.eqb cr ")"); [|apply changes_ret].
    apply changes_bind; [apply IH|intros x; apply changes_ret]. }
  intros x0. destruct (Project.is_z3 x0); [apply changes_ret|].
  unfold Project.after_paren.
  apply changes_bind; [apply R_var|].
  intros x1. destruct (Project.is_z3 x1); [apply changes_ret|].
  apply changes_bind.
  { unfold Project.iff. apply changes_bind;
      [apply Hjoint|intros j; apply changes_ret]. }
  intros x2. destruct (Project.is_z3 x2); [apply changes_ret|].
  apply changes_bind.
  { unfold Project.implies. apply changes_bind;
      [apply Hjoint|intros j; apply changes_ret]. }
  intros x3. destruct (Project.is_z3 x3); [apply changes_ret|].
  apply changes_bind.
  { unfold Project.disj. apply changes_bind;
      [apply Hjoint|intros j; apply changes_ret]. }
  intros x4. destruct (Project.is_z3 x4); [apply changes_ret|].
  apply changes_bind.
  { unfold Project.conj. apply changes_bind;
      [apply Hjoint|intros j; apply changes_ret]. }
  intros x5. destruct (Project.is_z3 x5); [apply changes_ret|].
  apply changes_bind.
  { unfold Project.negate.
    apply changes_bind; [apply changes_getitem|intros cl].
    destruct (Ascii.eqb cl "~"); [|apply changes_ret].
    apply changes_bind; [apply IH|intros x; apply changes_ret]. }
  intros x6. destruct (Project.is_z3 x6); apply changes_ret.
Qed.

End Changes.

Lemma lookup_app c d1 d2 :
  lookup c (d1 ++ d2)
  = match lookup c d1 with Some v => Some v | None => lookup c d2 end.
Proof.
  induction d1 as [|[k w] d1 IH]; cbn; [reflexivity|].
  destruct (Ascii.eqb c k); [reflexivity|exact IH].
Qed.

Lemma getitem_get s i (d : dict) c d' :
  getitem s i d = Ret (c, d') -> exists p, String.get p s = Some c.
Proof.
  unfold getitem. destruct ((0 <=? _) && _); [|discriminate].
  destruct (String.get _ s) as [c0|] eqn:E; [|discriminate].
  unfold ret. intros H. inversion H; subst. eauto.
Qed.

Lemma registered_refl islower stmt d : registered islower stmt d d.
Proof.
  exists []. split; [symmetry; apply app_nil_r|intros c v []].
Qed.

Lemma registered_trans islower stmt d1 d2 d3 :
  registered islower stmt d1 d2 -> registered islower stmt d2 d3 ->
  registered islower stmt d1 d3.
Proof.
  intros (n1 & -> & H1) (n2 & -> & H2). exists (n1 ++ n2).
  split; [symmetry; apply app_assoc|].
  intros c v Hin. apply in_app_or in Hin. destruct Hin as [Hin|Hin].
  - apply H1, Hin.
  - destruct (H2 c v Hin) as (Hv & Hc & Hl & Hp).
    repeat split; auto.
    rewrite lookup_app in Hl. destruct (lookup c d1); [discriminate|].
    reflexivity.
Qed.

Lemma var_registered islower stmt l r :
  changes (registered islower stmt) (Project.var islower stmt l r).
Proof.
  intros d x d' H. apply var_Ret in H.
  destruct H as [[_ ->]|[(b & _ & ->)|(c & v & Hg & _ & Hc & _ & _ & ->)]];
    try apply registered_refl.
  unfold contains. destruct (lookup c d) eqn:E; [apply registered_refl|].
  exists [(c, Z3.Bool c)]. split; [apply setitem_absent, E|].
  intros c0 v0 [[= <- <-]|[]].
  repeat split; auto. exact (getitem_get _ _ _ _ _ Hg).
Qed.

(** X3: whatever [get_z3_expr] returns, tree or [False], the dictionary
    it leaves is the one it found followed by new entries: no entry is
    removed, moved or overwritten, and each new key is a lowercase
    character of the statement, absent before, stored with the constant of
    its name.  Names registered by a split that failed stay. *)
Theorem parse_only_appends_to_registry
  (islower : ascii -> bool) (fuel : nat) (text : string)
  (d d' : dict) (x : option Z3.expr)
  (Hrun : Project.get_z3_expr islower fuel text d = Ret (x, d')) :
  registered islower (remove_spaces text) d d' /\
  (forall c v, lookup c d = Some v -> lookup c d' = Some v).
Proof.
  assert (registered islower (remove_spaces text) d d') as Hreg.
  { unfold Project.get_z3_expr in Hrun.
    exact (X_changes islower (remove_spaces text) _
             (registered_refl islower _) (registered_trans islower _)
             (var_registered islower _) _ _ _ _ _ _ Hrun). }
  split; [exact Hreg|].
  destruct Hreg as (new & -> & _). intros c v Hl.
  rewrite lookup_app, Hl. reflexivity.
Qed.

Lemma parse_only_appends_to_registry_witness :
  registered ascii_islower (remove_spaces a_or_b_text)
    [("z"%char, Z3.Bool "z")]
    [("z"%char, Z3.Bool "z"); ("a"%char, Z3.Bool "a")] /\
  (forall c v, lookup c [("z"%char, Z3.Bool "z")] = Some v ->
     lookup c [("z"%char, Z3.Bool "z"); ("a"%char, Z3.Bool "a")] = Some v).
Proof.
  apply (parse_only_appends_to_registry ascii_islower 3 a_or_b_text
           [("z"%char, Z3.Bool "z")]
           [("z"%char, Z3.Bool "z"); ("a"%char, Z3.Bool "a")] None).
  vm_compute. reflexivity.
Defined.

(** ** [var] and the dictionary *)

(** X4: on a lowercase character [var] returns the handle stored under
    that character, storing the constant of that name first when the key is
    missing (at the end of the dictionary) and leaving the dictionary alone
    when it is present; a second call returns the same handle and changes
    nothing. *)
Theorem var_registers_once
  (islower : ascii -> bool) (stmt : string) (r : Z) (d : dict) (c : ascii)
  (Hchar : getitem stmt r d = Ret (c, d))
  (Hlower : islower c = true) :
  exists h d',
    Project.var islower stmt r r d = Ret (Some h, d') /\
    lookup c d' = Some h /\
    (lookup c d = None -> h = Z3.Bool c /\ d' = d ++ [(c, Z3.Bool c)]) /\
    (forall v, lookup c d = Some v -> h = v /\ d' = d) /\
    Project.var islower stmt r r d' = Ret (Some h, d').
Proof.
  assert (forall V, Project.var islower stmt r r V
            = match lookup c V with
              | Some v => Ret (Some v, V)
              | None => Ret (Some (Z3.Bool c), setitem V c (Z3.Bool c))
              end) as Hvar.
  { intros V. unfold Project.var. rewrite Z.eqb_refl. cbn [negb].
    rewrite (bind_of_Ret _ _ _ _ _
               (proj2 (getitem_state _ _ _ _ _ Hchar) V)), Hlower.
    unfold bind, Project.VARS_contains, Project.VARS_setitem,
      Project.VARS_getitem, ret, contains.
    destruct (lookup c V) as [v|] eqn:Hl.
    - rewrite Hl. reflexivity.
    - rewrite lookup_setitem. reflexivity. }
  destruct (lookup c d) as [v|] eqn:Hl.
  - exists v, d. rewrite Hvar, Hl.
    split; [reflexivity|]. split; [reflexivity|].
    split; [discriminate|]. split; [|reflexivity].
    intros v0 E. inversion E; subst. split; reflexivity.
  - exists (Z3.Bool c), (setitem d c (Z3.Bool c)).
    rewrite !Hvar, Hl, lookup_setitem.
    split; [reflexivity|]. split; [reflexivity|].
    split; [|split; [discriminate|reflexivity]].
    intros _. split; [reflexivity|apply setitem_absent, Hl].
Qed.

Lemma var_registers_once_witness :
  exists h d',
    Project.var ascii_islower "a&b" 2 2 [("a"%char, Z3.Bool "a")]
      = Ret (Some h, d') /\
    lookup "b" d' = Some h /\
    (lookup "b" [("a"%char, Z3.Bool "a")] = None ->
       h = Z3.Bool "b" /\
       d' = [("a"%char, Z3.Bool "a")] ++ [("b"%char, Z3.Bool "b")]) /\
    (forall v, lookup "b" [("a"%char, Z3.Bool "a")] = Some v ->
       h = v /\ d' = [("a"%char, Z3.Bool "a")]) /\
    Project.var ascii_islower "a&b" 2 2 d' = Ret (Some h, d').
Proof.
  apply (var_registers_once ascii_islower "a&b" 2
           [("a"%char, Z3.Bool "a")] "b"); reflexivity.
Defined.

(** ** Every tree returned is a reading of the span by the grammar *)

Lemma getitem_char_at s i (d : dict) c d' :
  0 <= i -> getitem s i d = Ret (c, d') -> char_at s i c.
Proof.
  intros Hi. unfold getitem, char_at.
  destruct (Z.ltb_spec i 0) as [Hneg|_]; [lia|].
  destruct ((0 <=? i) && (i <? len s)); [|discriminate].
  destruct (String.get (Z.to_nat i) s) as [c0|] eqn:E; [|discriminate].
  unfold ret. intros Hret. inversion Hret; subst. auto.
Qed.

(** What [var] answers with, character by character. *)
Lemma var_Some_inv islower stmt l r d e d' :
  wf d -> Project.var islower stmt l r d = Ret (Some e, d') ->
  r = l /\
  exists c, getitem stmt l d = Ret (c, d) /\
    ((islower c = true /\ e = Z3.Bool c) \/
     (islower c = false /\ c = "T"%char /\ e = Z3.BoolVal true) \/
     (islower c = false /\ c = "F"%char /\ e = Z3.BoolVal false)).
Proof.
  unfold Project.var. intros W H.
  destruct (Z.eqb_spec r l) as [->|Hne]; [|discriminate]. cbn [negb] in H.
  split; [reflexivity|].
  apply bind_Ret in H. destruct H as (c & d0 & Hg & H).
  destruct (getitem_state _ _ _ _ _ Hg) as [E Hg']. subst d0.
  exists c. split; [exact Hg|].
  destruct (islower c) eqn:Hc.
  - rewrite var_lowercase_run in H by exact W. inversion H; subst. auto.
  - destruct (Ascii.eqb_spec c "T"%char) as [->|_].
    { inversion H; subst. auto. }
    destruct (Ascii.eqb_spec c "F"%char) as [->|_]; [|discriminate].
    inversion H; subst. auto 6.
Qed.

Section Derives.

Variable islower : ascii -> bool.
Variable stmt : string.

(** The pair the loop returns comes from one occurrence of the token, at
    or after [l]. *)
Lemma joint_loop_Some_occurrence f joiner l r :
  0 <= l ->
  forall n i d a b d',
    wf d ->
    Project.joint_loop (Project.X islower f) n stmt joiner l r i d
      = Ret (Some (a, b), d') ->
    i = -1 \/ (l <= i /\ occurs_at stmt joiner i = true) ->
    exists c d1 d2,
      l <= c /\ occurs_at stmt joiner c = true /\ wf d1 /\ wf d2 /\
      Project.X islower f stmt l (c - 1) d1 = Ret (Some a, d2) /\
      Project.X islower f stmt (c + len joiner) r d2 = Ret (Some b, d').
Proof.
  intros Hl. induction n as [|n IH]; intros i d a b d' W H Hi; [discriminate|].
  rewrite joint_loop_S in H.
  destruct (Z.eqb_spec i (-1)) as [->|Hne]; [discriminate|].
  destruct Hi as [Hi|[Hi Ho]]; [contradiction|].
  apply bind_Ret in H. destruct H as (x & d1 & Hx & H).
  apply bind_Ret in H. destruct H as (y & d2 & Hy & H).
  pose proof (X_keeps_wf islower _ _ _ _ _ _ _ W Hx) as W1.
  pose proof (X_keeps_wf islower _ _ _ _ _ _ _ W1 Hy) as W2.
  assert (rfind stmt joiner l (i - 1) = -1 \/
          (l <= rfind stmt joiner l (i - 1) /\
           occurs_at stmt joiner (rfind stmt joiner l (i - 1)) = true))
    as Hnext by (apply rfind_occurs; exact Hl).
  destruct x as [a0|]; [destruct y as [b0|]|].
  - inversion H; subst. exists i, d, d1. auto 8.
  - exact (IH _ _ _ _ _ W2 H Hnext).
  - exact (IH _ _ _ _ _ W2 H Hnext).
Qed.

Lemma X_derives : forall f l r d e d',
  0 <= l -> wf d ->
  Project.X islower f stmt l r d = Ret (Some e, d') ->
  derives islower stmt l r e.
Proof.
  induction f as [|f IH]; intros l r d e d' Hl W H; [discriminate|].
  rewrite X_S in H. unfold Project.X_body in H.
  destruct (Z.gtb_spec l r) as [|Hlr]; [discriminate|].
  assert (forall n joiner d0 a b d1,
            wf d0 ->
            Project.joint (Project.X islower f) n stmt joiner l r d0
              = Ret (Some (a, b), d1) ->
            exists i, l <= i /\ occurs_at stmt joiner i = true /\
              derives islower stmt l (i - 1) a /\
              derives islower stmt (i + len joiner) r b) as Hjoint.
  { intros n joiner d0 a b d1 W0 Hj. unfold Project.joint in Hj.
    destruct (joint_loop_Some_occurrence f joiner l r Hl n _ d0 a b d1 W0 Hj
                (rfind_occurs stmt joiner l (r + 1) Hl))
      as (c & d2 & d3 & Hc & Ho & W2 & W3 & Ha & Hb).
    assert (0 <= c + len joiner) as Hc'
      by (pose proof (len_nonneg joiner); lia).
    exists c. repeat split; auto.
    - exact (IH _ _ _ _ _ Hl W2 Ha).
    - exact (IH _ _ _ _ _ Hc' W3 Hb). }
  (* paren *)
  apply bind_Ret in H. destruct H as ([x|] & d1 & Hp & H); cbn in H.
  { inversion H; subst. apply paren_Some in Hp.
    destruct Hp as (Hgl & Hgr & HX).
    apply derives_paren.
    - exact (getitem_char_at _ _ _ _ _ Hl Hgl).
    - apply (getitem_char_at _ _ _ _ _ (Z.le_trans _ _ _ Hl Hlr) Hgr).
    - apply (IH (l + 1) (r - 1) d e d'); [lia|exact W|exact HX]. }
  assert (wf d1) as W1
    by (eapply (paren_preserved islower wf (var_keeps_wf islower)); eauto).
  clear Hp. unfold Project.after_paren in H.
  (* var *)
  apply bind_Ret in H. destruct H as ([x|] & d2 & Hv & H); cbn in H.
  { inversion H; subst.
    destruct (var_Some_inv _ _ _ _ _ _ _ W1 Hv) as (-> & c & Hg & Hc).
    pose proof (getitem_char_at _ _ _ _ _ Hl Hg) as Hat.
    destruct Hc as [[Hc ->]|[(Hc & -> & ->)|(Hc & -> & ->)]].
    - apply derives_var with (c := c); assumption.
    - apply derives_T; assumption.
    - apply derives_F; assumption. }
  assert (wf d2) as W2 by (eapply var_keeps_wf; eauto). clear Hv.
  (* iff *)
  apply bind_Ret in H. destruct H as (x & d3 & Hr & H).
  unfold Project.iff in Hr. apply bind_Ret in Hr.
  destruct Hr as (j & d3' & Hj & Hr). inversion Hr; subst d3' x; clear Hr.
  assert (wf d3) as W3
    by (eapply (joint_loop_preserved islower wf (var_keeps_wf islower));
        eauto).
  destruct j as [[a b]|]; cbn in H.
  { inversion H; subst.
    destruct (Hjoint _ _ _ _ _ _ W2 Hj) as (i & Hi & Ho & Da & Db).
    exact (derives_joint islower stmt _ _ _ _ _ _ _
             (builds_iff a b) Hi Ho Da Db). }
  clear Hj W2.
  (* implies *)
  apply bind_Ret in H. destruct H as (x & d4 & Hr & H).
  unfold Project.implies in Hr. apply bind_Ret in Hr.
  destruct Hr as (j & d4' & Hj & Hr). inversion Hr; subst d4' x; clear Hr.
  assert (wf d4) as W4
    by (eapply (joint_loop_preserved islower wf (var_keeps_wf islower));
        eauto).
  destruct j as [[a b]|]; cbn in H.
  { inversion H; subst.
    destruct (Hjoint _ _ _ _ _ _ W3 Hj) as (i & Hi & Ho & Da & Db).
    exact (derives_joint islower stmt _ _ _ _ _ _ _
             (builds_implies a b) Hi Ho Da Db). }
  clear Hj W3.
  (* disj *)
  apply bind_Ret in H. destruct H as (x & d5 & Hr & H).
  unfold Project.disj in Hr. apply bind_Ret in Hr.
  destruct Hr as (j & d5' & Hj & Hr). inversion Hr; subst d5' x; clear Hr.
  assert (wf d5) as W5
    by (eapply (joint_loop_preserved islower wf (var_keeps_wf islower));
        eauto).
  destruct j as [[a b]|]; cbn in H.
  { inversion H; subst.
    destruct (Hjoint _ _ _ _ _ _ W4 Hj) as (i & Hi & Ho & Da & Db).
    exact (derives_joint islower stmt _ _ _ _ _ _ _
             (builds_disj a b) Hi Ho Da Db). }
  clear Hj W4.
  (* conj *)
  apply bind_Ret in H. destruct H as (x & d6 & Hr & H).
  unfold Project.conj in Hr. apply bind_Ret in Hr.
  destruct Hr as (j & d6' & Hj & Hr). inversion Hr; subst d6' x; clear Hr.
  assert (wf d6) as W6
    by (eapply (joint_loop_preserved islower wf (var_keeps_wf islower));
        eauto).
  destruct j as [[a b]|]; cbn in H.
  { inversion H; subst.
    destruct (Hjoint _ _ _ _ _ _ W5 Hj) as (i & Hi & Ho & Da & Db).
    exact (derives_joint islower stmt _ _ _ _ _ _ _
             (builds_conj a b) Hi Ho Da Db). }
  clear Hj W5.
  (* negate *)
  apply bind_Ret in H. destruct H as ([x|] & d7 & Hn & H); cbn in H;
    [|discriminate].
  inversion H; subst. apply negate_Some in Hn.
  destruct Hn as (Hgl & a & HX & ->).
  apply derives_negate.
  - exact (getitem_char_at _ _ _ _ _ Hl Hgl).
  - apply (IH (l + 1) r d6 a d'); [lia|exact W6|exact HX].
Qed.

End Derives.

(** X5: a tree returned by [get_z3_expr] reads the whole statement by the
    grammar written at the head of the module: it is built from the
    characters of the statement, from index 0 to the last, by the rules
    [X = (X)], [X = v], [X = T], [X = F], [X = X<->X], [X = X->X],
    [X = X|X], [X = X&X] and [X = ~X], each operator node standing on an
    occurrence of its token. *)
Theorem parsed_tree_follows_grammar
  (islower : ascii -> bool) (fuel : nat) (text : string)
  (d d' : dict) (e : Z3.expr)
  (Hwf : wf d)
  (Hparse : Project.get_z3_expr islower fuel text d = Ret (Some e, d')) :
  derives islower (remove_spaces text) 0 (len (remove_spaces text) - 1) e.
Proof.
  unfold Project.get_z3_expr in Hparse.
  exact (X_derives islower _ _ _ _ _ _ _ (Z.le_refl 0) Hwf Hparse).
Qed.

Lemma parsed_tree_follows_grammar_witness :
  derives ascii_islower (remove_spaces "a -> b") 0
    (len (remove_spaces "a -> b") - 1) a_implies_b.
Proof.
  apply (parsed_tree_follows_grammar ascii_islower 3 "a -> b"
           Project.VARS_init ab_dict a_implies_b).
  - exact wf_init.
  - vm_compute. reflexivity.
Defined.

(** ** The columns of the table *)

Lemma builds_token joiner a b e k c :
  builds joiner a b e -> String.get k joiner = Some c ->
  operator_char c = true.
Proof.
  intros Hb Hk. destruct Hb;
    repeat (destruct k as [|k]; cbn in Hk; try discriminate);
    inversion Hk; subst c; reflexivity.
Qed.

Lemma builds_consts joiner a b e c :
  builds joiner a b e -> In c (Z3.consts a) \/ In c (Z3.consts b) ->
  In c (Z3.consts e).
Proof.
  intros Hb Hin. destruct Hb; cbn; rewrite ?app_nil_r, ?in_app_iff; tauto.
Qed.

Section Covers.

Variable islower : ascii -> bool.
Hypothesis islower_symbol : forall c, symbol_char c = true -> islower c = false.
Variable stmt : string.

(** Every lowercase character of a span read by the grammar is a constant
    of the tree. *)
Lemma derives_covers l r e :
  derives islower stmt l r e -> 0 <= l ->
  forall p c, l <= p <= r -> String.get (Z.to_nat p) stmt = Some c ->
    islower c = true -> In c (Z3.consts e).
Proof.
  induction 1 as [l r e [_ Hl] [_ Hr] _ IH
                 |l c [_ Hc] Hlow
                 |l [_ Hc] Hlow
                 |l [_ Hc] Hlow
                 |joiner l r i a b e Hb Hli Ho _ IHa _ IHb
                 |l r a [_ Hc] _ IH];
    intros H0 p ch Hp Hg Hch.
  - destruct (Z.eq_dec p l) as [->|Hpl].
    { rewrite Hl in Hg. inversion Hg; subst ch.
      rewrite islower_symbol in Hch by reflexivity. discriminate. }
    destruct (Z.eq_dec p r) as [->|Hpr].
    { rewrite Hr in Hg. inversion Hg; subst ch.
      rewrite islower_symbol in Hch by reflexivity. discriminate. }
    apply (IH ltac:(lia) p ch); auto; lia.
  - assert (p = l) by lia. subst p. rewrite Hc in Hg.
    inversion Hg; subst. left. reflexivity.
  - assert (p = l) by lia. subst p. rewrite Hc in Hg.
    inversion Hg; subst. congruence.
  - assert (p = l) by lia. subst p. rewrite Hc in Hg.
    inversion Hg; subst. congruence.
  - apply (builds_consts _ _ _ _ _ Hb).
    destruct (Z_lt_ge_dec p i) as [Hlt|Hge].
    { left. apply (IHa H0 p ch); auto; lia. }
    destruct (Z_lt_ge_dec p (i + len joiner)) as [Hin|Hout].
    { exfalso.
      destruct (get_in_range joiner (Z.to_nat (p - i))) as [c' Hc'];
        [unfold len in Hin; lia|].
      pose proof (occurs_at_get stmt joiner i _ c' ltac:(lia) Ho Hc') as Hs.
      replace (i + Z.of_nat (Z.to_nat (p - i))) with p in Hs by lia.
      rewrite Hs in Hg. inversion Hg; subst ch.
      rewrite islower_symbol in Hch; [discriminate|].
      unfold symbol_char. rewrite (builds_token _ _ _ _ _ _ Hb Hc').
      reflexivity. }
    right. pose proof (len_nonneg joiner).
    apply (IHb ltac:(lia) p ch); auto; lia.
  - destruct (Z.eq_dec p l) as [->|Hpl].
    { rewrite Hc in Hg. inversion Hg; subst ch.
      rewrite islower_symbol in Hch by reflexivity. discriminate. }
    apply (IH ltac:(lia) p ch); auto; lia.
Qed.

End Covers.

Lemma ascii_islower_symbol c :
  symbol_char c = true -> ascii_islower c = false.
Proof.
  intros H. unfold symbol_char, operator_char in H.
  repeat (apply orb_true_iff in H; destruct H as [H|H]);
    apply Ascii.eqb_eq in H; subst c; reflexivity.
Qed.

Lemma keys_sorted_items c d :
  In c (keys (sorted_items d)) <-> In c (keys d).
Proof.
  unfold keys. pose proof (sorted_items_perm d) as Hp.
  split; intros H.
  - eapply Permutation_in; [|exact H]. apply Permutation_map, Hp.
  - eapply Permutation_in; [|exact H].
    apply Permutation_map, Permutation_sym, Hp.
Qed.

(** X6: the table of a parsed formula has one column for each variable
    of the tree and no other: the keys of [sorted(VARS.items())] are the
    constants of the tree, each once, in increasing order of code point.
    A name registered while a split was tried and given up is a name of
    the final tree as well.  ([islower] is false on the characters of the
    operator tokens, on the parentheses and on [~], as [str.islower]
    is.) *)
Theorem table_columns_are_the_variables
  (islower : ascii -> bool)
  (islower_symbol : forall c, symbol_char c = true -> islower c = false)
  (fuel : nat) (text : string) (e : Z3.expr) (VARS : dict)
  (Hparse : Project.get_z3_expr islower fuel text Project.VARS_init
              = Ret (Some e, VARS)) :
  (forall c, In c (map fst (sorted_items VARS)) <-> In c (Z3.consts e)) /\
  NoDup (map fst (sorted_items VARS)) /\
  Sorted key_le (sorted_items VARS) /\
  (forall c, In c (map fst (sorted_items VARS)) -> islower c = true).
Proof.
  destruct (parsed_dict _ _ _ _ _ Hparse) as (W & Hnd & Hk & _).
  destruct (sorted_items_wf VARS W Hnd) as (_ & Hnd' & _).
  assert (forall c, In c (keys VARS) ->
            islower c = true /\ In c (Z3.consts e)) as Hkeys.
  { unfold Project.get_z3_expr in Hparse.
    pose proof (X_changes islower (remove_spaces text) _
                  (registered_refl islower _) (registered_trans islower _)
                  (var_registered islower _) _ _ _ _ _ _ Hparse)
      as (new & -> & Hnew).
    pose proof (X_derives islower _ _ _ _ _ _ _ (Z.le_refl 0) wf_init Hparse)
      as Hd.
    intros c Hc. unfold keys in Hc. apply in_map_iff in Hc.
    destruct Hc as ([c0 v] & Hc0 & Hin). cbn in Hc0. subst c0.
    destruct (Hnew c v Hin) as (_ & Hlow & _ & p & Hp).
    split; [exact Hlow|].
    pose proof (get_Some_lt _ _ _ Hp) as Hlt.
    apply (derives_covers islower islower_symbol _ _ _ _ Hd (Z.le_refl 0)
             (Z.of_nat p) c).
    - unfold len. lia.
    - rewrite Nat2Z.id. exact Hp.
    - exact Hlow. }
  split; [|split; [exact Hnd'|split; [apply sorted_items_sorted|]]].
  - intros c. change (map fst (sorted_items VARS)) with (keys (sorted_items VARS)).
    rewrite keys_sorted_items. split; [apply Hkeys|apply Hk].
  - intros c Hc. change (map fst (sorted_items VARS))
      with (keys (sorted_items VARS)) in Hc.
    rewrite keys_sorted_items in Hc. apply Hkeys, Hc.
Qed.

Lemma table_columns_are_the_variables_witness :
  (forall c, In c (map fst (sorted_items ab_dict_ba))
             <-> In c (Z3.consts b_and_a_or_b)) /\
  NoDup (map fst (sorted_items ab_dict_ba)) /\
  Sorted key_le (sorted_items ab_dict_ba) /\
  (forall c, In c (map fst (sorted_items ab_dict_ba)) ->
     ascii_islower c = true).
Proof.
  apply (table_columns_are_the_variables ascii_islower ascii_islower_symbol
           5 "b & (a | b)" b_and_a_or_b ab_dict_ba).
  vm_compute. reflexivity.
Defined.

(** ** The layout of the table *)

Lemma bool_chr_cell b : Project.bool_chr b = cell (bool_char b).
Proof. destruct b; reflexivity. Qed.

Lemma length_repeat_char c n : String.length (repeat_char c n) = n.
Proof. induction n as [|n IH]; cbn; [reflexivity|rewrite IH; reflexivity]. Qed.

Lemma join_cells_cons c c2 cs :
  join " | " (map cell (c :: c2 :: cs))
  = String c (" | " ++ join " | " (map cell (c2 :: cs)))%string.
Proof. reflexivity. Qed.

(** One-character cells joined by [" | "]: 4 characters a cell, less the
    last separator. *)
Lemma length_join_cells : forall cs,
  String.length (join " | " (map cell cs)) = (4 * List.length cs - 3)%nat.
Proof.
  induction cs as [|c [|c2 cs] IH]; [reflexivity|reflexivity|].
  rewrite join_cells_cons. cbn [String.length append].
  rewrite IH. cbn [List.length]. lia.
Qed.

(** Cell [vi] starts at index [4 * vi]. *)
Lemma get_join_cells dflt rest : forall cs vi,
  (vi < List.length cs)%nat ->
  String.get (4 * vi) (join " | " (map cell cs) ++ rest)
  = Some (nth vi cs dflt).
Proof.
  induction cs as [|c [|c2 cs] IH]; intros vi Hvi; cbn [List.length] in Hvi.
  - lia.
  - assert (vi = O) by lia. subst vi. reflexivity.
  - rewrite join_cells_cons. destruct vi as [|vi]; [reflexivity|].
    replace (4 * S vi)%nat with (S (S (S (S (4 * vi))))) by lia.
    cbn [append String.get nth].
    apply IH. cbn [List.length]. lia.
Qed.

Lemma nth_range m i : (i < m)%nat -> nth i (Project.range m) 0 = Z.of_nat i.
Proof.
  intros Hi. unfold Project.range.
  rewrite (nth_map_lt _ 0%nat) by (rewrite length_seq; exact Hi).
  rewrite seq_nth by exact Hi. reflexivity.
Qed.

Lemma length_rows expr d :
  List.length (Project.rows expr d) = (2 ^ List.length d)%nat.
Proof.
  unfold Project.rows, Project.range.
  rewrite !length_map, length_seq, sorted_items_length. reflexivity.
Qed.

Lemma nth_rows expr d i :
  (i < 2 ^ List.length d)%nat ->
  nth i (map Project.render (Project.rows expr d)) ""%string
  = (join " | "
       (map cell
          (map bool_char
             (Project.boolval (List.length d) (Z.of_nat i))))
     ++ " | "
     ++ cell (bool_char
                (Project.final (Z3.add Z3.new_solver expr) (sorted_items d)
                   (Z.of_nat i))))%string.
Proof.
  intros Hi.
  rewrite (nth_map_lt _ ([], false)) by (rewrite length_rows; exact Hi).
  unfold Project.rows. rewrite sorted_items_length.
  rewrite (nth_map_lt _ 0)
    by (unfold Project.range; rewrite length_map, length_seq; exact Hi).
  rewrite nth_range by exact Hi.
  unfold Project.render. cbn [fst snd].
  rewrite bool_chr_cell.
  replace (map Project.bool_chr
             (Project.boolval (List.length d) (Z.of_nat i)))
    with (map cell (map bool_char
                      (Project.boolval (List.length d) (Z.of_nat i))));
    [reflexivity|].
  rewrite map_map. apply map_ext. intros b. symmetry. apply bool_chr_cell.
Qed.

(** X7: [test] prints the header, a line of [=] as long as the header,
    and one line for each of the [2^n] rows, and leaves [VARS] as it is.
    The columns line up: column [vi] stands at index [4 * vi] of the
    header (the name) and of every row (its [T] or [F]), and the value of
    the formula is the last character of a row, under the first character
    of the formula in the header. *)
Theorem table_is_aligned :
  forall (expr : Z3.expr) (exprstr : string) (d : dict),
  exists top rule body,
    Project.test expr exprstr d = Ret (top :: rule :: body, d) /\
    List.length body = (2 ^ List.length d)%nat /\
    rule = repeat_char "=" (String.length top) /\
    String.length rule = String.length top /\
    (forall vi, (vi < List.length d)%nat ->
       String.get (4 * vi) top
       = Some (fst (nth vi (sorted_items d) Project.no_entry))) /\
    (forall i vi, (i < 2 ^ List.length d)%nat -> (vi < List.length d)%nat ->
       String.get (4 * vi) (nth i body ""%string)
       = Some (bool_char
                 (Project.istrue (List.length d) vi (Z.of_nat i)))) /\
    (forall i, (i < 2 ^ List.length d)%nat ->
       (String.length (nth i body ""%string) + String.length exprstr
        = String.length top + 1)%nat /\
       String.get (String.length top - String.length exprstr)
         (nth i body ""%string)
       = Some (bool_char
                 (Project.final (Z3.add Z3.new_solver expr) (sorted_items d)
                    (Z.of_nat i)))).
Proof.
  intros expr exprstr d.
  set (names := map fst (sorted_items d)).
  assert (List.length names = List.length d) as Hnames
    by (unfold names; rewrite length_map; apply sorted_items_length).
  assert (map (fun kv : ascii * Z3.expr => String (fst kv) "") (sorted_items d)
          = map cell names) as Hcells
    by (unfold names; rewrite map_map; reflexivity).
  exists (join " | " (map cell names) ++ " | " ++ exprstr)%string.
  eexists. exists (map Project.render (Project.rows expr d)).
  split.
  { unfold Project.test, Project.VARS_items, bind, ret.
    rewrite Hcells. reflexivity. }
  split; [rewrite length_map; apply length_rows|].
  split; [reflexivity|]. split; [apply length_repeat_char|].
  assert (String.length (join " | " (map cell names) ++ " | " ++ exprstr)
          = (4 * List.length d - 3 + 3 + String.length exprstr)%nat) as Htop.
  { rewrite length_app_string, length_join_cells, Hnames. cbn. lia. }
  split; [|split].
  - intros vi Hvi.
    rewrite (get_join_cells zero) by (rewrite Hnames; exact Hvi).
    unfold names.
    rewrite (nth_map_lt _ Project.no_entry)
      by (rewrite sorted_items_length; exact Hvi).
    reflexivity.
  - intros i vi Hi Hvi. rewrite nth_rows by exact Hi.
    assert (List.length (Project.boolval (List.length d) (Z.of_nat i))
            = List.length d) as Hlen
      by (unfold Project.boolval; rewrite length_map, length_seq; reflexivity).
    rewrite (get_join_cells zero)
      by (rewrite length_map, Hlen; exact Hvi).
    rewrite (nth_map_lt _ false) by (rewrite Hlen; exact Hvi).
    unfold Project.boolval.
    rewrite (nth_map_lt _ 0%nat) by (rewrite length_seq; exact Hvi).
    rewrite seq_nth by exact Hvi. reflexivity.
  - intros i Hi. rewrite nth_rows by exact Hi. rewrite Htop.
    set (cells := map cell (map bool_char
                   (Project.boolval (List.length d) (Z.of_nat i)))).
    assert (String.length (join " | " cells)
            = (4 * List.length d - 3)%nat) as Hjoin.
    { unfold cells. rewrite length_join_cells, length_map.
      unfold Project.boolval. rewrite length_map, length_seq. reflexivity. }
    split.
    + rewrite length_app_string, Hjoin. cbn. lia.
    + replace (4 * List.length d - 3 + 3 + String.length exprstr
               - String.length exprstr)%nat
        with (3 + String.length (join " | " cells))%nat by lia.
      rewrite <- append_correct2. reflexivity.
Qed.

(** ** [main]: what is printed and what is returned *)

(** X8: whenever [main] returns, it returns 0 or 1.  It returns 0 only
    for a single argument that parsed, after the table of [2 + 2^n] lines;
    it returns 1 after exactly one line, either without having called the
    parser (no argument, or more than one: [VARS] is untouched) or because
    the parser returned [False]. *)
Theorem main_return_value
  (islower : ascii -> bool) (fuel : nat) (argv : list string)
  (d d' : dict) (out : list string) (rc : Z)
  (Hrun : Project.main islower fuel argv d = Ret ((out, rc), d')) :
  (rc = 0 /\ List.length argv = 2%nat /\
   (exists e, Project.get_z3_expr islower fuel (nth 1 argv ""%string) d
              = Ret (Some e, d')) /\
   List.length out = (2 + 2 ^ List.length d')%nat)
  \/
  (rc = 1 /\ List.length out = 1%nat /\
   (List.length argv <> 2%nat -> d' = d) /\
   (List.length argv = 2%nat ->
    Project.get_z3_expr islower fuel (nth 1 argv ""%string) d
    = Ret (None, d'))).
Proof.
  unfold Project.main in Hrun.
  destruct (Nat.ltb_spec (List.length argv) 2) as [Hlt|Hge].
  { unfold ret in Hrun. inversion Hrun; subst. right.
    repeat split; auto; lia. }
  destruct (Nat.ltb_spec 2 (List.length argv)) as [Hgt|Hle].
  { unfold ret in Hrun. inversion Hrun; subst. right.
    repeat split; auto; lia. }
  assert (List.length argv = 2%nat) as Hlen by lia.
  apply bind_Ret in Hrun. destruct Hrun as ([e|] & d1 & Hg & H).
  - left. unfold Project.test, Project.VARS_items, bind, ret in H.
    inversion H; subst. repeat split; eauto.
    cbn [List.length]. rewrite length_map, length_rows. reflexivity.
  - right. unfold ret in H. inversion H; subst.
    repeat split; auto. intros Hne. contradiction.
Qed.

Lemma main_return_value_witness :
  (0 = 0 /\ List.length [prog; "a|b"%string] = 2%nat /\
   (exists e, Project.get_z3_expr ascii_islower 3
                (nth 1 [prog; "a|b"%string] ""%string) Project.VARS_init
              = Ret (Some e, ab_dict)) /\
   List.length ["a | b | a|b"; "==========="; "F | F | F"; "F | T | T";
                "T | F | T"; "T | T | T"]%string
   = (2 + 2 ^ List.length ab_dict)%nat)
  \/
  (0 = 1 /\
   List.length ["a | b | a|b"; "==========="; "F | F | F"; "F | T | T";
                "T | F | T"; "T | T | T"]%string = 1%nat /\
   (List.length [prog; "a|b"%string] <> 2%nat ->
    ab_dict = Project.VARS_init) /\
   (List.length [prog; "a|b"%string] = 2%nat ->
    Project.get_z3_expr ascii_islower 3
      (nth 1 [prog; "a|b"%string] ""%string) Project.VARS_init
    = Ret (None, ab_dict))).
Proof.
  apply (main_return_value ascii_islower 3 [prog; "a|b"%string]
           Project.VARS_init ab_dict).
  vm_compute. reflexivity.
Defined.

(** ** Spaces and blank arguments *)

Lemma remove_spaces_skips_space t1 t2 :
  remove_spaces (t1 ++ " " ++ t2) = remove_spaces (t1 ++ t2).
Proof. rewrite !remove_spaces_app. reflexivity. Qed.

(** X9: a space put anywhere in the argument changes nothing of the
    parse: the same tree or failure and the same dictionary.  Of the
    printed lines only the header, which repeats the argument as typed,
    and its underline change; the rows are the same. *)
Theorem space_changes_the_header_only :
  forall (islower : ascii -> bool) (fuel : nat) (t1 t2 : string) (d : dict),
    Project.get_z3_expr islower fuel (t1 ++ " " ++ t2) d
    = Project.get_z3_expr islower fuel (t1 ++ t2) d /\
    forall out1 out2 s1 s2,
      Project.script islower fuel [prog; (t1 ++ " " ++ t2)%string]
        = Project.Exited out1 s1 ->
      Project.script islower fuel [prog; (t1 ++ t2)%string]
        = Project.Exited out2 s2 ->
      skipn 2 out1 = skipn 2 out2 /\ List.length out1 = List.length out2.
Proof.
  intros islower fuel t1 t2 d.
  assert (forall V, Project.get_z3_expr islower fuel (t1 ++ " " ++ t2) V
                    = Project.get_z3_expr islower fuel (t1 ++ t2) V) as Heq.
  { intros V. unfold Project.get_z3_expr.
    rewrite remove_spaces_skips_space. reflexivity. }
  split; [apply Heq|].
  intros out1 out2 s1 s2. unfold Project.script, Project.main.
  cbn [List.length Nat.ltb Nat.leb nth]. unfold bind. rewrite Heq.
  destruct (Project.get_z3_expr islower fuel (t1 ++ t2) Project.VARS_init)
    as [[[e|] d']| |]; try discriminate.
  - unfold Project.test, Project.VARS_items, ret.
    intros H1 H2. inversion H1; inversion H2; subst.
    split; reflexivity.
  - unfold ret. intros H1 H2. inversion H1; inversion H2; subst.
    split; reflexivity.
Qed.

Lemma remove_spaces_blank n : remove_spaces (repeat_char " " n) = ""%string.
Proof. induction n as [|n IH]; [reflexivity|exact IH]. Qed.

(** X10: an empty argument, or one made of spaces only, is a parse
    error: [X] is entered with [l = 0 > r = -1] and answers [False]
    before any character is read; [main] prints the error line, returns 1
    and leaves [VARS] as it was. *)
Theorem blank_argument_is_a_parse_error :
  forall (islower : ascii -> bool) (fuel n : nat) (d : dict),
    Project.get_z3_expr islower (S fuel) (repeat_char " " n) d
      = Ret (None, d) /\
    Project.main islower (S fuel) [prog; repeat_char " " n] d
      = Ret ((["Error parsing the supplied argument"%string], 1), d) /\
    Project.script islower (S fuel) [prog; repeat_char " " n]
      = Project.Exited ["Error parsing the supplied argument"%string] 0.
Proof.
  intros islower fuel n d.
  assert (forall V, Project.get_z3_expr islower (S fuel) (repeat_char " " n) V
                    = Ret (None, V)) as Hnone.
  { intros V. unfold Project.get_z3_expr. rewrite remove_spaces_blank.
    apply X_empty_span. reflexivity. }
  assert (forall V, Project.main islower (S fuel) [prog; repeat_char " " n] V
                    = Ret ((["Error parsing the supplied argument"%string], 1),
                           V)) as Hmain.
  { intros V. unfold Project.main. cbn [List.length Nat.ltb Nat.leb nth].
    rewrite (bind_of_Ret _ _ _ _ _ (Hnone V)). reflexivity. }
  split; [apply Hnone|]. split; [apply Hmain|].
  unfold Project.script. rewrite Hmain. reflexivity.
Qed.

(** ** The tree and the dictionary found *)

(** X11: what [get_z3_expr] returns does not depend on the names the
    dictionary already holds: from any two dictionaries in which every
    key is bound to the constant of its name, the same text gives the same
    tree or the same failure, and the dictionaries left are of that kind
    again. *)
Theorem tree_does_not_depend_on_registry
  (islower : ascii -> bool) (fuel : nat) (text : string)
  (d1 d2 d1' : dict) (x : option Z3.expr)
  (Hwf1 : wf d1) (Hwf2 : wf d2)
  (Hrun : Project.get_z3_expr islower fuel text d1 = Ret (x, d1')) :
  wf d1' /\
  exists d2', Project.get_z3_expr islower fuel text d2 = Ret (x, d2')
              /\ wf d2'.
Proof.
  unfold Project.get_z3_expr in *. split.
  - exact (X_keeps_wf islower _ _ _ _ _ _ _ Hwf1 Hrun).
  - exact (X_state_indep islower _ _ _ _ _ _ _ _ Hwf1 Hwf2 Hrun).
Qed.

Lemma tree_does_not_depend_on_registry_witness :
  wf ab_dict /\
  exists d2', Project.get_z3_expr ascii_islower 3 "a->b" ab_dict_ba
              = Ret (Some a_implies_b, d2') /\ wf d2'.
Proof.
  apply (tree_does_not_depend_on_registry ascii_islower 3 "a->b"
           Project.VARS_init ab_dict_ba ab_dict (Some a_implies_b)).
  - exact wf_init.
  - intros c v. cbn [lookup ab_dict_ba].
    destruct (Ascii.eqb_spec c "b") as [->|_]; [intros [= <-]; reflexivity|].
    destruct (Ascii.eqb_spec c "a") as [->|_]; [intros [= <-]; reflexivity|].
    discriminate.
  - vm_compute. reflexivity.
Defined.

(** ** Parentheses of a parsed statement *)

Lemma paren_depth_step : forall s k c,
  String.get k s = Some c ->
  paren_depth s (S k) = paren_depth s k + paren_delta c.
Proof.
  induction s as [|a s IH]; intros k c H; [discriminate|].
  destruct k as [|k].
  - cbn in H. inversion H; subst. cbn [paren_depth]. lia.
  - cbn [String.get] in H. specialize (IH k c H).
    change (paren_depth (String a s) (S (S k)))
      with (paren_delta a + paren_depth s (S k)).
    change (paren_depth (String a s) (S k))
      with (paren_delta a + paren_depth s k).
    lia.
Qed.

Lemma paren_depth_step_Z s p c :
  char_at s p c ->
  paren_depth s (Z.to_nat (p + 1))
  = paren_depth s (Z.to_nat p) + paren_delta c.
Proof.
  intros [Hp Hg]. replace (Z.to_nat (p + 1)) with (S (Z.to_nat p)) by lia.
  apply paren_depth_step, Hg.
Qed.

Lemma operator_char_delta c : operator_char c = true -> paren_delta c = 0.
Proof.
  intros H. unfold operator_char in H.
  repeat (apply orb_true_iff in H; destruct H as [H|H]);
    apply Ascii.eqb_eq in H; subst c; reflexivity.
Qed.

(** Across an occurrence of a token the depth stays what it is. *)
Lemma paren_depth_token s joiner a b e i :
  builds joiner a b e -> 0 <= i -> occurs_at s joiner i = true ->
  forall k, (k <= String.length joiner)%nat ->
    paren_depth s (Z.to_nat i + k) = paren_depth s (Z.to_nat i).
Proof.
  intros Hb Hi Ho. induction k as [|k IH]; intros Hk.
  - rewrite Nat.add_0_r. reflexivity.
  - destruct (get_in_range joiner k) as [c Hc]; [lia|].
    pose proof (occurs_at_get s joiner i k c Hi Ho Hc) as Hs.
    replace (Z.to_nat (i + Z.of_nat k)) with (Z.to_nat i + k)%nat in Hs
      by lia.
    rewrite Nat.add_succ_r, (paren_depth_step _ _ _ Hs), IH by lia.
    rewrite (operator_char_delta c (builds_token _ _ _ _ _ _ Hb Hc)). lia.
Qed.

Section Balanced.

Variable islower : ascii -> bool.
Hypothesis islower_symbol : forall c, symbol_char c = true -> islower c = false.
Variable stmt : string.

Lemma lowercase_delta c : islower c = true -> paren_delta c = 0.
Proof.
  intros H. unfold paren_delta.
  destruct (Ascii.eqb_spec c "("%char) as [->|_].
  { rewrite islower_symbol in H by reflexivity. discriminate. }
  destruct (Ascii.eqb_spec c ")"%char) as [->|_]; [|reflexivity].
  rewrite islower_symbol in H by reflexivity. discriminate.
Qed.

(** A span read by the grammar is not empty, closes every parenthesis it
    opens and never closes one it did not open. *)
Lemma derives_balanced l r e :
  derives islower stmt l r e -> 0 <= l ->
  l <= r /\
  paren_depth stmt (Z.to_nat (r + 1)) = paren_depth stmt (Z.to_nat l) /\
  forall k, l <= k <= r + 1 ->
    paren_depth stmt (Z.to_nat l) <= paren_depth stmt (Z.to_nat k).
Proof.
  induction 1 as [l r e Hl Hr _ IH
                 |l c Hc Hlow
                 |l Hc Hlow
                 |l Hc Hlow
                 |joiner l r i a b e Hb Hli Ho _ IHa _ IHb
                 |l r a Hc _ IH];
    intros H0.
  - destruct (IH ltac:(lia)) as (Hspan & Hend & Hmin).
    pose proof (paren_depth_step_Z _ _ _ Hl) as El.
    pose proof (paren_depth_step_Z _ _ _ Hr) as Er.
    change (paren_delta "(") with 1 in El.
    change (paren_delta ")") with (-1) in Er.
    replace (r - 1 + 1) with r in * by lia.
    split; [lia|]. split; [lia|].
    intros k Hk.
    destruct (Z.eq_dec k l) as [->|Hkl]; [lia|].
    destruct (Z.eq_dec k (r + 1)) as [->|Hkr]; [lia|].
    specialize (Hmin k ltac:(lia)). lia.
  - pose proof (paren_depth_step_Z _ _ _ Hc) as E.
    rewrite (lowercase_delta c Hlow) in E.
    split; [lia|]. split; [lia|].
    intros k Hk. assert (k = l \/ k = l + 1) as [->| ->] by lia; lia.
  - pose proof (paren_depth_step_Z _ _ _ Hc) as E.
    change (paren_delta "T") with 0 in E.
    split; [lia|]. split; [lia|].
    intros k Hk. assert (k = l \/ k = l + 1) as [->| ->] by lia; lia.
  - pose proof (paren_depth_step_Z _ _ _ Hc) as E.
    change (paren_delta "F") with 0 in E.
    split; [lia|]. split; [lia|].
    intros k Hk. assert (k = l \/ k = l + 1) as [->| ->] by lia; lia.
  - pose proof (len_nonneg joiner) as Hj.
    destruct (IHa H0) as (Sa & Ea & Ma).
    destruct (IHb ltac:(lia)) as (Sb & Eb & Mb).
    replace (i - 1 + 1) with i in * by lia.
    assert (forall k, i <= k <= i + len joiner ->
              paren_depth stmt (Z.to_nat k) = paren_depth stmt (Z.to_nat i))
      as Htok.
    { intros k Hk.
      replace (Z.to_nat k) with (Z.to_nat i + Z.to_nat (k - i))%nat by lia.
      apply (paren_depth_token stmt joiner a b e i Hb); auto; try lia.
      unfold len in Hk. lia. }
    pose proof (Htok (i + len joiner) ltac:(lia)) as Etok.
    split; [lia|]. split; [lia|].
    intros k Hk.
    destruct (Z_le_gt_dec k i) as [Hki|Hki]; [apply Ma; lia|].
    destruct (Z_le_gt_dec k (i + len joiner)) as [Hkj|Hkj].
    { rewrite (Htok k ltac:(lia)). lia. }
    specialize (Mb k ltac:(lia)). lia.
  - destruct (IH ltac:(lia)) as (Hspan & Hend & Hmin).
    pose proof (paren_depth_step_Z _ _ _ Hc) as E.
    change (paren_delta "~") with 0 in E.
    split; [lia|]. split; [lia|].
    intros k Hk.
    destruct (Z.eq_dec k l) as [->|Hkl]; [lia|].
    specialize (Hmin k ltac:(lia)). lia.
Qed.

End Balanced.

(** X12: a statement that [get_z3_expr] accepts has balanced, properly
    nested parentheses: as many [(] as [)], and no prefix with more [)]
    than [(].  It is not empty.  ([islower] is false on the characters of
    the operator tokens, on the parentheses and on [~], as [str.islower]
    is.) *)
Theorem accepted_statement_is_balanced
  (islower : ascii -> bool)
  (islower_symbol : forall c, symbol_char c = true -> islower c = false)
  (fuel : nat) (text : string) (d d' : dict) (e : Z3.expr)
  (Hwf : wf d)
  (Hparse : Project.get_z3_expr islower fuel text d = Ret (Some e, d')) :
  (0 < String.length (remove_spaces text))%nat /\
  paren_depth (remove_spaces text) (String.length (remove_spaces text)) = 0 /\
  forall k, (k <= String.length (remove_spaces text))%nat ->
    0 <= paren_depth (remove_spaces text) k.
Proof.
  pose proof (parsed_grammar := X_derives islower (remove_spaces text)).
  unfold Project.get_z3_expr in Hparse.
  pose proof (parsed_grammar _ _ _ _ _ _ (Z.le_refl 0) Hwf Hparse) as Hd.
  destruct (derives_balanced islower islower_symbol _ _ _ _ Hd (Z.le_refl 0))
    as (Hspan & Hend & Hmin).
  unfold len in *.
  replace (Z.to_nat (Z.of_nat (String.length (remove_spaces text)) - 1 + 1))
    with (String.length (remove_spaces text)) in Hend by lia.
  change (Z.to_nat 0) with O in *.
  assert (paren_depth (remove_spaces text) 0 = 0) as E0 by reflexivity.
  split; [lia|]. split; [lia|].
  intros k Hk. specialize (Hmin (Z.of_nat k) ltac:(lia)).
  rewrite Nat2Z.id in Hmin. lia.
Qed.

Lemma accepted_statement_is_balanced_witness :
  (0 < String.length (remove_spaces "b & (a | b)"))%nat /\
  paren_depth (remove_spaces "b & (a | b)")
    (String.length (remove_spaces "b & (a | b)")) = 0 /\
  forall k, (k <= String.length (remove_spaces "b & (a | b)"))%nat ->
    0 <= paren_depth (remove_spaces "b & (a | b)") k.
Proof.
  apply (accepted_statement_is_balanced ascii_islower ascii_islower_symbol
           5 "b & (a | b)" Project.VARS_init ab_dict_ba b_and_a_or_b).
  - exact wf_init.
  - vm_compute. reflexivity.
Defined.

(** ** Which split [joint] returns *)

Lemma token_no_first_char islower joiner :
  (forall c, operator_char c = true -> islower c = false) ->
  In joiner tokens -> no_first_char islower joiner.
Proof.
  intros Hop Hin.
  destruct (no_first_char_tokens islower Hop) as (J1 & J2 & J3 & J4).
  destruct Hin as [<-|[<-|[<-|[<-|[]]]]]; assumption.
Qed.

Section RightmostSplit.

Variable islower : ascii -> bool.
Variable stmt : string.

Lemma joint_loop_rightmost f joiner l r :
  no_first_char islower joiner -> 0 <= l -> r < len stmt ->
  forall n i d a b d',
    wf d ->
    i = -1 \/ (l <= i /\ i + len joiner <= r + 1 /\
               occurs_at stmt joiner i = true) ->
    none_good_above islower stmt joiner l r i ->
    Project.joint_loop (Project.X islower f) n stmt joiner l r i d
      = Ret (Some (a, b), d') ->
    exists c d1 d2,
      l <= c /\ c + len joiner <= r + 1 /\ occurs_at stmt joiner c = true /\
      wf d1 /\ wf d2 /\
      Project.X islower f stmt l (c - 1) d1 = Ret (Some a, d2) /\
      Project.X islower f stmt (c + len joiner) r d2 = Ret (Some b, d') /\
      none_good_above islower stmt joiner l r c.
Proof.
  intros Hj Hl Hr. pose proof (len_nonneg joiner) as Hlen.
  induction n as [|n IH]; intros i d a b d' W Hi Habove H; [discriminate|].
  rewrite joint_loop_S in H.
  destruct (Z.eqb_spec i (-1)) as [->|Hne]; [discriminate|].
  destruct Hi as [Hi|(Hi1 & Hi2 & Ho)]; [contradiction|].
  apply bind_Ret in H. destruct H as (x & d1 & Hx & H).
  apply bind_Ret in H. destruct H as (y & d2 & Hy & H).
  pose proof (X_keeps_wf islower _ _ _ _ _ _ _ W Hx) as W1.
  pose proof (X_keeps_wf islower _ _ _ _ _ _ _ W1 Hy) as W2.
  assert (x = None \/ y = None ->
          Project.joint_loop (Project.X islower f) n stmt joiner l r
            (rfind stmt joiner l (i - 1)) d2 = Ret (Some (a, b), d') ->
          exists c e1 e2,
            l <= c /\ c + len joiner <= r + 1 /\
            occurs_at stmt joiner c = true /\ wf e1 /\ wf e2 /\
            Project.X islower f stmt l (c - 1) e1 = Ret (Some a, e2) /\
            Project.X islower f stmt (c + len joiner) r e2
              = Ret (Some b, d') /\
            none_good_above islower stmt joiner l r c) as Hnext.
  { intros Hnone Hloop.
    pose proof (tried_not_good islower stmt joiner l r i f d x d1 y d2
                  W Hx Hy Hnone) as Hbad.
    destruct (Z_le_gt_dec 1 i) as [Hpos|Hzero].
    - refine (IH (rfind stmt joiner l (i - 1)) d2 a b d' W2 _ _ Hloop).
      + destruct (rfind_range stmt joiner l (i - 1) Hl ltac:(lia))
          as [E|(E1 & E2 & E3)]; [left; exact E|right].
        repeat split; try assumption; lia.
      + apply none_good_next; auto; lia.
    - assert (i = 0) by lia. subst i. exfalso.
      assert (Some (a, b) = None) as E; [|discriminate].
      refine (joint_loop_none_good islower stmt f joiner l r Hl _ n _ d2 _ d'
                W2 _ Hloop).
      + intros c Hc Hoc. destruct (Z.eq_dec c 0) as [->|Hc0];
          [exact Hbad|apply Habove; [lia|exact Hoc]].
      + destruct (rfind_occurs stmt joiner l (0 - 1) Hl) as [E|[E1 E2]];
          [left; exact E|right; split; [lia|exact E2]]. }
  destruct x as [a0|]; [destruct y as [b0|]|]; try (apply Hnext; auto; fail).
  unfold ret in H. inversion H; subst.
  exists i, d, d1. repeat split; auto.
Qed.

End RightmostSplit.

(** X13: the pair a binary rule gets from [joint] is the split at the
    rightmost occurrence of its token, inside the span, on both sides of
    which [X] parses: no occurrence further right has two sides that
    parse, whatever the dictionary.  Repeated operators of one kind
    therefore group to the left.  ([islower] is false on the characters of
    the operator tokens, as [str.islower] is.) *)
Theorem joint_returns_rightmost_good_split
  (islower : ascii -> bool)
  (islower_operator : forall c, operator_char c = true -> islower c = false)
  (f n : nat) (stmt joiner : string) (l r : Z) (d d' : dict)
  (a b : Z3.expr)
  (Htoken : In joiner tokens)
  (Hspan : 0 <= l <= r /\ r < len stmt)
  (Hwf : wf d)
  (Hjoint : Project.joint (Project.X islower f) n stmt joiner l r d
              = Ret (Some (a, b), d')) :
  exists c,
    l <= c /\ c + len joiner <= r + 1 /\ occurs_at stmt joiner c = true /\
    (exists d1 d2,
       Project.X islower f stmt l (c - 1) d1 = Ret (Some a, d2) /\
       Project.X islower f stmt (c + len joiner) r d2 = Ret (Some b, d')) /\
    good islower stmt joiner l r c /\
    (forall c', c < c' -> occurs_at stmt joiner c' = true ->
       ~ good islower stmt joiner l r c').
Proof.
  destruct Hspan as [Hl Hr]. unfold Project.joint in Hjoint.
  pose proof (token_no_first_char islower joiner islower_operator Htoken)
    as Hj.
  assert (0 <= l) as Hl0 by lia.
  assert (rfind stmt joiner l (r + 1) = -1 \/
          (l <= rfind stmt joiner l (r + 1) /\
           rfind stmt joiner l (r + 1) + len joiner <= r + 1 /\
           occurs_at stmt joiner (rfind stmt joiner l (r + 1)) = true))
    as Hcand.
  { destruct (rfind_range stmt joiner l (r + 1) Hl0 ltac:(lia))
      as [E|(E1 & E2 & E3)]; [left; exact E|right].
    repeat split; try assumption; lia. }
  assert (none_good_above islower stmt joiner l r
            (rfind stmt joiner l (r + 1))) as Habove0
    by (apply none_good_first; lia).
  destruct (joint_loop_rightmost islower stmt f joiner l r Hj Hl0 Hr
              n _ d a b d' Hwf Hcand Habove0 Hjoint)
    as (c & d1 & d2 & Hc1 & Hc2 & Ho & W1 & W2 & Ha & Hb & Habove).
  exists c. split; [exact Hc1|]. split; [exact Hc2|]. split; [exact Ho|].
  split; [exists d1, d2; split; assumption|].
  split; [|exact Habove].
  exists f, f, d1, d2, a, b, d2, d'. repeat split; assumption.
Qed.

Lemma joint_returns_rightmost_good_split_witness :
  exists c,
    0 <= c /\ c + len "->" <= 6 + 1 /\ occurs_at a_b_c_text "->" c = true /\
    (exists d1 d2,
       Project.X ascii_islower 2 a_b_c_text 0 (c - 1) d1
         = Ret (Some (fst a_implies_b_then_c), d2) /\
       Project.X ascii_islower 2 a_b_c_text (c + len "->") 6 d2
         = Ret (Some (snd a_implies_b_then_c), abc_dict)) /\
    good ascii_islower a_b_c_text "->" 0 6 c /\
    (forall c', c < c' -> occurs_at a_b_c_text "->" c' = true ->
       ~ good ascii_islower a_b_c_text "->" 0 6 c').
Proof.
  apply (joint_returns_rightmost_good_split ascii_islower
           ascii_islower_operator 2 2 a_b_c_text "->" 0 6
           Project.VARS_init abc_dict
           (fst a_implies_b_then_c) (snd a_implies_b_then_c)).
  - right. left. reflexivity.
  - vm_compute. repeat split; discriminate.
  - exact wf_init.
  - vm_compute. reflexivity.
Defined.

(** ** Which operator is read at the root *)

Lemma symbol_of_operator islower :
  (forall c, symbol_char c = true -> islower c = false) ->
  forall c, operator_char c = true -> islower c = false.
Proof.
  intros H c Hc. apply H. unfold symbol_char. rewrite Hc. reflexivity.
Qed.

Section Root.

Variable islower : ascii -> bool.
Hypothesis islower_symbol : forall c, symbol_char c = true -> islower c = false.
Variable stmt : string.

(** When [joint] gives up, no occurrence of the token had two sides that
    parse. *)
Lemma joint_loop_None_no_good f joiner l r :
  no_first_char islower joiner -> 0 <= l -> r < len stmt ->
  forall n i d d',
    wf d ->
    i = -1 \/ (l <= i /\ i + len joiner <= r + 1 /\
               occurs_at stmt joiner i = true) ->
    none_good_above islower stmt joiner l r i ->
    Project.joint_loop (Project.X islower f) n stmt joiner l r i d
      = Ret (None, d') ->
    forall c, occurs_at stmt joiner c = true ->
      ~ good islower stmt joiner l r c.
Proof.
  intros Hj Hl Hr. pose proof (len_nonneg joiner) as Hlen.
  induction n as [|n IH]; intros i d d' W Hi Habove H; [discriminate|].
  rewrite joint_loop_S in H.
  destruct (Z.eqb_spec i (-1)) as [->|Hne].
  { intros c Hoc. destruct (Z_le_gt_dec c (-1)) as [Hc|Hc].
    - apply empty_left_not_good. lia.
    - apply Habove; [lia|exact Hoc]. }
  destruct Hi as [Hi|(Hi1 & Hi2 & Ho)]; [contradiction|].
  apply bind_Ret in H. destruct H as (x & d1 & Hx & H).
  apply bind_Ret in H. destruct H as (y & d2 & Hy & H).
  pose proof (X_keeps_wf islower _ _ _ _ _ _ _ W Hx) as W1.
  pose proof (X_keeps_wf islower _ _ _ _ _ _ _ W1 Hy) as W2.
  assert (x = None \/ y = None ->
          Project.joint_loop (Project.X islower f) n stmt joiner l r
            (rfind stmt joiner l (i - 1)) d2 = Ret (None, d') ->
          forall c, occurs_at stmt joiner c = true ->
            ~ good islower stmt joiner l r c) as Hnext.
  { intros Hnone Hloop.
    pose proof (tried_not_good islower stmt joiner l r i f d x d1 y d2
                  W Hx Hy Hnone) as Hbad.
    destruct (Z_le_gt_dec 1 i) as [Hpos|Hzero].
    - refine (IH (rfind stmt joiner l (i - 1)) d2 d' W2 _ _ Hloop).
      + destruct (rfind_range stmt joiner l (i - 1) Hl ltac:(lia))
          as [E|(E1 & E2 & E3)]; [left; exact E|right].
        repeat split; try assumption; lia.
      + apply none_good_next; auto; lia.
    - assert (i = 0) by lia. subst i.
      intros c Hoc. destruct (Z.lt_trichotomy c 0) as [Hc|[->|Hc]].
      + apply empty_left_not_good. lia.
      + exact Hbad.
      + apply Habove; [lia|exact Hoc]. }
  destruct x as [a0|]; [destruct y as [b0|]|]; try (apply Hnext; auto; fail).
  discriminate.
Qed.

Lemma joint_None_no_good f n joiner l r d d' :
  In joiner tokens -> 0 <= l <= r -> r < len stmt -> wf d ->
  Project.joint (Project.X islower f) n stmt joiner l r d = Ret (None, d') ->
  forall c, occurs_at stmt joiner c = true ->
    ~ good islower stmt joiner l r c.
Proof.
  intros Hin Hl Hr W H. unfold Project.joint in H.
  refine (joint_loop_None_no_good f joiner l r _ ltac:(lia) Hr n _ d d' W _ _ H).
  - apply token_no_first_char; [apply symbol_of_operator, islower_symbol|].
    exact Hin.
  - destruct (rfind_range stmt joiner l (r + 1) ltac:(lia) ltac:(lia))
      as [E|(E1 & E2 & E3)]; [left; exact E|right].
    repeat split; try assumption; lia.
  - apply none_good_first; lia.
Qed.

(** A pair returned by [joint] comes from a good occurrence inside the
    span. *)
Lemma joint_Some_good f n joiner l r d d' a b :
  In joiner tokens -> 0 <= l <= r -> r < len stmt -> wf d ->
  Project.joint (Project.X islower f) n stmt joiner l r d
    = Ret (Some (a, b), d') ->
  exists c, l <= c <= r /\ occurs_at stmt joiner c = true /\
            good islower stmt joiner l r c.
Proof.
  intros Hin Hl Hr W H. unfold Project.joint in H.
  pose proof (token_len joiner Hin) as Hlen.
  assert (rfind stmt joiner l (r + 1) = -1 \/
          (l <= rfind stmt joiner l (r + 1) /\
           rfind stmt joiner l (r + 1) + len joiner <= r + 1 /\
           occurs_at stmt joiner (rfind stmt joiner l (r + 1)) = true))
    as Hcand.
  { destruct (rfind_range stmt joiner l (r + 1) ltac:(lia) ltac:(lia))
      as [E|(E1 & E2 & E3)]; [left; exact E|right].
    repeat split; try assumption; lia. }
  destruct (joint_loop_rightmost islower stmt f joiner l r
              (token_no_first_char islower joiner
                 (symbol_of_operator islower islower_symbol) Hin)
              ltac:(lia) Hr n _ d a b d' W Hcand
              (none_good_first islower stmt joiner l r Hl Hr) H)
    as (c & d1 & d2 & Hc1 & Hc2 & Ho & W1 & W2 & Ha & Hb & _).
  exists c. split; [lia|]. split; [exact Ho|].
  exists f, f, d1, d2, a, b, d2, d'. repeat split; assumption.
Qed.

(** Between a pair of parentheses that [paren] accepts no split of the
    whole span is good: the left side would close a parenthesis it did not
    open. *)
Lemma good_not_around_parens joiner l r c e :
  0 <= l -> char_at stmt l "(" ->
  derives islower stmt (l + 1) (r - 1) e ->
  good islower stmt joiner l r c -> False.
Proof.
  intros Hl Hopen Hd (f1 & f2 & d1 & d2 & a & b & d1' & d2' & W1 & W2 & Ha & Hb).
  pose proof (len_nonneg joiner) as Hlen.
  pose proof (X_derives islower stmt _ _ _ _ _ _ Hl W1 Ha) as Da.
  destruct (derives_balanced islower islower_symbol stmt _ _ _ Da Hl)
    as (Sa & Ea & _).
  assert (0 <= c + len joiner) as Hcj by lia.
  assert (0 <= l + 1) as Hl1 by lia.
  pose proof (X_derives islower stmt _ _ _ _ _ _ Hcj W2 Hb) as Db.
  destruct (derives_balanced islower islower_symbol stmt _ _ _ Db Hcj)
    as (Sb & _ & _).
  destruct (derives_balanced islower islower_symbol stmt _ _ _ Hd Hl1)
    as (_ & _ & Hmin).
  pose proof (paren_depth_step_Z _ _ _ Hopen) as E.
  change (paren_delta "(") with 1 in E.
  replace (c - 1 + 1) with c in Ea by lia.
  specialize (Hmin c ltac:(lia)). lia.
Qed.

(** What a binary rule returns, from what [joint] returned. *)
Lemma rule_result (F : Z3.expr -> Z3.expr -> Z3.expr)
  (m : M (option (Z3.expr * Z3.expr))) d x d' :
  bind m (fun j => ret (match j with
                        | Some (a, b) => Some (F a b)
                        | None => None
                        end)) d = Ret (x, d') ->
  (exists a b, m d = Ret (Some (a, b), d') /\ x = Some (F a b)) \/
  (m d = Ret (None, d') /\ x = None).
Proof.
  intros H. apply bind_Ret in H. destruct H as ([[a b]|] & d1 & Hm & H);
    unfold ret in H; inversion H; subst; eauto.
Qed.

Lemma root_of_span f l r d d' e joiner c :
  0 <= l -> r < len stmt -> wf d ->
  Project.X islower (S f) stmt l r d = Ret (Some e, d') ->
  In joiner tokens ->
  occurs_at stmt joiner c = true -> good islower stmt joiner l r c ->
  (forall j' c', In j' (tokens_before joiner) -> l <= c' <= r ->
     occurs_at stmt j' c' = true -> ~ good islower stmt j' l r c') ->
  exists a b, builds joiner a b e.
Proof.
  intros Hl Hr W H Hin Ho Hgood Hfirst.
  rewrite X_S in H. unfold Project.X_body in H.
  destruct (Z.gtb_spec l r) as [|Hlr]; [discriminate|].
  assert (l <= c - 1 /\ c + len joiner <= r) as Hc.
  { destruct Hgood as (f1 & f2 & d1 & d2 & a & b & d1' & d2' & W1 & W2
                       & Ha & Hb).
    pose proof (len_nonneg joiner).
    pose proof (X_derives islower stmt _ _ _ _ _ _ Hl W1 Ha) as Da.
    destruct (derives_balanced islower islower_symbol stmt _ _ _ Da Hl)
      as (Sa & _).
    assert (0 <= c + len joiner) as Hcj by lia.
    pose proof (X_derives islower stmt _ _ _ _ _ _ Hcj W2 Hb) as Db.
    destruct (derives_balanced islower islower_symbol stmt _ _ _ Db Hcj)
      as (Sb & _).
    lia. }
  (* paren *)
  apply bind_Ret in H. destruct H as ([x|] & d1 & Hp & H); cbn in H.
  { exfalso. inversion H; subst. apply paren_Some in Hp.
    destruct Hp as (Hgl & _ & HX).
    assert (0 <= l + 1) as Hl1 by lia.
    apply (good_not_around_parens joiner l r c e Hl
             (getitem_char_at _ _ _ _ _ Hl Hgl)
             (X_derives islower stmt _ _ _ _ _ _ Hl1 W HX) Hgood). }
  assert (wf d1) as W1
    by (eapply (paren_preserved islower wf (var_keeps_wf islower)); eauto).
  clear Hp. unfold Project.after_paren in H.
  (* var *)
  apply bind_Ret in H. destruct H as ([x|] & d2 & Hv & H); cbn in H.
  { exfalso. destruct (var_Some_inv _ _ _ _ _ _ _ W1 Hv) as (-> & _).
    pose proof (len_nonneg joiner). lia. }
  assert (wf d2) as W2 by (eapply var_keeps_wf; eauto). clear Hv.
  assert (forall j' n d0 a b d3,
            In j' tokens -> In j' (tokens_before joiner) -> wf d0 ->
            Project.joint (Project.X islower f) n stmt j' l r d0
              = Ret (Some (a, b), d3) -> False) as Hearlier.
  { intros j' n d0 a b d3 Hj' Hb W0 Hjoint.
    destruct (joint_Some_good f n j' l r d0 d3 a b Hj' ltac:(lia) Hr W0 Hjoint)
      as (c' & Hc' & Ho' & Hg').
    exact (Hfirst j' c' Hb Hc' Ho' Hg'). }
  assert (forall n d0 d3,
            wf d0 ->
            Project.joint (Project.X islower f) n stmt joiner l r d0
              = Ret (None, d3) -> False) as Hthis.
  { intros n d0 d3 W0 Hjoint.
    exact (joint_None_no_good f n joiner l r d0 d3 Hin ltac:(lia) Hr W0
             Hjoint c Ho Hgood). }
  assert (forall n j' d0 x0 d3,
            wf d0 ->
            Project.joint (Project.X islower f) n stmt j' l r d0
              = Ret (x0, d3) -> wf d3) as Hwf
    by (intros n j' d0 x0 d3 W0 Hjoint;
        exact (joint_loop_preserved islower wf (var_keeps_wf islower)
                 _ _ _ _ _ _ _ _ _ _ W0 Hjoint)).
  (* iff *)
  apply bind_Ret in H. destruct H as (x & d3 & Hrule & H).
  unfold Project.iff in Hrule.
  apply (rule_result (fun a b => Z3.And [Z3.Implies a b; Z3.Implies b a]))
    in Hrule.
  destruct Hrule as [(a & b & Hj & ->)|[Hj ->]]; cbn in H.
  { inversion H; subst.
    destruct Hin as [<-|Hin]; [exists a, b; constructor|].
    exfalso. apply (Hearlier "<->"%string _ _ _ _ _ ltac:(cbn; auto)) with (3 := Hj);
      [|exact W2].
    destruct Hin as [<-|[<-|[<-|[]]]]; cbn; auto. }
  assert (joiner <> "<->"%string) as N1
    by (intros ->; exact (Hthis _ _ _ W2 Hj)).
  pose proof (Hwf _ _ _ _ _ W2 Hj) as W3. clear Hj.
  (* implies *)
  apply bind_Ret in H. destruct H as (x & d4 & Hrule & H).
  unfold Project.implies in Hrule.
  apply (rule_result (fun a b => Z3.Implies a b)) in Hrule.
  destruct Hrule as [(a & b & Hj & ->)|[Hj ->]]; cbn in H.
  { inversion H; subst.
    destruct Hin as [<-|[<-|Hin]];
      [contradiction|exists a, b; constructor|].
    exfalso. apply (Hearlier "->"%string _ _ _ _ _ ltac:(cbn; auto)) with (3 := Hj);
      [|exact W3].
    destruct Hin as [<-|[<-|[]]]; cbn; auto. }
  assert (joiner <> "->"%string) as N2
    by (intros ->; exact (Hthis _ _ _ W3 Hj)).
  pose proof (Hwf _ _ _ _ _ W3 Hj) as W4. clear Hj.
  (* disj *)
  apply bind_Ret in H. destruct H as (x & d5 & Hrule & H).
  unfold Project.disj in Hrule.
  apply (rule_result (fun a b => Z3.Or [a; b])) in Hrule.
  destruct Hrule as [(a & b & Hj & ->)|[Hj ->]]; cbn in H.
  { inversion H; subst.
    destruct Hin as [<-|[<-|[<-|Hin]]];
      [contradiction|contradiction|exists a, b; constructor|].
    exfalso. apply (Hearlier "|"%string _ _ _ _ _ ltac:(cbn; auto)) with (3 := Hj);
      [|exact W4].
    destruct Hin as [<-|[]]; cbn; auto. }
  assert (joiner <> "|"%string) as N3
    by (intros ->; exact (Hthis _ _ _ W4 Hj)).
  pose proof (Hwf _ _ _ _ _ W4 Hj) as W5. clear Hj.
  (* conj *)
  apply bind_Ret in H. destruct H as (x & d6 & Hrule & H).
  unfold Project.conj in Hrule.
  apply (rule_result (fun a b => Z3.And [a; b])) in Hrule.
  destruct Hrule as [(a & b & Hj & ->)|[Hj ->]]; cbn in H.
  { inversion H; subst.
    destruct Hin as [<-|[<-|[<-|[<-|[]]]]]; try contradiction.
    exists a, b. constructor. }
  exfalso.
  destruct Hin as [<-|[<-|[<-|[<-|[]]]]]; try contradiction.
  exact (Hthis _ _ _ W5 Hj).
Qed.

End Root.

(** X14: the operator read at the root of a span is the first one, in
    the order [<->], [->], [|], [&], that has an occurrence with two sides
    that parse: when a token has such an occurrence and no token tried
    before it has one, the tree [X] returns for the span is the node of
    that token, neither a negation nor a parenthesized reading.  So [&]
    binds tighter than [|], [|] tighter than [->], [->] tighter than [<->],
    and [~] tightest.  ([islower] is false on the characters of the
    operator tokens, on the parentheses and on [~], as [str.islower]
    is.) *)
Theorem root_is_first_token_with_good_split
  (islower : ascii -> bool)
  (islower_symbol : forall c, symbol_char c = true -> islower c = false)
  (f : nat) (stmt joiner : string) (l r c : Z) (d d' : dict) (e : Z3.expr)
  (Hspan : 0 <= l /\ r < len stmt)
  (Hwf : wf d)
  (Hparse : Project.X islower (S f) stmt l r d = Ret (Some e, d'))
  (Htoken : In joiner tokens)
  (Hoccurs : occurs_at stmt joiner c = true)
  (Hgood : good islower stmt joiner l r c)
  (Hfirst : forall j' c', In j' (tokens_before joiner) -> l <= c' <= r ->
              occurs_at stmt j' c' = true ->
              ~ good islower stmt j' l r c') :
  exists a b, builds joiner a b e.
Proof.
  destruct Hspan as [Hl Hr].
  exact (root_of_span islower islower_symbol stmt f l r d d' e joiner c
           Hl Hr Hwf Hparse Htoken Hoccurs Hgood Hfirst).
Qed.

Lemma root_is_first_token_with_good_split_witness :
  exists a b, builds "|" a b a_and_b_or_c.
Proof.
  apply (root_is_first_token_with_good_split ascii_islower
           ascii_islower_symbol 2 a_and_b_or_c_text "|" 0 4 3
           Project.VARS_init abc_dict a_and_b_or_c).
  - vm_compute. split; [discriminate|reflexivity].
  - exact wf_init.
  - vm_compute. reflexivity.
  - right. right. left. reflexivity.
  - reflexivity.
  - exists 2%nat, 1%nat, Project.VARS_init,
      [("a"%char, Z3.Bool "a"); ("b"%char, Z3.Bool "b")],
      (Z3.And [Z3.Bool "a"; Z3.Bool "b"]), (Z3.Bool "c"),
      [("a"%char, Z3.Bool "a"); ("b"%char, Z3.Bool "b")], abc_dict.
    split; [exact wf_init|]. split.
    + intros k v. cbn [lookup].
      destruct (Ascii.eqb_spec k "a") as [->|_];
        [intros [= <-]; reflexivity|].
      destruct (Ascii.eqb_spec k "b") as [->|_];
        [intros [= <-]; reflexivity|].
      discriminate.
    + split; vm_compute; reflexivity.
  - intros j' c' Hb Hc' Ho' _.
    assert (c' = 0 \/ c' = 1 \/ c' = 2 \/ c' = 3 \/ c' = 4) as Hcases by lia.
    destruct Hb as [<-|[<-|[]]];
      destruct Hcases as [->|[->|[->|[->| ->]]]];
      vm_compute in Ho'; discriminate.
Defined.

(** ** When [joint] gives up, and when [negate] answers *)

(** X15: [joint] returns [False] only when no occurrence of the token
    has two sides that parse: a split that exists is found, even though
    the retry skips the occurrence that ends right before the candidate
    just tried; the dictionary it leaves still binds every key to the
    constant of its name.  ([islower] is false on the characters of the operator
    tokens, as [str.islower] is.) *)
Theorem joint_gives_up_only_without_good_split
  (islower : ascii -> bool)
  (islower_operator : forall c, operator_char c = true -> islower c = false)
  (f n : nat) (stmt joiner : string) (l r : Z) (d d' : dict)
  (Htoken : In joiner tokens)
  (Hspan : 0 <= l <= r /\ r < len stmt)
  (Hwf : wf d)
  (Hjoint : Project.joint (Project.X islower f) n stmt joiner l r d
              = Ret (None, d')) :
  wf d' /\
  forall c, occurs_at stmt joiner c = true ->
    ~ good islower stmt joiner l r c.
Proof.
  destruct Hspan as [Hl Hr]. unfold Project.joint in Hjoint.
  split.
  { exact (joint_loop_preserved islower wf (var_keeps_wf islower)
             _ _ _ _ _ _ _ _ _ _ Hwf Hjoint). }
  assert (0 <= l) as Hl0 by lia.
  refine (joint_loop_None_no_good islower stmt f joiner l r
            (token_no_first_char islower joiner islower_operator Htoken)
            Hl0 Hr n _ d d' Hwf _ _ Hjoint).
  - destruct (rfind_range stmt joiner l (r + 1) Hl0 ltac:(lia))
      as [E|(E1 & E2 & E3)]; [left; exact E|right].
    repeat split; try assumption; lia.
  - apply none_good_first; lia.
Qed.

Lemma joint_gives_up_only_without_good_split_witness :
  wf [("a"%char, Z3.Bool "a")] /\
  forall c, occurs_at a_or_b_text "|" c = true ->
    ~ good ascii_islower a_or_b_text "|" 0 3 c.
Proof.
  apply (joint_gives_up_only_without_good_split ascii_islower
           ascii_islower_operator 2 2 a_or_b_text "|" 0 3
           Project.VARS_init [("a"%char, Z3.Bool "a")]).
  - right. right. left. reflexivity.
  - vm_compute. repeat split; discriminate || reflexivity.
  - exact wf_init.
  - vm_compute. reflexivity.
Defined.

Section NegateRoot.

Variable islower : ascii -> bool.
Hypothesis islower_symbol : forall c, symbol_char c = true -> islower c = false.
Variable stmt : string.

Lemma negate_at_root f l r d d' x a :
  0 <= l -> r < len stmt -> wf d ->
  char_at stmt l "~" ->
  Project.X islower (S f) stmt l r d = Ret (x, d') ->
  (exists f0 d0 d0',
     wf d0 /\ Project.X islower f0 stmt (l + 1) r d0 = Ret (Some a, d0')) ->
  (forall j c, In j tokens -> l <= c <= r -> occurs_at stmt j c = true ->
     ~ good islower stmt j l r c) ->
  x = Some (Z3.Not a).
Proof.
  intros Hl Hr W [_ Hchar] H (f0 & d0 & d0' & W0 & Hrest) Hnone.
  assert (l + 1 <= r) as Hlr.
  { destruct (Z_gt_le_dec (l + 1) r) as [Hgt|Hle]; [|exact Hle].
    apply (X_empty_span_None islower stmt) in Hrest; [discriminate|exact Hgt]. }
  rewrite X_S in H. unfold Project.X_body in H.
  destruct (Z.gtb_spec l r) as [|_]; [lia|].
  assert (forall V : dict, getitem stmt l V = Ret ("~"%char, V)) as Hg
    by (intros V; apply getitem_of_get; assumption).
  (* paren *)
  apply bind_Ret in H. destruct H as (x0 & d1 & Hp & H).
  rewrite (paren_other _ stmt l r d "~" (Hg d) eq_refl) in Hp.
  inversion Hp; subst x0 d1; clear Hp. cbn [Project.is_z3] in H.
  unfold Project.after_paren in H.
  (* var *)
  apply bind_Ret in H. destruct H as (x1 & d2 & Hv & H).
  rewrite var_wide in Hv by lia.
  inversion Hv; subst x1 d2; clear Hv. cbn [Project.is_z3] in H.
  assert (forall n j d3 a0 b0 d4,
            In j tokens -> wf d3 ->
            Project.joint (Project.X islower f) n stmt j l r d3
              = Ret (Some (a0, b0), d4) -> False) as Hsplit.
  { intros n j d3 a0 b0 d4 Hj W3 Hjoint.
    destruct (joint_Some_good islower islower_symbol stmt f n j l r d3 d4 a0 b0
                Hj ltac:(lia) Hr W3 Hjoint) as (c & Hc & Ho & Hgood).
    exact (Hnone j c Hj Hc Ho Hgood). }
  assert (forall n j d3 x3 d4,
            wf d3 ->
            Project.joint (Project.X islower f) n stmt j l r d3
              = Ret (x3, d4) -> wf d4) as Hwf
    by (intros n j d3 x3 d4 W3 Hjoint;
        exact (joint_loop_preserved islower wf (var_keeps_wf islower)
                 _ _ _ _ _ _ _ _ _ _ W3 Hjoint)).
  (* iff *)
  apply bind_Ret in H. destruct H as (x2 & d3 & Hrule & H).
  unfold Project.iff in Hrule.
  apply (rule_result (fun a b => Z3.And [Z3.Implies a b; Z3.Implies b a]))
    in Hrule.
  destruct Hrule as [(a0 & b0 & Hj & ->)|[Hj ->]];
    [exfalso; apply (Hsplit _ "<->"%string _ _ _ _ ltac:(cbn; auto) W Hj)|].
  pose proof (Hwf _ _ _ _ _ W Hj) as W3. clear Hj. cbn [Project.is_z3] in H.
  (* implies *)
  apply bind_Ret in H. destruct H as (x3 & d4 & Hrule & H).
  unfold Project.implies in Hrule.
  apply (rule_result (fun a b => Z3.Implies a b)) in Hrule.
  destruct Hrule as [(a0 & b0 & Hj & ->)|[Hj ->]];
    [exfalso; apply (Hsplit _ "->"%string _ _ _ _ ltac:(cbn; auto) W3 Hj)|].
  pose proof (Hwf _ _ _ _ _ W3 Hj) as W4. clear Hj. cbn [Project.is_z3] in H.
  (* disj *)
  apply bind_Ret in H. destruct H as (x4 & d5 & Hrule & H).
  unfold Project.disj in Hrule.
  apply (rule_result (fun a b => Z3.Or [a; b])) in Hrule.
  destruct Hrule as [(a0 & b0 & Hj & ->)|[Hj ->]];
    [exfalso; apply (Hsplit _ "|"%string _ _ _ _ ltac:(cbn; auto) W4 Hj)|].
  pose proof (Hwf _ _ _ _ _ W4 Hj) as W5. clear Hj. cbn [Project.is_z3] in H.
  (* conj *)
  apply bind_Ret in H. destruct H as (x5 & d6 & Hrule & H).
  unfold Project.conj in Hrule.
  apply (rule_result (fun a b => Z3.And [a; b])) in Hrule.
  destruct Hrule as [(a0 & b0 & Hj & ->)|[Hj ->]];
    [exfalso; apply (Hsplit _ "&"%string _ _ _ _ ltac:(cbn; auto 6) W5 Hj)|].
  pose proof (Hwf _ _ _ _ _ W5 Hj) as W6. clear Hj. cbn [Project.is_z3] in H.
  (* negate *)
  apply bind_Ret in H. destruct H as (x6 & d7 & Hn & H).
  unfold Project.negate in Hn.
  rewrite (bind_of_Ret _ _ _ _ _ (Hg d6)) in Hn.
  change (Ascii.eqb "~" "~") with true in Hn. cbv iota in Hn.
  apply bind_Ret in Hn. destruct Hn as (y & d8 & Hy & Hn).
  pose proof (X_result_unique islower _ _ _ _ _ _ _ _ _ _ _ W6 W0 Hy Hrest)
    as ->.
  unfold ret in Hn. inversion Hn; subst x6 d8.
  cbn [Project.is_z3] in H. unfold ret in H. inversion H. reflexivity.
Qed.

End NegateRoot.

(** X16: on a span that starts with [~], when no operator token has an
    occurrence with two sides that parse and the rest of the span parses
    to a tree, [X] returns the negation of that tree (whenever it
    returns): a negation is read only where no binary split succeeds, and
    then it covers the rest of the span.  ([islower] is false on the
    characters of the operator tokens, on the parentheses and on [~], as
    [str.islower] is.) *)
Theorem negation_reads_the_rest_of_the_span
  (islower : ascii -> bool)
  (islower_symbol : forall c, symbol_char c = true -> islower c = false)
  (f : nat) (stmt : string) (l r : Z) (d d' : dict)
  (x : option Z3.expr) (a : Z3.expr)
  (Hspan : 0 <= l /\ r < len stmt)
  (Hwf : wf d)
  (Htilde : char_at stmt l "~")
  (Hrun : Project.X islower (S f) stmt l r d = Ret (x, d'))
  (Hrest : exists f0 d0 d0',
             wf d0 /\
             Project.X islower f0 stmt (l + 1) r d0 = Ret (Some a, d0'))
  (Hnone : forall j c, In j tokens -> l <= c <= r ->
             occurs_at stmt j c = true -> ~ good islower stmt j l r c) :
  x = Some (Z3.Not a).
Proof.
  destruct Hspan as [Hl Hr].
  exact (negate_at_root islower islower_symbol stmt f l r d d' x a
           Hl Hr Hwf Htilde Hrun Hrest Hnone).
Qed.

Lemma negation_reads_the_rest_of_the_span_witness :
  Some not_a_or_b = Some (Z3.Not (Z3.Or [Z3.Bool "a"; Z3.Bool "b"])).
Proof.
  apply (negation_reads_the_rest_of_the_span ascii_islower
           ascii_islower_symbol 4 not_a_text 0 5
           Project.VARS_init ab_dict (Some not_a_or_b)
           (Z3.Or [Z3.Bool "a"; Z3.Bool "b"])).
  - vm_compute. split; [discriminate|reflexivity].
  - exact wf_init.
  - split; [lia|reflexivity].
  - vm_compute. reflexivity.
  - exists 3%nat, Project.VARS_init, ab_dict.
    split; [exact wf_init|vm_compute; reflexivity].
  - intros j c Hj Hc Ho Hgood.
    destruct Hgood as (f1 & f2 & d1 & d2 & a0 & b0 & d1' & d2' & W1 & W2
                       & Ha & Hb).
    assert (c = 0 \/ c = 1 \/ c = 2 \/ c = 3 \/ c = 4 \/ c = 5) as Hcases
      by lia.
    destruct Hj as [<-|[<-|[<-|[<-|[]]]]];
      destruct Hcases as [->|[->|[->|[->|[->| ->]]]]];
      vm_compute in Ho; try discriminate.
    (* the only occurrence: [|] at index 3, whose left side is [~(a] *)
    pose proof (X_derives ascii_islower not_a_text _ _ _ _ _ _
                  (Z.le_refl 0) W1 Ha) as Da.
    destruct (derives_balanced ascii_islower ascii_islower_symbol
                not_a_text _ _ _ Da (Z.le_refl 0)) as (_ & E & _).
    vm_compute in E. discriminate.
Defined.

(** ** A dictionary left over from another formula *)

(** C9, counterexample: [VARS] is created once, when the module is loaded,
    and [get_z3_expr] does not clear it.  After the parse of [b] has left
    its name in the dictionary, the parse of [a] returns the same tree as
    from the empty dictionary, but leaves two names where the fresh parse
    leaves one, and the table of the same formula has a column more and four
    rows instead of two. *)
Lemma leftover_registry_changes_the_rows :
  Project.get_z3_expr ascii_islower 3 "b" Project.VARS_init
    = Ret (Some (Z3.Bool "b"), b_dict) /\
  Project.get_z3_expr ascii_islower 3 "a" Project.VARS_init
    = Ret (Some (Z3.Bool "a"), a_dict) /\
  Project.get_z3_expr ascii_islower 3 "a" b_dict
    = Ret (Some (Z3.Bool "a"), ab_dict_ba) /\
  Project.rows (Z3.Bool "a") a_dict = [([false], false); ([true], true)] /\
  Project.rows (Z3.Bool "a") ab_dict_ba
    = [([false; false], false); ([false; true], false);
       ([true; false], true); ([true; true], true)] /\
  Project.main ascii_islower 3 [prog; "a"] Project.VARS_init
    = Ret ((["a | a"; "====="; "F | F"; "T | T"], 0), a_dict) /\
  Project.main ascii_islower 3 [prog; "a"] b_dict
    = Ret ((["a | b | a"; "========="; "F | F | F"; "F | T | F";
             "T | F | T"; "T | T | T"], 0), ab_dict_ba).
Proof. repeat split; vm_compute; reflexivity. Qed.

Lemma contains_setitem_eq d c c' v :
  contains c' (setitem d c v) = Ascii.eqb c' c || contains c' d.
Proof.
  unfold contains. destruct (Ascii.eqb_spec c' c) as [->|Hne].
  - rewrite lookup_setitem. reflexivity.
  - rewrite lookup_setitem_other by exact Hne. reflexivity.
Qed.

Lemma keys_contains c d : In c (keys d) -> contains c d = true.
Proof.
  intros Hin. unfold contains. destruct (lookup c d) eqn:E; [reflexivity|].
  exfalso. exact (lookup_None c d E Hin).
Qed.

(** [var] keeps two runs side by side. *)
Lemma var_beside islower left_over stmt l r :
  refines (beside left_over) (Project.var islower stmt l r)
                             (Project.var islower stmt l r).
Proof.
  unfold Project.var.
  destruct (negb (r =? l)); [apply refines_ret|].
  apply refines_bind; [apply refines_getitem|intros c].
  destruct (islower c).
  - intros d1 d2 (W1 & W2 & Hk). rewrite !var_lowercase_run by assumption.
    eexists. split; [reflexivity|].
    split; [|split].
    + destruct (contains c d1); [exact W1|apply wf_setitem, W1].
    + destruct (contains c d2); [exact W2|apply wf_setitem, W2].
    + intros c'.
      assert (forall dd,
                contains c' (if contains c dd then dd
                             else setitem dd c (Z3.Bool c))
                = Ascii.eqb c' c || contains c' dd) as Hset.
      { intros dd. destruct (contains c dd) eqn:E;
          [|apply contains_setitem_eq].
        destruct (Ascii.eqb_spec c' c) as [->|_]; [|reflexivity].
        rewrite E. reflexivity. }
      rewrite !Hset, Hk.
      destruct (Ascii.eqb c' c), (contains c' d1); reflexivity.
  - destruct (Ascii.eqb c "T"); [|destruct (Ascii.eqb c "F")];
      apply refines_ret.
Qed.

(** The run from a left-over dictionary follows the run from the empty
    one: same answer, and side by side at the end. *)
Lemma X_beside islower f stmt l r left_over x V0 :
  wf left_over ->
  Project.X islower f stmt l r Project.VARS_init = Ret (x, V0) ->
  exists V1,
    Project.X islower f stmt l r left_over = Ret (x, V1) /\
    beside left_over V0 V1.
Proof.
  intros W H.
  pose proof (refines_X islower (beside left_over)
                (var_beside islower left_over) f f stmt l r (le_n _)
                Project.VARS_init left_over) as Hr.
  rewrite H in Hr. apply Hr.
  split; [exact wf_init|]. split; [exact W|]. intros c. reflexivity.
Qed.

Lemma nat_of_ascii_inj a b : nat_of_ascii a = nat_of_ascii b -> a = b.
Proof.
  intros E. rewrite <- (ascii_nat_embedding a), <- (ascii_nat_embedding b), E.
  reflexivity.
Qed.

Lemma key_le_trans : Relations_1.Transitive key_le.
Proof. intros x y z. unfold key_le. lia. Qed.

(** Sorted by key, without a key twice and each key with the constant of
    its name: the keys decide the list. *)
Lemma sorted_entries_unique : forall l1 l2 : list (ascii * Z3.expr),
  Sorted key_le l1 -> Sorted key_le l2 ->
  NoDup (keys l1) -> NoDup (keys l2) ->
  entries_wf l1 -> entries_wf l2 ->
  (forall c, In c (keys l1) <-> In c (keys l2)) ->
  l1 = l2.
Proof.
  induction l1 as [|[k1 v1] l1 IH]; intros l2 S1 S2 N1 N2 W1 W2 Hk.
  - destruct l2 as [|[k2 v2] l2]; [reflexivity|].
    exfalso. apply (proj2 (Hk k2)). left. reflexivity.
  - destruct l2 as [|[k2 v2] l2].
    { exfalso. apply (proj1 (Hk k1)). left. reflexivity. }
    apply Sorted_StronglySorted in S1; [|exact key_le_trans].
    apply Sorted_StronglySorted in S2; [|exact key_le_trans].
    inversion S1 as [|? ? S1' F1]; subst.
    inversion S2 as [|? ? S2' F2]; subst.
    rewrite Forall_forall in F1, F2.
    cbn [keys map fst] in N1, N2.
    inversion N1 as [|? ? Hn1 N1']; subst.
    inversion N2 as [|? ? Hn2 N2']; subst.
    assert (forall k (l : list (ascii * Z3.expr)),
              In k (keys l) -> exists v, In (k, v) l) as Hentry.
    { intros k l Hin. unfold keys in Hin. apply in_map_iff in Hin.
      destruct Hin as ([k' v] & <- & Hin). exists v. exact Hin. }
    assert (k1 = k2) as ->.
    { apply nat_of_ascii_inj. apply Nat.le_antisymm.
      - destruct (proj2 (Hk k2) (or_introl eq_refl)) as [E|Hin].
        + cbn in E. subst. lia.
        + destruct (Hentry _ _ Hin) as (v & Hv).
          exact (F1 _ Hv).
      - destruct (proj1 (Hk k1) (or_introl eq_refl)) as [E|Hin].
        + cbn in E. subst. lia.
        + destruct (Hentry _ _ Hin) as (v & Hv).
          exact (F2 _ Hv). }
    rewrite (W1 k2 v1 (or_introl eq_refl)), (W2 k2 v2 (or_introl eq_refl)).
    f_equal. apply IH.
    + apply StronglySorted_Sorted, S1'.
    + apply StronglySorted_Sorted, S2'.
    + exact N1'.
    + exact N2'.
    + intros k h Hin. apply W1. right. exact Hin.
    + intros k h Hin. apply W2. right. exact Hin.
    + intros c. split; intros Hin.
      * destruct (proj1 (Hk c) (or_intror Hin)) as [E|Hin']; [|exact Hin'].
        cbn in E. subst. contradiction.
      * destruct (proj2 (Hk c) (or_intror Hin)) as [E|Hin']; [|exact Hin'].
        cbn in E. subst. contradiction.
Qed.

(** What a parse leaves of a dictionary whose entries are well formed and
    whose keys are distinct is again such a dictionary. *)
Lemma X_keeps_entries islower f stmt l r d x d' :
  entries_wf d -> NoDup (keys d) ->
  Project.X islower f stmt l r d = Ret (x, d') ->
  entries_wf d' /\ NoDup (keys d').
Proof.
  intros W N H. split.
  - exact (X_preserved islower entries_wf (var_keeps_entries_wf islower)
             _ _ _ _ _ _ _ W H).
  - exact (X_preserved islower (fun d => NoDup (keys d))
             (var_keeps_NoDup islower) _ _ _ _ _ _ _ N H).
Qed.

(** C9, as the code has it.  [left_over] is what the parse of another
    formula left in [VARS]; the same text is parsed once from the empty
    dictionary and once from [left_over].  The second parse returns too,
    with the same tree or the same [False]; it leaves [left_over] followed
    by the names of the text that were missing, so that the dictionary
    holds the names of the fresh parse and the left-over ones; the table has
    [2 ^ n] rows for the [n] names of the dictionary, never fewer than the
    fresh table; it has more rows as soon as a left-over name is not a name
    of the fresh parse, and the same rows when every left-over name is one.
    Parses from the empty dictionary agree with each other whatever fuel
    they are given. *)
Theorem reparse_after_another_formula
  (islower : ascii -> bool) (fuel0 fuel : nat) (other text : string)
  (x0 x : option Z3.expr) (left_over V0 : dict)
  (Hother : Project.get_z3_expr islower fuel0 other Project.VARS_init
            = Ret (x0, left_over))
  (Hfresh : Project.get_z3_expr islower fuel text Project.VARS_init
            = Ret (x, V0)) :
  exists V1,
    Project.get_z3_expr islower fuel text left_over = Ret (x, V1) /\
    registered islower (remove_spaces text) left_over V1 /\
    (forall c, contains c V1 = contains c V0 || contains c left_over) /\
    (forall e,
       List.length (Project.rows e V0) = (2 ^ List.length V0)%nat /\
       List.length (Project.rows e V1) = (2 ^ List.length V1)%nat /\
       (List.length (Project.rows e V0)
        <= List.length (Project.rows e V1))%nat) /\
    ((exists c, contains c left_over = true /\ contains c V0 = false) ->
     forall e, (List.length (Project.rows e V0)
                < List.length (Project.rows e V1))%nat) /\
    ((forall c, contains c left_over = true -> contains c V0 = true) ->
     sorted_items V1 = sorted_items V0 /\
     forall e, Project.rows e V1 = Project.rows e V0) /\
    (forall fuel' x' V',
       Project.get_z3_expr islower fuel' text Project.VARS_init
         = Ret (x', V') ->
       x' = x /\ V' = V0).
Proof.
  unfold Project.get_z3_expr in *.
  set (stmt := remove_spaces text) in *.
  assert (entries_wf Project.VARS_init) as Winit by (intros k h []).
  assert (NoDup (keys Project.VARS_init)) as Ninit by constructor.
  pose proof (X_keeps_wf islower _ _ _ _ _ _ _ wf_init Hother) as Wlo.
  destruct (X_keeps_entries islower _ _ _ _ _ _ _ Winit Ninit Hother)
    as [Elo Nlo].
  destruct (X_keeps_entries islower _ _ _ _ _ _ _ Winit Ninit Hfresh)
    as [E0 N0].
  destruct (X_beside islower _ _ _ _ _ _ _ Wlo Hfresh)
    as (V1 & Hrun & _ & _ & Hkeys).
  destruct (X_keeps_entries islower _ _ _ _ _ _ _ Elo Nlo Hrun) as [E1 N1].
  assert (incl (keys V0) (keys V1)) as Hincl.
  { intros c Hin. apply contains_keys. rewrite Hkeys.
    rewrite (keys_contains _ _ Hin). reflexivity. }
  assert (List.length V0 <= List.length V1)%nat as Hlen.
  { pose proof (NoDup_incl_length N0 Hincl) as Hl.
    unfold keys in Hl. rewrite !length_map in Hl. exact Hl. }
  exists V1. split; [exact Hrun|]. split; [|split; [exact Hkeys|]].
  { exact (X_changes islower stmt _
             (registered_refl islower _) (registered_trans islower _)
             (var_registered islower _) _ _ _ _ _ _ Hrun). }
  split; [|split; [|split]].
  - intros e. rewrite !length_rows.
    split; [reflexivity|]. split; [reflexivity|].
    apply Nat.pow_le_mono_r; [discriminate|exact Hlen].
  - intros (c & Hc & Hc0) e. rewrite !length_rows.
    apply Nat.pow_lt_mono_r; [repeat constructor|].
    destruct (Nat.lt_ge_cases (List.length V0) (List.length V1))
      as [Hlt|Hge]; [exact Hlt|exfalso].
    assert (incl (keys V1) (keys V0)) as Hback.
    { apply (NoDup_length_incl N0); [|exact Hincl].
      unfold keys. rewrite !length_map. exact Hge. }
    assert (In c (keys V1)) as Hin.
    { apply contains_keys. rewrite Hkeys, Hc. apply orb_true_r. }
    rewrite (keys_contains _ _ (Hback _ Hin)) in Hc0. discriminate.
  - intros Hall.
    assert (sorted_items V1 = sorted_items V0) as Hsorted.
    { destruct (sorted_items_wf V1 E1 N1) as (E1' & N1' & _).
      destruct (sorted_items_wf V0 E0 N0) as (E0' & N0' & _).
      apply sorted_entries_unique; auto using sorted_items_sorted.
      intros c. rewrite !keys_sorted_items. split; intros Hin.
      - apply keys_contains in Hin. rewrite Hkeys in Hin.
        apply contains_keys.
        destruct (contains c V0) eqn:Ec; [reflexivity|].
        cbn in Hin. rewrite (Hall _ Hin) in Ec. discriminate.
      - exact (Hincl _ Hin). }
    split; [exact Hsorted|].
    intros e. unfold Project.rows. rewrite Hsorted. reflexivity.
  - intros fuel' x' V' H'.
    pose proof (X_fuel_mono islower _ _ _ _ _ _ _ _ Hfresh
                  (Nat.le_max_l fuel fuel')) as A1.
    pose proof (X_fuel_mono islower _ _ _ _ _ _ _ _ H'
                  (Nat.le_max_r fuel fuel')) as A2.
    rewrite A1 in A2. inversion A2; subst. split; reflexivity.
Qed.

Lemma reparse_after_another_formula_witness :
  exists V1,
    Project.get_z3_expr ascii_islower 3 "a" b_dict
      = Ret (Some (Z3.Bool "a"), V1) /\
    registered ascii_islower (remove_spaces "a") b_dict V1 /\
    (forall c, contains c V1 = contains c a_dict || contains c b_dict) /\
    (forall e,
       List.length (Project.rows e a_dict) = (2 ^ List.length a_dict)%nat /\
       List.length (Project.rows e V1) = (2 ^ List.length V1)%nat /\
       (List.length (Project.rows e a_dict)
        <= List.length (Project.rows e V1))%nat) /\
    ((exists c, contains c b_dict = true /\ contains c a_dict = false) ->
     forall e, (List.length (Project.rows e a_dict)
                < List.length (Project.rows e V1))%nat) /\
    ((forall c, contains c b_dict = true -> contains c a_dict = true) ->
     sorted_items V1 = sorted_items a_dict /\
     forall e, Project.rows e V1 = Project.rows e a_dict) /\
    (forall fuel' x' V',
       Project.get_z3_expr ascii_islower fuel' "a" Project.VARS_init
         = Ret (x', V') ->
       x' = Some (Z3.Bool "a") /\ V' = a_dict).
Proof.
  apply (reparse_after_another_formula ascii_islower 3 3 "b" "a"
           (Some (Z3.Bool "b")) (Some (Z3.Bool "a")) b_dict a_dict);
    vm_compute; reflexivity.
Defined.
